(** * custom-nestjs-automapper: the mapping engine, embedded and verified

    A shallow embedding of [src/core/mapper.ts] (the [Mapper] class with the
    compiled closures and the instance cache: [compileMapFunction],
    [compileAsyncMapFunction], [map], [mapAsync], [createMap],
    [createReverseMap], [findEntry], ...), of
    [utils/naming-convention.util.ts] ([convertNamingConvention]) and of
    [utils/deep-clone.util.ts] ([deepClone]).

    Modelling conventions.
    - JavaScript values are trees ([value]); every object, array and date
      carries the identity ([ref]) it was allocated with, so that the
      identity-keyed instance cache can be modelled.  Fresh identities come
      from a counter in the runtime state.
    - Objects expose their own enumerable properties as an association list
      in enumeration order.  Members inherited from [Object.prototype] and
      methods of primitives are not part of the model.
    - Caller-supplied code (field functions, hooks, transformers) acts on an
      abstract world [W] and either returns a value or throws.  It does not
      call back into the Mapper; on the async path a promise it returns is
      the outcome that promise settles with, on the sync path it returns
      plain values.
    - The metadata that the closures read through the reflect-metadata
      library is a table they query ([MetadataProvider]), whoever wrote
      it.
    - Classes are data classes: a new instance has the fields of the class
      as own properties, and the class adds no method or accessor.
    - Strings are byte strings; the naming converter is modelled on ASCII
      identifiers.
    - [map] is recursive through nested mappings on values that hooks may
      replace, so it is defined with fuel; [None] means out of fuel. *)

From Stdlib Require Import String Ascii List ZArith Bool Lia DecimalString.
From stdpp Require Import base option list gmap strings.
Import ListNotations.

Set Warnings "-register-all".
Local Open Scope string_scope.
Local Open Scope nat_scope.

(** ** Errors and outcomes *)

(** A JavaScript [Error] object: its [name], its [message] and the
    [originalError] property that [createMappingError] attaches. *)
Inductive jsError : Type :=
| JsError (name : string) (message : string) (originalError : option jsError).

Definition errMessage (e : jsError) : string :=
  match e with JsError _ m _ => m end.

Definition errOriginal (e : jsError) : option jsError :=
  match e with JsError _ _ o => o end.

Definition TypeError (message : string) : jsError :=
  JsError "TypeError" message None.

(** The result of running code that may throw. *)
Inductive outcome (A : Type) : Type :=
| Ret (a : A)
| Throw (e : jsError).
Arguments Ret {A} a.
Arguments Throw {A} e.

Definition isRet {A} (r : outcome A) : bool :=
  match r with Ret _ => true | Throw _ => false end.

(** ** utils/naming-convention.util.ts *)

Module Naming.

Inductive Style : Type := camelCase | snake_case | PascalCase | kebab_case.

Definition isUpper (c : ascii) : bool :=
  let n := nat_of_ascii c in (65 <=? n) && (n <=? 90).

Definition isLower (c : ascii) : bool :=
  let n := nat_of_ascii c in (97 <=? n) && (n <=? 122).

(** The ASCII part of the regular-expression class [\s]. *)
Definition isSpace (c : ascii) : bool :=
  let n := nat_of_ascii c in ((9 <=? n) && (n <=? 13)) || (n =? 32).

Definition isUnderscore (c : ascii) : bool := (nat_of_ascii c =? 95).

Definition lowerChar (c : ascii) : ascii :=
  if isUpper c then ascii_of_nat (nat_of_ascii c + 32) else c.

Definition upperChar (c : ascii) : ascii :=
  if isLower c then ascii_of_nat (nat_of_ascii c - 32) else c.

(** [w.toLowerCase()] on a string of ASCII characters. *)
Fixpoint toLowerCase (s : string) : string :=
  match s with
  | EmptyString => EmptyString
  | String c r => String (lowerChar c) (toLowerCase r)
  end.

(** [s.replace(/([A-Z])/g, ' $1')] *)
Fixpoint spaceBeforeUpper (s : string) : string :=
  match s with
  | EmptyString => EmptyString
  | String c r =>
      if isUpper c then String " " (String c (spaceBeforeUpper r))
      else String c (spaceBeforeUpper r)
  end.

Fixpoint trimStart (s : string) : string :=
  match s with
  | EmptyString => EmptyString
  | String c r => if isSpace c then trimStart r else s
  end.

Fixpoint trimEnd (s : string) : string :=
  match s with
  | EmptyString => EmptyString
  | String c r =>
      match trimEnd r with
      | EmptyString => if isSpace c then EmptyString else String c EmptyString
      | r' => String c r'
      end
  end.

Definition trim (s : string) : string := trimEnd (trimStart s).

Definition consHead (c : ascii) (ws : list string) : list string :=
  match ws with
  | [] => [String c EmptyString]
  | w :: ws' => String c w :: ws'
  end.

(** [s.split(sep)] for a one-character separator string. *)
Fixpoint splitChar (sep : ascii) (s : string) : list string :=
  match s with
  | EmptyString => [EmptyString]
  | String c r =>
      if Ascii.eqb c sep then EmptyString :: splitChar sep r
      else consHead c (splitChar sep r)
  end.

Definition startsWithSep (sep : ascii -> bool) (s : string) : bool :=
  match s with
  | EmptyString => false
  | String c _ => sep c
  end.

(** [s.split(/[...]+/)]: maximal runs of separator characters are one
    separator; a run at either end leaves an empty piece there. *)
Fixpoint splitRuns (sep : ascii -> bool) (s : string) : list string :=
  match s with
  | EmptyString => [EmptyString]
  | String c r =>
      if sep c then
        if startsWithSep sep r then splitRuns sep r
        else EmptyString :: splitRuns sep r
      else consHead c (splitRuns sep r)
  end.

Definition isSpaceOrUnderscore (c : ascii) : bool := isSpace c || isUnderscore c.

(** [w[0].toUpperCase() + w.slice(1)]: on the empty word [w[0]] is
    [undefined] and the method call throws. *)
Definition capitalize (w : string) : outcome string :=
  match w with
  | EmptyString =>
      Throw (TypeError "Cannot read properties of undefined (reading 'toUpperCase')")
  | String c r => Ret (String (upperChar c) r)
  end.

(** [words.map(f)] for a callback that may throw: left to right, the first
    exception aborts. *)
Fixpoint mapWords (f : nat -> string -> outcome string) (i : nat) (ws : list string)
  : outcome (list string) :=
  match ws with
  | [] => Ret []
  | w :: r =>
      match f i w with
      | Throw e => Throw e
      | Ret w' =>
          match mapWords f (S i) r with
          | Throw e => Throw e
          | Ret r' => Ret (w' :: r')
          end
      end
  end.

Fixpoint join (sep : string) (ws : list string) : string :=
  match ws with
  | [] => EmptyString
  | [w] => w
  | w :: r => w +:+ sep +:+ join sep r
  end.

Definition splitWords (propertyName : string) (from : Style) : list string :=
  match from with
  | camelCase => splitRuns isSpaceOrUnderscore (spaceBeforeUpper propertyName)
  | PascalCase => splitRuns isSpaceOrUnderscore (trim (spaceBeforeUpper propertyName))
  | snake_case => splitChar "_" propertyName
  | kebab_case => splitChar "-" propertyName
  end.

Definition convertNamingConvention (propertyName : string) (from to : Style)
  : outcome string :=
  let words := List.map toLowerCase (splitWords propertyName from) in
  match to with
  | camelCase =>
      match mapWords (fun i w => if i =? 0 then Ret w else capitalize w) 0 words with
      | Throw e => Throw e
      | Ret ws => Ret (join "" ws)
      end
  | PascalCase =>
      match mapWords (fun _ w => capitalize w) 0 words with
      | Throw e => Throw e
      | Ret ws => Ret (join "" ws)
      end
  | snake_case => Ret (join "_" words)
  | kebab_case => Ret (join "-" words)
  end.

End Naming.


(** ** JavaScript values *)

(** Object identity. *)
Definition ref : Type := nat.

(** A constructor function as far as the registry looks at it: the identity
    it was created with and its [name].  Two constructor functions are the
    same object ([===]) when they are equal as [Ctor]s; classes that only
    share their name differ in [ctor_id]. *)
Record Ctor : Type := mkCtor { ctor_id : nat; ctor_name : string }.

#[global] Instance Ctor_eq_dec : EqDecision Ctor.
Proof. solve_decision. Defined.

#[global] Program Instance Ctor_countable : Countable Ctor :=
  inj_countable' (fun c => (ctor_id c, ctor_name c)) (fun p => mkCtor (fst p) (snd p)) _.
Next Obligation. by intros []. Qed.

Definition ObjectCtor : Ctor := mkCtor 0 "Object".
Definition ArrayCtor : Ctor := mkCtor 1 "Array".
Definition DateCtor : Ctor := mkCtor 2 "Date".
Definition NumberCtor : Ctor := mkCtor 3 "Number".
Definition StringCtor : Ctor := mkCtor 4 "String".
Definition BooleanCtor : Ctor := mkCtor 5 "Boolean".

Inductive value : Type :=
| VUndefined
| VNull
| VBool (b : bool)
| VNum (n : Z)
| VStr (s : string)
| VDate (id : ref) (time : Z)
| VArr (id : ref) (items : list value)
| VObj (id : ref) (ctor : Ctor) (props : list (string * value)).

Definition props : Type := list (string * value).

Definition isNull (v : value) : bool :=
  match v with VNull => true | _ => false end.

Definition isUndefined (v : value) : bool :=
  match v with VUndefined => true | _ => false end.

Definition isArray (v : value) : bool :=
  match v with VArr _ _ => true | _ => false end.

(** The value in a boolean position ([if (v)], [a || b]). *)
Definition truthy (v : value) : bool :=
  match v with
  | VUndefined | VNull => false
  | VBool b => b
  | VNum n => negb (n =? 0)%Z
  | VStr s => negb (String.eqb s "")
  | VDate _ _ | VArr _ _ | VObj _ _ _ => true
  end.

(** [v.constructor]; reading it off [null] or [undefined] throws. *)
Definition constructorOf (v : value) : option Ctor :=
  match v with
  | VUndefined | VNull => None
  | VBool _ => Some BooleanCtor
  | VNum _ => Some NumberCtor
  | VStr _ => Some StringCtor
  | VDate _ _ => Some DateCtor
  | VArr _ _ => Some ArrayCtor
  | VObj _ c _ => Some c
  end.

(** The identity under which a value can be a [WeakMap] key. *)
Definition identityOf (v : value) : option ref :=
  match v with
  | VDate id _ | VArr id _ | VObj id _ _ => Some id
  | _ => None
  end.

(** *** Own properties *)

Fixpoint lookupProp {A} (k : string) (ps : list (string * A)) : option A :=
  match ps with
  | [] => None
  | (k', v) :: r => if decide (k = k') then Some v else lookupProp k r
  end.

(** [k in obj] *)
Definition hasKey {A} (k : string) (ps : list (string * A)) : bool :=
  match lookupProp k ps with Some _ => true | None => false end.

(** [obj[k]] *)
Definition readProp (k : string) (ps : props) : value :=
  match lookupProp k ps with Some v => v | None => VUndefined end.

(** [obj[k] = v]: an existing property keeps its place in the enumeration
    order, a new one is added last. *)
Fixpoint assignProp {A} (k : string) (v : A) (ps : list (string * A))
  : list (string * A) :=
  match ps with
  | [] => [(k, v)]
  | (k', v') :: r =>
      if decide (k = k') then (k, v) :: r else (k', v') :: assignProp k v r
  end.

Definition indexKey (i : nat) : string := NilEmpty.string_of_uint (Nat.to_uint i).

Fixpoint indexed {A} (f : A -> value) (i : nat) (l : list A) : props :=
  match l with
  | [] => []
  | x :: r => (indexKey i, f x) :: indexed f (S i) r
  end.

Definition chars (s : string) : list ascii := list_ascii_of_string s.

(** The enumerable properties a [for (k in v)] loop visits, with their
    values. *)
Definition propsOf (v : value) : props :=
  match v with
  | VObj _ _ ps => ps
  | VArr _ items => indexed (fun x => x) 0 items
  | VStr s => indexed (fun c => VStr (String c EmptyString)) 0 (chars s)
  | _ => []
  end.

Definition ownKeys (v : value) : list string := List.map fst (propsOf v).

Definition cannotRead (k : string) : jsError :=
  TypeError ("Cannot read properties of null or undefined (reading '" +:+ k +:+ "')").

(** [v[k]] *)
Definition getMember (v : value) (k : string) : outcome value :=
  match v with
  | VUndefined | VNull => Throw (cannotRead k)
  | VArr _ items =>
      if decide (k = "length") then Ret (VNum (Z.of_nat (length items)))
      else Ret (readProp k (propsOf v))
  | VStr s =>
      if decide (k = "length") then Ret (VNum (Z.of_nat (String.length s)))
      else Ret (readProp k (propsOf v))
  | _ => Ret (readProp k (propsOf v))
  end.

(** [v?.[k]] *)
Definition optMember (v : value) (k : string) : value :=
  match getMember v k with
  | Ret x => x
  | Throw _ => VUndefined
  end.

(** [k in v]; the operator throws when [v] is not an object. *)
Definition hasMember (k : string) (v : value) : outcome bool :=
  match v with
  | VObj _ _ ps => Ret (hasKey k ps)
  | VArr _ _ => Ret (hasKey k (propsOf v) || bool_decide (k = "length"))
  | VDate _ _ => Ret false
  | _ => Throw (TypeError ("Cannot use 'in' operator to search for '" +:+ k +:+ "'"))
  end.

(** ** utils/deep-clone.util.ts *)

(** [deepClone obj next]: the clone and the next free identity.  Primitives
    are returned as they are; a date, an array and an object are rebuilt
    with fresh identities, the object as a plain [Object].
    [obj.hasOwnProperty(key)] is the method of [Object.prototype]: an object
    with an own property of that name, on which the call would throw, is
    outside the model. *)
Fixpoint deepClone (obj : value) (next : ref) {struct obj} : value * ref :=
  match obj with
  | VDate _ t => (VDate next t, S next)
  | VArr _ items =>
      let fix cloneItems (l : list value) (n : ref) {struct l} : list value * ref :=
        match l with
        | [] => ([], n)
        | x :: r =>
            let '(x', n1) := deepClone x n in
            let '(r', n2) := cloneItems r n1 in
            (x' :: r', n2)
        end in
      let '(items', n') := cloneItems items (S next) in
      (VArr next items', n')
  | VObj _ _ ps =>
      let fix cloneProps (l : props) (n : ref) {struct l} : props * ref :=
        match l with
        | [] => ([], n)
        | (k, x) :: r =>
            let '(x', n1) := deepClone x n in
            let '(r', n2) := cloneProps r n1 in
            ((k, x') :: r', n2)
        end in
      let '(ps', n') := cloneProps ps (S next) in
      (VObj next ObjectCtor ps', n')
  | _ => (obj, next)
  end.


(** ** core/types.ts *)

Module Engine.
Section WithWorld.

(** The state caller-supplied code can observe and change. *)
Context {W : Type}.

(** A caller-supplied function of the source value. *)
Definition UserFn : Type := value -> W -> outcome value * W.

(** A [MapperFunction]; [__sourcePath] is the tag [Mapper.mapFrom] leaves
    on the functions it builds. *)
Record MapperFunction : Type := mkMapperFunction {
  call : UserFn;
  __sourcePath : option string
}.

(** [MappingConfig]: destination key to function, in enumeration order. *)
Definition MappingConfig : Type := list (string * MapperFunction).

Record CacheConfig : Type := mkCacheConfig {
  enabled : option bool;
  strategy : option string
}.

(** [MappingEntryOptions], with the [convertNaming] pair the compiled
    closures read off the options object.  An absent property is [None].
    [map] and [mapAsync] call [afterMap] with the result alone, so its second
    argument is always [undefined]. *)
Record MappingEntryOptions : Type := mkOptions {
  skipNulls : option bool;
  skipUndefined : option bool;
  deepCloneOpt : option bool;
  strict : option bool;
  beforeMap : option UserFn;
  afterMap : option (value -> value -> W -> outcome value * W);
  cache : option CacheConfig;
  ignore : option (list string);
  include : option (list string);
  deepCloneBeforeMap : option bool;
  convertNaming : option (Naming.Style * Naming.Style)
}.

Definition noOptions : MappingEntryOptions :=
  mkOptions None None None None None None None None None None None.

Record TransformOptions : Type := mkTransformOptions {
  t_ignore : option (list string);
  t_include : option (list string);
  t_convertNaming : option (Naming.Style * Naming.Style)
}.

(** A class: its constructor function and the own properties a
    default-constructed instance starts with.  The class has no method or
    accessor of its own. *)
Record ClassType : Type := mkClass {
  cls_ctor : Ctor;
  cls_fields : props
}.

Record MappingRegistryEntry : Type := mkEntry {
  source : ClassType;
  destination : ClassType;
  config : option MappingConfig;
  options : MappingEntryOptions
}.

(** ** decorators: the metadata the compiled closures query *)

(** What [Reflect.getMetadata] answers for a destination class: the keys of
    its auto-map table, and per field the nested-type factory, the source
    path and the transformer. *)
Record MetadataProvider : Type := mkMetadata {
  autoMapKeys : Ctor -> list string;
  nestedTypeFactory : Ctor -> string -> option ClassType;
  sourcePathOf : Ctor -> string -> option string;
  transformerOf : Ctor -> string -> option (value -> value -> W -> outcome value * W)
}.

Definition noMetadata : MetadataProvider :=
  mkMetadata (fun _ => []) (fun _ _ => None) (fun _ _ => None) (fun _ _ => None).

(** ** core/mapper.ts: the Mapper's state *)

(** A compiled closure is determined by the entry it closes over, so the
    two closure tables hold that entry.  The [WeakMap] of cached results is
    a finite map on identities; reclamation is not modelled.

    [globalOptions.cache] and [cacheConfig] can be one and the same object:
    the constructor stores the [cache] object of its argument in both places
    when the argument itself becomes the global options.  [cacheShared]
    records that; a write to [cacheConfig] is then a write to
    [globalOptions.cache] as well. *)
Record Mapper : Type := mkMapper {
  registry : list MappingRegistryEntry;
  globalOptions : MappingEntryOptions;
  reverseRegistry : gmap string MappingRegistryEntry;
  compiledMapFns : gmap string MappingRegistryEntry;
  compiledAsyncMapFns : gmap string MappingRegistryEntry;
  instanceCache : gmap ref (gmap Ctor value);
  cacheConfig : CacheConfig;
  cacheShared : bool
}.

Definition defaultCacheConfig : CacheConfig := mkCacheConfig (Some false) (Some "memory").

(** The two shapes the constructor accepts. *)
Inductive MapperConstructorOptions : Type :=
| StructuredOptions (globalOptions : option MappingEntryOptions) (cache : option CacheConfig)
| EntryOptions (o : MappingEntryOptions).

(** [this.globalOptions = anyOpt.globalOptions ?? anyOpt ?? {}] and
    [this.cacheConfig = anyOpt.cache ?? { enabled: false, strategy: 'memory' }]:
    without a [globalOptions] property the argument itself is the global
    options, and its [cache] object, if it has one, is the cache
    configuration too.  (A caller who passes one object both as
    [globalOptions.cache] and as [cache] is not modelled.) *)
Definition newMapper (opts : option MapperConstructorOptions) : Mapper :=
  match opts with
  | None => mkMapper [] noOptions ∅ ∅ ∅ ∅ defaultCacheConfig false
  | Some (StructuredOptions g c) =>
      let g' := match g with
                | Some o => o
                | None => mkOptions None None None None None None c None None None None
                end in
      mkMapper [] g' ∅ ∅ ∅ ∅ (match c with Some cc => cc | None => defaultCacheConfig end)
        (match g, c with None, Some _ => true | _, _ => false end)
  | Some (EntryOptions o) =>
      mkMapper [] o ∅ ∅ ∅ ∅
        (match cache o with Some cc => cc | None => defaultCacheConfig end)
        (match cache o with Some _ => true | None => false end)
  end.

Definition isTrue (b : option bool) : bool :=
  match b with Some true => true | _ => false end.

(** The options with [cache] set to the object [c]. *)
Definition withCache (o : MappingEntryOptions) (c : CacheConfig) : MappingEntryOptions :=
  mkOptions (skipNulls o) (skipUndefined o) (deepCloneOpt o) (strict o) (beforeMap o)
    (afterMap o) (Some c) (ignore o) (include o) (deepCloneBeforeMap o) (convertNaming o).

(** [this.cacheConfig.enabled = enabled]: the object is changed in place, so
    the global options see the new flag when they hold the same object. *)
Definition setCacheEnabled (m : Mapper) (b : bool) : Mapper :=
  let c := mkCacheConfig (Some b) (strategy (cacheConfig m)) in
  mkMapper (registry m)
    (if cacheShared m then withCache (globalOptions m) c else globalOptions m)
    (reverseRegistry m) (compiledMapFns m)
    (compiledAsyncMapFns m) (instanceCache m) c (cacheShared m).

Definition isGlobalCacheEnabled (m : Mapper) : bool := isTrue (enabled (cacheConfig m)).

Definition isCacheEnabled (m : Mapper) (entry : MappingRegistryEntry) : bool :=
  match cache (options entry) with
  | Some (mkCacheConfig (Some b) _) => b
  | _ => isTrue (enabled (cacheConfig m))
  end.

(** [mapFrom(sourcePath)] *)
Definition mapFrom (sourcePath : string) : MapperFunction :=
  mkMapperFunction (fun src w => (getMember src sourcePath, w)) (Some sourcePath).

Definition orElse {A} (override base : option A) : option A :=
  match override with Some x => Some x | None => base end.

(** [Array.from(new Set(l))] *)
Fixpoint uniq (seen l : list string) : list string :=
  match l with
  | [] => []
  | x :: r => if bool_decide (x ∈ seen) then uniq seen r else x :: uniq (x :: seen) r
  end.

Definition unionLists (a b : option (list string)) : option (list string) :=
  match a, b with
  | None, None => None
  | _, _ => Some (uniq [] (default [] a ++ default [] b))
  end.

Definition mergeCache (a b : option CacheConfig) : option CacheConfig :=
  match a, b with
  | None, None => None
  | Some x, None => Some x
  | None, Some y => Some y
  | Some x, Some y =>
      Some (mkCacheConfig (orElse (enabled y) (enabled x)) (orElse (strategy y) (strategy x)))
  end.

Definition mergeOptions (base override : MappingEntryOptions) : MappingEntryOptions :=
  mkOptions
    (orElse (skipNulls override) (skipNulls base))
    (orElse (skipUndefined override) (skipUndefined base))
    (orElse (deepCloneOpt override) (deepCloneOpt base))
    (orElse (strict override) (strict base))
    (orElse (beforeMap override) (beforeMap base))
    (orElse (afterMap override) (afterMap base))
    (mergeCache (cache base) (cache override))
    (unionLists (ignore base) (ignore override))
    (unionLists (include base) (include override))
    (orElse (deepCloneBeforeMap override) (deepCloneBeforeMap base))
    (orElse (convertNaming override) (convertNaming base)).

Definition getRegistryKey (s d : Ctor) : string :=
  ctor_name s +:+ "->" +:+ ctor_name d.

Definition entryKey (e : MappingRegistryEntry) : string :=
  getRegistryKey (cls_ctor (source e)) (cls_ctor (destination e)).

(** [r.source === source && r.destination === destination] *)
Definition sameClasses (s d : Ctor) (r : MappingRegistryEntry) : bool :=
  bool_decide (cls_ctor (source r) = s) && bool_decide (cls_ctor (destination r) = d).

Definition findEntry (m : Mapper) (s d : Ctor) : option MappingRegistryEntry :=
  match reverseRegistry m !! getRegistryKey s d with
  | Some e => Some e
  | None => List.find (sameClasses s d) (registry m)
  end.

(** [compileMapFunction(entry)] as far as the Mapper's state goes: the
    closure over [entry] is stored under the entry's key.  What the closure
    computes is [compiledFn] below. *)
Definition compileMapFunction (m : Mapper) (entry : MappingRegistryEntry) : Mapper :=
  mkMapper (registry m) (globalOptions m) (reverseRegistry m)
    (<[entryKey entry := entry]> (compiledMapFns m))
    (compiledAsyncMapFns m) (instanceCache m) (cacheConfig m) (cacheShared m).

Definition compileAsyncMapFunction (m : Mapper) (entry : MappingRegistryEntry) : Mapper :=
  mkMapper (registry m) (globalOptions m) (reverseRegistry m) (compiledMapFns m)
    (<[entryKey entry := entry]> (compiledAsyncMapFns m))
    (instanceCache m) (cacheConfig m) (cacheShared m).

Definition createMap (m : Mapper) (s d : ClassType)
    (cfg : option MappingConfig) (opts : option MappingEntryOptions) : Mapper :=
  let entry := mkEntry s d cfg
                 (mergeOptions (globalOptions m) (default noOptions opts)) in
  let key := getRegistryKey (cls_ctor s) (cls_ctor d) in
  compileMapFunction
    (mkMapper (registry m ++ [entry]) (globalOptions m)
       (<[key := entry]> (reverseRegistry m))
       (compiledMapFns m) (compiledAsyncMapFns m) (instanceCache m) (cacheConfig m)
       (cacheShared m))
    entry.

(** [(src) => src[destKey]], the function every reverse entry gets. *)
Definition readKey (destKey : string) : MapperFunction :=
  mkMapperFunction (fun src w => (getMember src destKey, w)) None.

(** The loop of [createReverseMap] over [Object.entries(forwardEntry.config)]. *)
Fixpoint reverseConfig (forward : MappingConfig) (acc : MappingConfig) : MappingConfig :=
  match forward with
  | [] => acc
  | (destKey, mapperFn) :: r =>
      let key := match __sourcePath mapperFn with
                 | Some sourcePath => if String.eqb sourcePath "" then destKey else sourcePath
                 | None => destKey
                 end in
      reverseConfig r (assignProp key (readKey destKey) acc)
  end.

Definition plainError (message : string) : jsError := JsError "Error" message None.

Definition createReverseMap (m : Mapper) (s d : ClassType) : outcome Mapper :=
  match findEntry m (cls_ctor s) (cls_ctor d) with
  | None =>
      Throw (plainError ("No forward mapping found for " +:+ ctor_name (cls_ctor s)
                         +:+ " -> " +:+ ctor_name (cls_ctor d)))
  | Some forwardEntry =>
      let rc := match config forwardEntry with
                | Some c => reverseConfig c []
                | None => []
                end in
      Ret (createMap m d s (Some rc) (Some (options forwardEntry)))
  end.

Definition clear (m : Mapper) : Mapper :=
  mkMapper [] (globalOptions m) ∅ ∅ ∅ ∅ (cacheConfig m) (cacheShared m).

Definition getMappings (m : Mapper) : list (string * string) :=
  List.map (fun e => (ctor_name (cls_ctor (source e)), ctor_name (cls_ctor (destination e))))
    (registry m).

(** The error builder. *)
Definition createMappingError (sourceType destinationType message : string)
    (originalError : option jsError) : jsError :=
  JsError "Error"
    ("Mapping Error [" +:+ sourceType +:+ " → " +:+ destinationType +:+ "]: " +:+ message
     +:+ match originalError with
         | Some e => " | Cause: " +:+ errMessage e
         | None => ""
         end)
    originalError.

(** ** The compiled closure, step by step *)

Definition includes (k : string) (l : list string) : bool := bool_decide (k ∈ l).

(** The name a source key is copied to. *)
Definition targetKeyOf (o : MappingEntryOptions) (k : string) : outcome string :=
  match convertNaming o with
  | Some (from, to) => Naming.convertNamingConvention k from to
  | None => Ret k
  end.

(** The four [continue] tests of the copy loop. *)
Definition skipsKey (o : MappingEntryOptions) (k : string) (v : value) : bool :=
  match ignore o with Some l => includes k l | None => false end
  || match include o with Some l => negb (includes k l) | None => false end
  || (isTrue (skipNulls o) && isNull v)
  || (isTrue (skipUndefined o) && isUndefined v).

(** One iteration of "Copy primitives" for the source key [k].
    [targetKey in dest] is read on the own properties of [dest]: for a
    target key that names a member of [Object.prototype] the operator of the
    code answers [true] whatever the class, and such keys are outside the
    model. *)
Definition copyKey (o : MappingEntryOptions) (src : value) (k : string)
    (dest : props) (next : ref) : outcome props * ref :=
  let v := readProp k (propsOf src) in
  if skipsKey o k v then (Ret dest, next)
  else
    match targetKeyOf o k with
    | Throw e => (Throw e, next)
    | Ret targetKey =>
        if hasKey targetKey dest then
          if isTrue (deepCloneOpt o) then
            let '(v', next') := deepClone v next in
            (Ret (assignProp targetKey v' dest), next')
          else (Ret (assignProp targetKey v dest), next)
        else (Ret dest, next)
    end.

(** "Copy primitives": [for (const k in src)]. *)
Fixpoint copyProperties (o : MappingEntryOptions) (src : value) (keys : list string)
    (dest : props) (next : ref) : outcome props * ref :=
  match keys with
  | [] => (Ret dest, next)
  | k :: r =>
      match copyKey o src k dest next with
      | (Ret dest', next') => copyProperties o src r dest' next'
      | (Throw e, next') => (Throw e, next')
      end
  end.

(** The [skipNulls] / [skipUndefined] test on a field function's result. *)
Definition suppressed (o : MappingEntryOptions) (v : value) : bool :=
  (isTrue (skipNulls o) && isNull v) || (isTrue (skipUndefined o) && isUndefined v).

(** One iteration of "Apply configured mapping functions". *)
Definition applyMapperFn (o : MappingEntryOptions) (src : value)
    (destKey : string) (mapperFn : MapperFunction) (dest : props) (w : W)
  : outcome props * W :=
  match call mapperFn src w with
  | (Ret v, w') =>
      if suppressed o v then (Ret dest, w') else (Ret (assignProp destKey v dest), w')
  | (Throw err, w') =>
      if isTrue (strict o) then (Throw err, w') else (Ret dest, w')
  end.

(** "Apply configured mapping functions": [for (const destKey in entry.config)]. *)
Fixpoint applyConfig (o : MappingEntryOptions) (src : value) (cfg : MappingConfig)
    (dest : props) (w : W) : outcome props * W :=
  match cfg with
  | [] => (Ret dest, w)
  | (destKey, mapperFn) :: r =>
      match applyMapperFn o src destKey mapperFn dest w with
      | (Ret dest', w') => applyConfig o src r dest' w'
      | (Throw err, w') => (Throw err, w')
      end
  end.

(** ** The runtime monad *)

Record Runtime : Type := mkRuntime {
  rt_mapper : Mapper;
  rt_world : W;
  rt_next : ref
}.

(** A computation on the runtime: out of fuel, or an outcome and the
    runtime it leaves.  Effects made before a [throw] stay. *)
Definition M (A : Type) : Type := Runtime -> option (outcome A * Runtime).

Definition ret {A} (a : A) : M A := fun rt => Some (Ret a, rt).

Definition throw {A} (e : jsError) : M A := fun rt => Some (Throw e, rt).

Definition bind {A B} (c : M A) (k : A -> M B) : M B :=
  fun rt =>
    match c rt with
    | None => None
    | Some (Throw e, rt') => Some (Throw e, rt')
    | Some (Ret a, rt') => k a rt'
    end.

Definition liftOutcome {A} (r : outcome A) : M A := fun rt => Some (r, rt).

Definition liftWorld {A} (f : W -> outcome A * W) : M A :=
  fun rt =>
    let '(r, w') := f (rt_world rt) in
    Some (r, mkRuntime (rt_mapper rt) w' (rt_next rt)).

Definition liftAlloc {A} (f : ref -> outcome A * ref) : M A :=
  fun rt =>
    let '(r, n') := f (rt_next rt) in
    Some (r, mkRuntime (rt_mapper rt) (rt_world rt) n').

(** A fresh identity. *)
Definition alloc : M ref := liftAlloc (fun n => (Ret n, S n)).

Definition getMapper : M Mapper := fun rt => Some (Ret (rt_mapper rt), rt).

Definition putMapper (m : Mapper) : M unit :=
  fun rt => Some (Ret tt, mkRuntime m (rt_world rt) (rt_next rt)).

(** [try { c } catch (error) { throw wrap(error) }] *)
Definition tryCatch {A} (c : M A) (wrap : jsError -> jsError) : M A :=
  fun rt =>
    match c rt with
    | None => None
    | Some (Ret a, rt') => Some (Ret a, rt')
    | Some (Throw e, rt') => Some (Throw (wrap e), rt')
    end.

Notation "x <- c ;; k" := (bind c (fun x => k))
  (at level 100, c at next level, right associativity).

(** ** "Decorator-driven mappings" *)

Context (meta : MetadataProvider).

(** [for (const p of parts) val = val?.[p]] *)
Fixpoint resolvePath (parts : list string) (val : value) : value :=
  match parts with
  | [] => val
  | p :: r => resolvePath r (optMember val p)
  end.

(** [transformer ? transformer(val, src) : val] *)
Definition applyTransformer
    (transformer : option (value -> value -> W -> outcome value * W))
    (val src : value) : M value :=
  match transformer with
  | Some t => liftWorld (t val src)
  | None => ret val
  end.

(** [items.map(f)]: in index order, the first exception aborts. *)
Fixpoint mapItems (f : value -> M value) (items : list value) : M (list value) :=
  match items with
  | [] => ret []
  | it :: r =>
      y <- f it ;;
      ys <- mapItems f r ;;
      ret (y :: ys)
  end.

(** [await Promise.all(items.map(async it => f(it)))], sequentialised: every
    element mapping is started, in index order, and runs to its end whether
    or not another one failed; the failure reported is that of the lowest
    index.  Interleaving at the suspension points is not modelled. *)
Fixpoint mapItemsAll (f : value -> M value) (items : list value) : M (list value) :=
  match items with
  | [] => ret []
  | it :: r =>
      fun rt =>
        match f it rt with
        | None => None
        | Some (y, rt') =>
            match mapItemsAll f r rt' with
            | None => None
            | Some (ys, rt'') =>
                Some (match y, ys with
                      | Throw e, _ => Throw e
                      | Ret _, Throw e => Throw e
                      | Ret v, Ret vs => Ret (v :: vs)
                      end, rt'')
            end
        end
  end.

(** [entry.config && entry.config[destKey]] *)
Definition configured (entry : MappingRegistryEntry) (destKey : string) : bool :=
  match config entry with
  | Some cfg => hasKey destKey cfg
  | None => false
  end.

(** A source path that passes [if (sourcePath)]. *)
Definition truthyPath (p : option string) : option string :=
  match p with
  | Some s => if String.eqb s "" then None else Some s
  | None => None
  end.

(** One iteration of the loop over [Object.keys(autoMeta)].  [mapNested] is
    [this.map] (or [this.mapAsync]) and [mapArray] the array traversal that
    goes with it. *)
Definition decoratorField
    (mapNested : value -> ClassType -> M value)
    (mapArray : (value -> M value) -> list value -> M (list value))
    (entry : MappingRegistryEntry) (src : value) (destKey : string) (dest : props)
  : M props :=
  let target := cls_ctor (destination entry) in
  if configured entry destKey || negb (isUndefined (readProp destKey dest)) then ret dest
  else
    let transformer := transformerOf meta target destKey in
    match truthyPath (sourcePathOf meta target destKey) with
    | Some sourcePath =>
        let val := resolvePath (Naming.splitChar "." sourcePath) src in
        v <- applyTransformer transformer val src ;;
        ret (assignProp destKey v dest)
    | None =>
        match nestedTypeFactory meta target destKey with
        | Some nestedType =>
            nestedVal <- liftOutcome (getMember src destKey) ;;
            match nestedVal with
            | VUndefined | VNull => ret (assignProp destKey nestedVal dest)
            | VArr _ items =>
                id <- alloc ;;
                vs <- mapArray (fun it => mapNested it nestedType) items ;;
                ret (assignProp destKey (VArr id vs) dest)
            | _ =>
                v <- mapNested nestedVal nestedType ;;
                ret (assignProp destKey v dest)
            end
        | None =>
            present <- liftOutcome (hasMember destKey src) ;;
            if (present : bool) then
              val <- liftOutcome (getMember src destKey) ;;
              v <- applyTransformer transformer val src ;;
              ret (assignProp destKey v dest)
            else ret dest
        end
    end.

Fixpoint decoratorMappings
    (mapNested : value -> ClassType -> M value)
    (mapArray : (value -> M value) -> list value -> M (list value))
    (entry : MappingRegistryEntry) (src : value) (keys : list string) (dest : props)
  : M props :=
  match keys with
  | [] => ret dest
  | destKey :: r =>
      dest' <- decoratorField mapNested mapArray entry src destKey dest ;;
      decoratorMappings mapNested mapArray entry src r dest'
  end.

(** ** The closure [compileMapFunction] builds *)

(** [compiledFn mapNested mapArray entry] is the closure over [entry].  With
    [this.map] and [Array.prototype.map] for the two callbacks it is the
    closure of [compileMapFunction]; with [this.mapAsync] and the
    [Promise.all] traversal it is that of [compileAsyncMapFunction], whose
    text differs only in awaiting those calls. *)

Definition configOf (entry : MappingRegistryEntry) : MappingConfig :=
  default [] (config entry).

Definition compiledFn
    (mapNested : value -> ClassType -> M value)
    (mapArray : (value -> M value) -> list value -> M (list value))
    (entry : MappingRegistryEntry) (src : value) : M value :=
  id <- alloc ;;
  copied <- liftAlloc (copyProperties (options entry) src (ownKeys src)
                         (cls_fields (destination entry))) ;;
  applied <- liftWorld (applyConfig (options entry) src (configOf entry) copied) ;;
  dest <- decoratorMappings mapNested mapArray entry src
            (autoMapKeys meta (cls_ctor (destination entry))) applied ;;
  ret (VObj id (cls_ctor (destination entry)) dest).

(** ** map and mapAsync *)

(** The instance-cache lookup of [map]: a stored value counts only if it is
    truthy. *)
Definition cachedResult (m : Mapper) (entry : MappingRegistryEntry)
    (sourceObj : value) (destinationClass : ClassType) : option value :=
  if isCacheEnabled m entry then
    match identityOf sourceObj with
    | Some id =>
        match instanceCache m !! id with
        | Some mapForSource =>
            match mapForSource !! cls_ctor destinationClass with
            | Some cached => if truthy cached then Some cached else None
            | None => None
            end
        | None => None
        end
    | None => None
    end
  else None.

Definition setInstanceCache (m : Mapper) (c : gmap ref (gmap Ctor value)) : Mapper :=
  mkMapper (registry m) (globalOptions m) (reverseRegistry m) (compiledMapFns m)
    (compiledAsyncMapFns m) c (cacheConfig m) (cacheShared m).

(** The instance-cache store of [map]; a [WeakMap] refuses a key that is not
    an object. *)
Definition storeResult (entry : MappingRegistryEntry)
    (sourceObj : value) (destinationClass : ClassType) (result : value) : M unit :=
  m <- getMapper ;;
  if isCacheEnabled m entry then
    match identityOf sourceObj with
    | Some id =>
        let mapForSource := default ∅ (instanceCache m !! id) in
        putMapper (setInstanceCache m
          (<[id := <[cls_ctor destinationClass := result]> mapForSource]>
             (instanceCache m)))
    | None => throw (TypeError "Invalid value used as weak map key")
    end
  else ret tt.

(** [compiledMapFns.get(key)], compiling on a miss. *)
Definition compiledFor (entry : MappingRegistryEntry) : M MappingRegistryEntry :=
  m <- getMapper ;;
  match compiledMapFns m !! entryKey entry with
  | Some compiled => ret compiled
  | None => _ <- putMapper (compileMapFunction m entry) ;; ret entry
  end.

Definition compiledAsyncFor (entry : MappingRegistryEntry) : M MappingRegistryEntry :=
  m <- getMapper ;;
  match compiledAsyncMapFns m !! entryKey entry with
  | Some compiled => ret compiled
  | None => _ <- putMapper (compileAsyncMapFunction m entry) ;; ret entry
  end.

(** The body of the [try] block of [map]. *)
Definition mapAttempt (mapNested : value -> ClassType -> M value)
    (entry : MappingRegistryEntry) (sourceObj : value) (destinationClass : ClassType)
  : M value :=
  let hooks := options entry in
  preProcessed <-
    match beforeMap hooks with
    | Some hook =>
        arg <- (if isTrue (deepCloneBeforeMap hooks)
                then liftAlloc (fun n => let '(c, n') := deepClone sourceObj n in (Ret c, n'))
                else ret sourceObj) ;;
        liftWorld (hook arg)
    | None => ret sourceObj
    end ;;
  compiled <- compiledFor entry ;;
  result <- compiledFn mapNested mapItems compiled preProcessed ;;
  result <-
    match afterMap hooks with
    | Some hook => liftWorld (hook result VUndefined)
    | None => ret result
    end ;;
  _ <- storeResult entry sourceObj destinationClass result ;;
  ret result.

Definition mapBody (mapNested : value -> ClassType -> M value)
    (sourceObj : value) (destinationClass : ClassType)
    (_options : option TransformOptions) : M value :=
  match constructorOf sourceObj with
  | None => throw (cannotRead "constructor")
  | Some sourceCtor =>
      m <- getMapper ;;
      match findEntry m sourceCtor (cls_ctor destinationClass) with
      | None =>
          throw (createMappingError (ctor_name sourceCtor)
                   (ctor_name (cls_ctor destinationClass)) "Mapping not found" None)
      | Some entry =>
          match cachedResult m entry sourceObj destinationClass with
          | Some cached => ret cached
          | None =>
              tryCatch (mapAttempt mapNested entry sourceObj destinationClass)
                (fun error =>
                   createMappingError (ctor_name sourceCtor)
                     (ctor_name (cls_ctor destinationClass)) "Mapping failed" (Some error))
          end
      end
  end.

(** [map(sourceObj, destinationClass, _options)]; the nested calls of the
    closure are [this.map(it, nestedType)]. *)
Fixpoint map (fuel : nat) (sourceObj : value) (destinationClass : ClassType)
    (_options : option TransformOptions) {struct fuel} : M value :=
  match fuel with
  | 0 => fun _ => None
  | S fuel' =>
      mapBody (fun it nestedType => map fuel' it nestedType None)
        sourceObj destinationClass _options
  end.

(** The body of [mapAsync] after the cache lookup; there is no [try]. *)
Definition mapAsyncAttempt (mapNested : value -> ClassType -> M value)
    (entry : MappingRegistryEntry) (sourceObj : value) (destinationClass : ClassType)
  : M value :=
  let hooks := options entry in
  preProcessed <-
    match beforeMap hooks with
    | Some hook =>
        arg <- liftAlloc (fun n => let '(c, n') := deepClone sourceObj n in (Ret c, n')) ;;
        liftWorld (hook arg)
    | None => ret sourceObj
    end ;;
  compiled <- compiledAsyncFor entry ;;
  result <- compiledFn mapNested mapItemsAll compiled preProcessed ;;
  result <-
    match afterMap hooks with
    | Some hook => liftWorld (hook result VUndefined)
    | None => ret result
    end ;;
  _ <- storeResult entry sourceObj destinationClass result ;;
  ret result.

Definition mapAsyncBody (mapNested : value -> ClassType -> M value)
    (sourceObj : value) (destinationClass : ClassType)
    (_options : option TransformOptions) : M value :=
  match constructorOf sourceObj with
  | None => throw (cannotRead "constructor")
  | Some sourceCtor =>
      m <- getMapper ;;
      match findEntry m sourceCtor (cls_ctor destinationClass) with
      | None =>
          throw (createMappingError (ctor_name sourceCtor)
                   (ctor_name (cls_ctor destinationClass)) "Mapping not found" None)
      | Some entry =>
          match cachedResult m entry sourceObj destinationClass with
          | Some cached => ret cached
          | None => mapAsyncAttempt mapNested entry sourceObj destinationClass
          end
      end
  end.

(** [mapAsync(sourceObj, destinationClass, _options)]: the outcome the
    returned promise settles with ([Throw] is a rejection). *)
Fixpoint mapAsync (fuel : nat) (sourceObj : value) (destinationClass : ClassType)
    (_options : option TransformOptions) {struct fuel} : M value :=
  match fuel with
  | 0 => fun _ => None
  | S fuel' =>
      mapAsyncBody (fun it nestedType => mapAsync fuel' it nestedType None)
        sourceObj destinationClass _options
  end.

End WithWorld.

Notation "x <- c ;; k" := (bind c (fun x => k))
  (at level 100, c at next level, right associativity).

End Engine.

Import Engine.

(** ** Vocabulary of the properties *)

(** The two values the copy step can be told to skip, with the option that
    skips each. *)
Inductive Absent : Type := AbsentNull | AbsentUndefined.

Definition absentValue (a : Absent) : value :=
  match a with AbsentNull => VNull | AbsentUndefined => VUndefined end.

Definition isAbsent (a : Absent) (v : value) : bool :=
  match a with AbsentNull => isNull v | AbsentUndefined => isUndefined v end.

Section Vocabulary.
Context {W : Type}.
Implicit Types (m : @Mapper W) (entry : @MappingRegistryEntry W).

Definition skipOption (a : Absent) (o : @MappingEntryOptions W) : option bool :=
  match a with AbsentNull => skipNulls o | AbsentUndefined => skipUndefined o end.

(** Every entry of the registry list is indexed under its key. *)
Definition indexed_registry (m : @Mapper W) : Prop :=
  forall e, In e (registry m) -> is_Some (reverseRegistry m !! entryKey e).

(** Mapping changes the closure tables and the instance cache only. *)
Definition sameRegistry (m m' : @Mapper W) : Prop :=
  registry m' = registry m
  /\ reverseRegistry m' = reverseRegistry m
  /\ cacheConfig m' = cacheConfig m
  /\ globalOptions m' = globalOptions m.

Definition preserving {A} (c : @M W A) : Prop :=
  forall rt (o : outcome A) rt',
    c rt = Some (o, rt') -> sameRegistry (rt_mapper rt) (rt_mapper rt').

(** The array traversals of the two closures. *)
Definition preservingTraversal
    (mapArray : (value -> M value) -> list value -> @M W (list value)) : Prop :=
  forall f items, (forall it, preserving (f it)) -> preserving (mapArray f items).

(** The part of [map]'s [try] block that comes before the cache store. *)
Definition mapCompute (meta : @MetadataProvider W) (mapNested : value -> ClassType -> @M W value)
    (entry : @MappingRegistryEntry W) (sourceObj : value) : @M W value :=
  let hooks := options entry in
  preProcessed <-
    match beforeMap hooks with
    | Some hook =>
        arg <- (if isTrue (deepCloneBeforeMap hooks)
                then liftAlloc (fun n => let '(c, n') := deepClone sourceObj n in (Ret c, n'))
                else ret sourceObj) ;;
        liftWorld (hook arg)
    | None => ret sourceObj
    end ;;
  compiled <- compiledFor entry ;;
  result <- compiledFn meta mapNested mapItems compiled preProcessed ;;
  match afterMap hooks with
  | Some hook => liftWorld (hook result VUndefined)
  | None => ret result
  end.

(** The value the instance cache holds for an identity and a destination
    class. *)
Definition cacheEntry (m : @Mapper W) (id : ref) (c : Ctor) : option value :=
  match instanceCache m !! id with
  | Some mapForSource => mapForSource !! c
  | None => None
  end.

(** The key under which [createReverseMap] registers the reverse of the
    forward function at [destKey]: the source path [mapFrom] recorded when it
    passes [if (sourcePath)], else [destKey] itself. *)
Definition reverseKey (destKey : string) (fn : @MapperFunction W) : string :=
  match __sourcePath fn with
  | Some sourcePath => if String.eqb sourcePath "" then destKey else sourcePath
  | None => destKey
  end.

End Vocabulary.

(** ** Sample classes and mappers *)

Module Samples.
Import Engine.

(** The world of the samples counts the field-function calls. *)
Definition counting (f : value -> outcome value) : @UserFn nat :=
  fun src calls => (f src, S calls).

Definition Source : ClassType :=
  mkClass (mkCtor 10 "Source") [("name", VUndefined); ("age", VUndefined)].

Definition Target : ClassType :=
  mkClass (mkCtor 11 "Target") [("name", VUndefined); ("age", VUndefined)].

Definition john : value :=
  VObj 100 (cls_ctor Source) [("name", VStr "John"); ("age", VNum 30)].

(** Field functions: one that answers ["JOHN"], one that answers [31], one
    that throws. *)
Definition shout : @MapperFunction nat :=
  mkMapperFunction (counting (fun _ => Ret (VStr "JOHN"))) None.

Definition nextYear : @MapperFunction nat :=
  mkMapperFunction (counting (fun _ => Ret (VNum 31))) None.

Definition failing : @MapperFunction nat :=
  mkMapperFunction (counting (fun _ => Throw (plainError "boom"))) None.

Definition shoutEntry : @MappingRegistryEntry nat :=
  mkEntry Source Target (Some [("name", shout)]) noOptions.

Definition strictOptions : @MappingEntryOptions nat :=
  mkOptions None None None (Some true) None None None None None None None.

Definition lenientEntry : @MappingRegistryEntry nat :=
  mkEntry Source Target (Some [("name", failing); ("age", nextYear)]) noOptions.

Definition strictEntry : @MappingRegistryEntry nat :=
  mkEntry Source Target (Some [("name", failing); ("age", nextYear)]) strictOptions.

(** A runtime with an empty mapper, no calls made, identities from 1000. *)
Definition freshRuntime : @Runtime nat := mkRuntime (newMapper None) 0 1000.

(** Nested mappings are not reached in the samples that use this. *)
Definition noNested : value -> ClassType -> @M nat value :=
  fun _ _ => ret VUndefined.

(** [skipNulls] together with a snake_case to camelCase conversion. *)
Definition skipNullsOptions : @MappingEntryOptions nat :=
  mkOptions (Some true) None None None None None None None None None None.

Definition skipNullsRenaming : @MappingEntryOptions nat :=
  mkOptions (Some true) None None None None None None None None None
    (Some (Naming.snake_case, Naming.camelCase)).

Definition Flags : ClassType := mkClass (mkCtor 30 "Flags") [("x", VNum 0)].

(** [{ x: null, X: 5 }] *)
Definition rawFlags : value :=
  VObj 101 (mkCtor 31 "RawFlags") [("x", VNull); ("X", VNum 5)].

(** A destination whose field [owner] carries both a nested-type factory
    and a source path. *)
Definition OwnerDto : ClassType := mkClass (mkCtor 41 "OwnerDto") [("name", VUndefined)].

(** [AccountDto] declares [owner] without an initialiser: a new instance has
    no own property of that name. *)
Definition AccountDto : ClassType := mkClass (mkCtor 40 "AccountDto") [].

Definition Account : ClassType := mkClass (mkCtor 42 "Account") [].

Definition accountMeta : @MetadataProvider nat :=
  mkMetadata
    (fun c => if decide (c = cls_ctor AccountDto) then ["owner"] else [])
    (fun c k => if decide (c = cls_ctor AccountDto /\ k = "owner") then Some OwnerDto else None)
    (fun c k => if decide (c = cls_ctor AccountDto /\ k = "owner")
                then Some "profile.name" else None)
    (fun _ _ => None).

Definition accountEntry : @MappingRegistryEntry nat :=
  mkEntry Account AccountDto None noOptions.

(** [{ owner: { name: "Bob" }, profile: { name: "Ann" } }] *)
Definition account : value :=
  VObj 102 (cls_ctor Account)
    [("owner", VObj 103 (mkCtor 43 "Owner") [("name", VStr "Bob")]);
     ("profile", VObj 104 ObjectCtor [("name", VStr "Ann")])].

(** [{ profile: { name: "Ann" } }] *)
Definition profileOnly : value :=
  VObj 105 (cls_ctor Account) [("profile", VObj 106 ObjectCtor [("name", VStr "Ann")])].

(** The same destination with a field function for [owner] that throws. *)
Definition failingOwnerEntry : @MappingRegistryEntry nat :=
  mkEntry Account AccountDto (Some [("owner", failing)]) noOptions.

(** Two classes that share the name [User]. *)
Definition UserA : ClassType := mkClass (mkCtor 20 "User") [("id", VUndefined)].

Definition UserB : ClassType := mkClass (mkCtor 21 "User") [("id", VUndefined)].

Definition UserDto : ClassType :=
  mkClass (mkCtor 22 "UserDto") [("id", VUndefined); ("origin", VUndefined)].

Definition fromA : @MapperFunction nat :=
  mkMapperFunction (counting (fun _ => Ret (VStr "A"))) None.

(** Only [UserA -> UserDto] is registered. *)
Definition userMapper : @Mapper nat :=
  createMap (newMapper None) UserA UserDto (Some [("origin", fromA)]) None.

Definition userOfB : value := VObj 110 (cls_ctor UserB) [("id", VNum 7)].

(** [Source -> Target] in strict mode with a field function that throws. *)
Definition strictMapper : @Mapper nat :=
  createMap (newMapper None) Source Target
    (Some [("name", failing); ("age", nextYear)]) (Some strictOptions).

(** [Source -> Target] with a [beforeMap] hook that throws. *)
Definition failingHookOptions : @MappingEntryOptions nat :=
  mkOptions None None None None (Some (counting (fun _ => Throw (plainError "hook"))))
    None None None None None None.

Definition failingHookMapper : @Mapper nat :=
  createMap (newMapper None) Source Target None (Some failingHookOptions).

(** [Source -> Target] with the cache switched on. *)
Definition cachedMapper : @Mapper nat :=
  createMap (setCacheEnabled (newMapper None) true) Source Target
    (Some [("name", shout)]) None.

(** An object equal to [john] field by field, with another identity. *)
Definition johnTwin : value :=
  VObj 200 (cls_ctor Source) [("name", VStr "John"); ("age", VNum 30)].

(** [Person -> PersonDto], every field function built by [mapFrom]. *)
Definition Person : ClassType :=
  mkClass (mkCtor 50 "Person") [("fullName", VUndefined); ("age", VUndefined)].

Definition PersonDto : ClassType :=
  mkClass (mkCtor 51 "PersonDto") [("name", VUndefined); ("age", VUndefined)].

Definition personConfig : @MappingConfig nat :=
  [("name", mapFrom "fullName"); ("age", mapFrom "age")].

Definition personMapper : @Mapper nat :=
  createMap (newMapper None) Person PersonDto (Some personConfig) None.

Definition personEntry : @MappingRegistryEntry nat :=
  mkEntry Person PersonDto (Some personConfig) (mergeOptions noOptions noOptions).

Definition ann : value :=
  VObj 120 (cls_ctor Person) [("fullName", VStr "Ann Lee"); ("age", VNum 41)].

(** A class whose one field has the empty string as its name. *)
Definition Odd : ClassType := mkClass (mkCtor 60 "Odd") [("", VNum 0)].

Definition OddDto : ClassType := mkClass (mkCtor 61 "OddDto") [("k", VUndefined)].

Definition oddMapper : @Mapper nat :=
  createMap (newMapper None) Odd OddDto (Some [("k", mapFrom "")]) None.

Definition odd : value := VObj 130 (cls_ctor Odd) [("", VNum 7)].

(** The reverse entry [createReverseMap] registers for the [Person] sample. *)
Definition personReverseEntry : @MappingRegistryEntry nat :=
  mkEntry PersonDto Person
    (Some [("fullName", readKey "name"); ("age", readKey "age")])
    (mergeOptions noOptions (mergeOptions noOptions noOptions)).

End Samples.

(** * Further parts of the library

    The rest of the [Mapper] class ([mapArray], [mapArrayAsync],
    [mapWithMetadata], [addValidation], [validate]), the property-path
    utilities, [validateProperty], the [MappingBuilder] of
    core/mapping-profile.ts and [createMappingContext], embedded with the
    conventions of the engine above.  In addition:
    - module code is strict, so a write to a property of a primitive throws;
      the text of the errors the JavaScript engine raises is not modelled to
      the letter;
    - [Date.now()] is a reading of the world;
    - [mapConditional] changes the object [map] returned in place, which may
      also sit in the instance cache and in the caller's hands; it is not
      embedded. *)

(** ** Values up to identity *)


(** The identities of the objects, arrays and dates of a value, parents
    before children, left to right. *)
Fixpoint identities (v : value) : list ref :=
  match v with
  | VDate id _ => [id]
  | VArr id items => id :: List.concat (List.map identities items)
  | VObj id _ ps => id :: List.concat (List.map (fun kv => identities (snd kv)) ps)
  | _ => []
  end.

(** [deepClone] along a list of values and along a property list. *)
Definition cloneList (clone : value -> ref -> value * ref)
  : list value -> ref -> list value * ref :=
  fix go (l : list value) (n : ref) {struct l} :=
    match l with
    | [] => ([], n)
    | x :: r =>
        let '(x', n1) := clone x n in
        let '(r', n2) := go r n1 in
        (x' :: r', n2)
    end.

Definition cloneProps (clone : value -> ref -> value * ref)
  : props -> ref -> props * ref :=
  fix go (l : props) (n : ref) {struct l} :=
    match l with
    | [] => ([], n)
    | (k, x) :: r =>
        let '(x', n1) := clone x n in
        let '(r', n2) := go r n1 in
        ((k, x') :: r', n2)
    end.

(** ** Names *)

(** [s] with every [a] replaced by [b]. *)
Fixpoint replaceChar (a b : ascii) (s : string) : string :=
  match s with
  | EmptyString => EmptyString
  | String c r => String (if Ascii.eqb c a then b else c) (replaceChar a b r)
  end.

Fixpoint allChars (p : ascii -> bool) (s : string) : bool :=
  match s with
  | EmptyString => true
  | String c r => p c && allChars p r
  end.

(** A character of the ASCII range: on strings of such characters the byte
    strings of the model are the strings of the code, and [toLowerCase],
    [\s] and [trim] are the ones modelled. *)
Definition isAscii (c : ascii) : bool := nat_of_ascii c <? 128.

(** An ASCII character that is neither an upper-case letter nor one of the
    separators the camelCase splitter looks for. *)
Definition plainChar (c : ascii) : bool :=
  isAscii c && negb (Naming.isUpper c) && negb (Naming.isSpaceOrUnderscore c).

Definition notSep (c : ascii) : bool := negb (Naming.isSpaceOrUnderscore c).

(** A word of a snake_case name the converter can take to camelCase and
    back: a lower-case letter followed by plain characters. *)
Definition snakeWord (w : string) : bool :=
  match w with
  | EmptyString => false
  | String c r => Naming.isLower c && allChars plainChar r
  end.

Definition capitalized (w : string) : string :=
  match w with
  | EmptyString => EmptyString
  | String c r => String (Naming.upperChar c) r
  end.

Fixpoint concatStrings (ws : list string) : string :=
  match ws with
  | [] => EmptyString
  | w :: r => w +:+ concatStrings r
  end.

(** ** Members every object inherits *)

(** The property names of [Object.prototype].  Every object answers [in]
    for them and reads and writes them through the prototype chain
    ([__proto__] through an accessor); the own-property lists of the model do
    not hold them. *)
Definition objectPrototypeKeys : list string :=
  ["constructor"; "__proto__"; "hasOwnProperty"; "isPrototypeOf";
   "propertyIsEnumerable"; "toLocaleString"; "toString"; "valueOf";
   "__defineGetter__"; "__defineSetter__"; "__lookupGetter__"; "__lookupSetter__"].

Definition inherited (k : string) : bool := existsb (String.eqb k) objectPrototypeKeys.

(** ** utils/property-path.util.ts *)

(** [path.split('.').reduce((acc, key) => acc?.[key], obj)] *)
Definition getPropertyByPath (obj : value) (path : string) : value :=
  fold_left optMember (Naming.splitChar "." path) obj.

Definition cannotSet (k : string) : jsError :=
  TypeError ("Cannot set properties of null or undefined (setting '" +:+ k +:+ "')").

(** Module code is strict: writing a property of a primitive throws a
    [TypeError]. *)
Definition cannotCreate (k : string) : jsError :=
  TypeError ("Cannot create property '" +:+ k +:+ "' on a primitive value").

(** The walk of [setPropertyByPath] from [acc] along [keys], then
    [target[lastKey] = value]: how the call ends, [acc] as the call leaves
    it (the objects on the way are changed in place, also when the call
    throws later), and the next free identity.  The model covers walks
    through objects along keys that are read and written as own properties;
    a key that names a member of [Object.prototype] (it would be read and
    written through the prototype chain) and a walk through an array, a
    date or a primitive (whose methods would be found) are outside it
    ([None]). *)
Fixpoint setPath (keys : list string) (lastKey : string) (v : value)
    (acc : value) (next : ref) : option (outcome unit * value * ref) :=
  match keys with
  | [] =>
      if inherited lastKey then None
      else
        match acc with
        | VObj id c ps => Some (Ret tt, VObj id c (assignProp lastKey v ps), next)
        | VUndefined | VNull => Some (Throw (cannotSet lastKey), acc, next)
        | VBool _ | VNum _ | VStr _ => Some (Throw (cannotCreate lastKey), acc, next)
        | VArr _ _ | VDate _ _ => None
        end
  | key :: r =>
      if inherited key then None
      else
        match acc with
        | VUndefined | VNull => Some (Throw (cannotRead key), acc, next)
        | VObj id c ps =>
            (* if (!acc[key]) acc[key] = {}; return acc[key] *)
            let '(child, next') :=
              if truthy (readProp key ps) then (readProp key ps, next)
              else (VObj next ObjectCtor [], S next) in
            match setPath r lastKey v child next' with
            | Some (res, child', n) => Some (res, VObj id c (assignProp key child' ps), n)
            | None => None
            end
        | _ => None
        end
  end.

(** [setPropertyByPath(obj, path, value)]; [keys.pop()] takes the last
    piece of the split path. *)
Definition setPropertyByPath (obj : value) (path : string) (v : value) (next : ref)
  : option (outcome unit * value * ref) :=
  let keys := Naming.splitChar "." path in
  setPath (removelast keys) (List.last keys "") v obj next.

(** ** Further vocabulary of the engine *)

Section EngineVocabulary.
Context {W : Type}.


(** What the registration methods keep true of the three tables. *)
Definition registry_invariant (m : @Mapper W) : Prop :=
  indexed_registry m
  /\ compiledMapFns m = reverseRegistry m
  /\ forall k e, reverseRegistry m !! k = Some e -> entryKey e = k /\ In e (registry m).

(** *** mapArray and mapArrayAsync *)

Context (meta : @MetadataProvider W).

Definition notAFunction (what : string) : jsError :=
  TypeError (what +:+ " is not a function").

(** [sourceArray.map(item => this.map(item, destinationClass, options))] *)
Definition mapArray (fuel : nat) (sourceArray : value) (destinationClass : ClassType)
    (_options : option TransformOptions) : @M W value :=
  match sourceArray with
  | VArr _ items =>
      id <- alloc ;;
      vs <- mapItems (fun item => map meta fuel item destinationClass _options) items ;;
      ret (VArr id vs)
  | VUndefined | VNull => throw (cannotRead "map")
  | _ => throw (notAFunction "sourceArray.map")
  end.

(** [Promise.all(sourceArray.map(item => this.mapAsync(item, destinationClass, options)))] *)
Definition mapArrayAsync (fuel : nat) (sourceArray : value) (destinationClass : ClassType)
    (_options : option TransformOptions) : @M W value :=
  match sourceArray with
  | VArr _ items =>
      id <- alloc ;;
      vs <- mapItemsAll (fun item => mapAsync meta fuel item destinationClass _options) items ;;
      ret (VArr id vs)
  | VUndefined | VNull => throw (cannotRead "map")
  | _ => throw (notAFunction "sourceArray.map")
  end.

(** The mappers a caller can reach: constructed, configured by [createMap],
    [createReverseMap], [setCacheEnabled] and [clear], and used for mapping
    in between. *)
Inductive built : @Mapper W -> Prop :=
| built_new o : built (newMapper o)
| built_createMap m s d cfg o : built m -> built (createMap m s d cfg o)
| built_createReverseMap m s d m' :
    built m -> createReverseMap m s d = Ret m' -> built m'
| built_setCacheEnabled m b : built m -> built (setCacheEnabled m b)
| built_clear m : built m -> built (clear m)
| built_map m w n fuel sourceObj destinationClass o res rt' :
    built m ->
    map meta fuel sourceObj destinationClass o (mkRuntime m w n) = Some (res, rt') ->
    built (rt_mapper rt')
| built_mapAsync m w n fuel sourceObj destinationClass o res rt' :
    built m ->
    mapAsync meta fuel sourceObj destinationClass o (mkRuntime m w n) = Some (res, rt') ->
    built (rt_mapper rt')
| built_mapArray m w n fuel sourceArray destinationClass o res rt' :
    built m ->
    mapArray fuel sourceArray destinationClass o (mkRuntime m w n) = Some (res, rt') ->
    built (rt_mapper rt')
| built_mapArrayAsync m w n fuel sourceArray destinationClass o res rt' :
    built m ->
    mapArrayAsync fuel sourceArray destinationClass o (mkRuntime m w n) = Some (res, rt') ->
    built (rt_mapper rt').


(** No key of [keys] is copied to a name that every object inherits. *)
Definition ownTargets (o : @MappingEntryOptions W) (keys : list string) : Prop :=
  Forall (fun k => match targetKeyOf o k with
                   | Ret t => inherited t = false
                   | Throw _ => True
                   end) keys.

(** A computation that, started on a mapper whose tables agree, leaves the
    registrations and the table of sync closures as they are; [stableFor]
    asks this only where [entry] is registered under its key. *)
Definition unchanged (m m' : @Mapper W) : Prop :=
  sameRegistry m m' /\ compiledMapFns m' = compiledMapFns m.

Definition stableFor {A} (entry : option (@MappingRegistryEntry W)) (c : @M W A) : Prop :=
  forall rt o rt',
    registry_invariant (rt_mapper rt) ->
    (forall e, entry = Some e -> reverseRegistry (rt_mapper rt) !! entryKey e = Some e) ->
    c rt = Some (o, rt') ->
    unchanged (rt_mapper rt) (rt_mapper rt').

Definition stable {A} (c : @M W A) : Prop := stableFor None c.

(** *** The slots of the instance cache *)

(** No registered mapping has a [beforeMap] hook: every closure then runs on
    the very object [map] was called with. *)
Definition noBeforeHooks (m : @Mapper W) : Prop :=
  forall s d e, findEntry m s d = Some e -> beforeMap (options e) = None.

(** No field is decorated with a nested type: the closures then never call
    [this.map]. *)
Definition noNestedTypes : Prop :=
  forall c k, nestedTypeFactory meta c k = None.

(** The object of identity [id] is neither [v] nor a part of [v]. *)
Definition apartFrom (id : ref) (v : value) : Prop := ~ In id (identities v).

(** Mapping [a] does not come to map the object of identity [id]: that
    object is not [a], and either no closure calls [map] for a nested value,
    or the closures run on [a] and its parts, of which the object is
    none. *)
Definition separate (m : @Mapper W) (a : value) (id : ref) : Prop :=
  identityOf a <> Some id
  /\ (noNestedTypes \/ (noBeforeHooks m /\ apartFrom id a)).

(** A computation that leaves the slot of the identity [id] in the instance
    cache as it is, when it starts on a mapper for which [P] holds. *)
Definition keepsSlot {A} (P : @Mapper W -> Prop) (id : ref) (c : @M W A) : Prop :=
  forall rt o rt',
    P (rt_mapper rt) ->
    c rt = Some (o, rt') ->
    instanceCache (rt_mapper rt') !! id = instanceCache (rt_mapper rt) !! id.

End EngineVocabulary.

(** ** mapWithMetadata *)

Section WithMetadata.
Context {W : Type} (meta : @MetadataProvider W).


(** [Date.now()], read off the world. *)
Context (now : W -> Z).



End WithMetadata.

(** ** core/mapping-context.ts *)

(** [MappingContext]; [depth] is an optional property. *)
Inductive MappingContext : Type :=
| mkContext (source destination : value) (parent : option MappingContext)
    (depth : option Z) (options : props).

Definition ctx_parent (c : MappingContext) : option MappingContext :=
  match c with mkContext _ _ p _ _ => p end.

Definition ctx_depth (c : MappingContext) : option Z :=
  match c with mkContext _ _ _ d _ => d end.

(** [depth: parent ? (parent.depth ?? 0) + 1 : 0] *)
Definition createMappingContext (source destination : value)
    (parent : option MappingContext) : MappingContext :=
  mkContext source destination parent
    (Some (match parent with
           | Some p => (default 0 (ctx_depth p) + 1)%Z
           | None => 0%Z
           end))
    [].

(** The number of contexts above a context. *)
Fixpoint ancestors (c : MappingContext) : nat :=
  match c with
  | mkContext _ _ (Some p) _ _ => S (ancestors p)
  | mkContext _ _ None _ _ => 0
  end.

(** A context all of whose chain came from [createMappingContext]. *)
Inductive fromFactory : MappingContext -> Prop :=
| fromFactory_root s d : fromFactory (createMappingContext s d None)
| fromFactory_child s d p :
    fromFactory p -> fromFactory (createMappingContext s d (Some p)).

(** ** Validation: [addValidation], [validate] and utils/validation.util.ts *)

Section Validation.
Context {W : Type}.

(** A [ValidationRule]; a promise the rule returns is the outcome it settles
    with. *)
Record ValidationRule : Type := mkRule {
  rule_validate : value -> W -> outcome bool * W;
  rule_message : string
}.

(** The [validationRules] table of the Mapper is a
    [gmap string (list ValidationRule)]. *)

(** [`${className}.${property}`] *)
Definition ruleKey (className property : string) : string :=
  className +:+ "." +:+ property.

Definition addValidation (rules : gmap string (list ValidationRule)) (targetClass : Ctor)
    (property : string) (rule : ValidationRule) : gmap string (list ValidationRule) :=
  let key := ruleKey (ctor_name targetClass) property in
  <[key := (default [] (rules !! key) ++ [rule])%list]> rules.

(** [for (const rule of rules)] inside [validate] *)
Fixpoint runRules (key : string) (v : value) (rules : list ValidationRule) (w : W)
  : outcome unit * W :=
  match rules with
  | [] => (Ret tt, w)
  | rule :: r =>
      match rule_validate rule v w with
      | (Ret true, w') => runRules key v r w'
      | (Ret false, w') =>
          (Throw (plainError ("Validation failed for " +:+ key +:+ ": "
                              +:+ rule_message rule)), w')
      | (Throw e, w') => (Throw e, w')
      end
  end.

(** [for (const key in obj)] *)
Fixpoint validateKeys (rules : gmap string (list ValidationRule)) (className : string) (obj : value)
    (keys : list string) (w : W) : outcome unit * W :=
  match keys with
  | [] => (Ret tt, w)
  | key :: r =>
      match rules !! ruleKey className key with
      | Some rs =>
          match runRules key (readProp key (propsOf obj)) rs w with
          | (Ret _, w') => validateKeys rules className obj r w'
          | (Throw e, w') => (Throw e, w')
          end
      | None => validateKeys rules className obj r w
      end
  end.

(** [validate(obj)]: the outcome the returned promise settles with. *)
Definition validate (rules : gmap string (list ValidationRule)) (obj : value) (w : W) : outcome bool * W :=
  match constructorOf obj with
  | None => (Throw (cannotRead "constructor"), w)
  | Some c =>
      match validateKeys rules (ctor_name c) obj (ownKeys obj) w with
      | (Ret _, w') => (Ret true, w')
      | (Throw e, w') => (Throw e, w')
      end
  end.

(** [validateProperty(value, rules)] *)
Fixpoint validateProperty (v : value) (rules : list ValidationRule) (w : W)
  : outcome unit * W :=
  match rules with
  | [] => (Ret tt, w)
  | rule :: r =>
      match rule_validate rule v w with
      | (Ret true, w') => validateProperty v r w'
      | (Ret false, w') => (Throw (plainError (rule_message rule)), w')
      | (Throw e, w') => (Throw e, w')
      end
  end.

End Validation.

(** ** core/mapping-profile.ts: the MappingBuilder *)

(** The builder holds the field functions and the options it has collected;
    [register] hands them to [createMap] of the Mapper it was made for.  The
    methods that call back into the Mapper ([forNestedObject],
    [forNestedArray]) and [concat], which needs the string conversion of
    arbitrary values, are outside the model. *)
Module MappingBuilder.
Section WithWorld.
Context {W : Type}.

Record Builder : Type := mkBuilder {
  b_source : ClassType;
  b_destination : ClassType;
  b_config : @MappingConfig W;
  b_options : @MappingEntryOptions W
}.

(** [new MappingBuilder(mapper, source, destination)] *)
Definition create (s d : ClassType) : Builder := mkBuilder s d [] noOptions.

(** [this.config[destinationKey] = fn] *)
Definition setConfig (b : Builder) (destinationKey : string) (fn : MapperFunction)
  : Builder :=
  mkBuilder (b_source b) (b_destination b)
    (assignProp destinationKey fn (b_config b)) (b_options b).

Definition forMember (b : Builder) (destinationKey : string) (mapperFn : MapperFunction)
  : Builder :=
  setConfig b destinationKey mapperFn.

Definition forPath (b : Builder) (destinationKey sourcePath : string) : Builder :=
  setConfig b destinationKey
    (mkMapperFunction
       (fun src w => (Ret (resolvePath (Naming.splitChar "." sourcePath) src), w)) None).

Definition ignore (b : Builder) (destinationKey : string) : Builder :=
  setConfig b destinationKey (mkMapperFunction (fun _ w => (Ret VUndefined, w)) None).

(** [value ?? defaultValue] on what [sourceProperty] returns. *)
Definition withDefault (b : Builder) (destinationKey : string)
    (sourceProperty : UserFn) (defaultValue : value) : Builder :=
  setConfig b destinationKey
    (mkMapperFunction
       (fun src w =>
          match sourceProperty src w with
          | (Ret v, w') =>
              (Ret (if isNull v || isUndefined v then defaultValue else v), w')
          | (Throw e, w') => (Throw e, w')
          end) None).

(** [this.options = { ...this.options, ...options }] *)
Definition withOptions (b : Builder) (o : @MappingEntryOptions W) : Builder :=
  let old := b_options b in
  mkBuilder (b_source b) (b_destination b) (b_config b)
    (mkOptions
       (orElse (Engine.skipNulls o) (Engine.skipNulls old))
       (orElse (Engine.skipUndefined o) (Engine.skipUndefined old))
       (orElse (deepCloneOpt o) (deepCloneOpt old))
       (orElse (Engine.strict o) (Engine.strict old))
       (orElse (Engine.beforeMap o) (Engine.beforeMap old))
       (orElse (Engine.afterMap o) (Engine.afterMap old))
       (orElse (cache o) (cache old))
       (orElse (Engine.ignore o) (Engine.ignore old))
       (orElse (include o) (include old))
       (orElse (deepCloneBeforeMap o) (deepCloneBeforeMap old))
       (orElse (convertNaming o) (convertNaming old))).

(** [this.options.skipNulls = skip] and the like: one property is set. *)
Definition skipNulls (b : Builder) (skip : bool) : Builder :=
  withOptions b (mkOptions (Some skip) None None None None None None None None None None).

Definition skipUndefined (b : Builder) (skip : bool) : Builder :=
  withOptions b (mkOptions None (Some skip) None None None None None None None None None).

Definition strict (b : Builder) (enable : bool) : Builder :=
  withOptions b (mkOptions None None None (Some enable) None None None None None None None).

(** [this.mapper.createMap(this.source, this.destination, this.config, this.options)] *)
Definition register (b : Builder) (m : @Mapper W) : @Mapper W :=
  createMap m (b_source b) (b_destination b) (Some (b_config b)) (Some (b_options b)).

(** [this.register(); this.mapper.createReverseMap(this.source, this.destination)] *)
Definition reverseMap (b : Builder) (m : @Mapper W) : outcome (@Mapper W) :=
  createReverseMap (register b m) (b_source b) (b_destination b).

End WithWorld.
End MappingBuilder.

Module Samples2.

(** A mapper that ignores [password] for every mapping. *)
Definition secretive : @Mapper nat :=
  newMapper (Some (EntryOptions
    (mkOptions None None None None None None None (Some ["password"]) None None None))).

(** A destination whose [role] has a default. *)
Definition Profile : ClassType :=
  mkClass (mkCtor 81 "Profile") [("name", VUndefined); ("role", VStr "guest")].

Definition Member : ClassType := mkClass (mkCtor 80 "Member") [].

(** A metadata table that lists both fields of [Profile] under the key the
    closure reads for the class, written by hand. *)
Definition profileMeta : @MetadataProvider nat :=
  mkMetadata
    (fun c => if decide (c = cls_ctor Profile) then ["name"; "role"] else [])
    (fun _ _ => None) (fun _ _ => None) (fun _ _ => None).

Definition memberEntry : @MappingRegistryEntry nat :=
  mkEntry Member Profile None noOptions.

(** [{ name: "Eve", role: "admin", extra: 1 }] *)
Definition eve : value :=
  VObj 150 (cls_ctor Member) [("name", VStr "Eve"); ("role", VStr "admin"); ("extra", VNum 1)].


(** [Source -> Target] registered, mapped once with [mapAsync], registered
    again with another field function. *)
Definition shoutMapper : @Mapper nat :=
  createMap (newMapper None) Samples.Source Samples.Target
    (Some [("name", Samples.shout)]) None.

Definition afterAsync : @Mapper nat :=
  match mapAsync noMetadata 1 Samples.john Samples.Target None
          (mkRuntime shoutMapper 0 1000) with
  | Some (_, rt) => rt_mapper rt
  | None => shoutMapper
  end.

(** Rules on [age]: a number, and at least 18. *)
Definition isNumber : @ValidationRule nat :=
  mkRule (fun v w => (Ret (match v with VNum _ => true | _ => false end), w))
    "must be a number".

Definition isAdult : @ValidationRule nat :=
  mkRule (fun v w => (Ret (match v with VNum n => (18 <=? n)%Z | _ => false end), w))
    "must be 18 or more".

(** The same rules, counting their calls in the world. *)
Definition counted (r : @ValidationRule nat) : @ValidationRule nat :=
  mkRule (fun v calls => (fst (rule_validate r v calls), S calls)) (rule_message r).

Definition sourceRules : gmap string (list (@ValidationRule nat)) :=
  addValidation (addValidation ∅ (cls_ctor Samples.Source) "age" isNumber)
    (cls_ctor Samples.Source) "age" isAdult.

(** The acceptance test of the two rules, by their message. *)
Definition accepts (r : @ValidationRule nat) (v : value) : bool :=
  if String.eqb (rule_message r) "must be a number"
  then match v with VNum _ => true | _ => false end
  else match v with VNum n => (18 <=? n)%Z | _ => false end.

(** A builder for [Person -> PersonDto] that reads [name] from [fullName]
    and ignores [age]. *)
Definition personBuilder : @MappingBuilder.Builder nat :=
  MappingBuilder.ignore
    (MappingBuilder.forMember (MappingBuilder.create Samples.Person Samples.PersonDto)
       "name" (mapFrom "fullName"))
    "age".

(** Two classes named [Item]. *)
Definition ItemA : ClassType := mkClass (mkCtor 90 "Item") [("id", VUndefined)].
Definition ItemB : ClassType := mkClass (mkCtor 91 "Item") [("id", VUndefined)].

(** A source that holds a nested object, and the options that clone on
    copy. *)
Definition Box : ClassType := mkClass (mkCtor 95 "Box") [("lid", VUndefined)].

Definition box : value :=
  VObj 160 (cls_ctor Box) [("lid", VObj 161 ObjectCtor [("open", VBool true)])].

Definition cloning : @MappingEntryOptions nat :=
  mkOptions None None (Some true) None None None None None None None None.

End Samples2.

(** * Properties *)

(** ** The naming converter *)

Example convert_snake_to_camel :
  Naming.convertNamingConvention "user_name" Naming.snake_case Naming.camelCase
  = Ret "userName".
Proof. reflexivity. Qed.

Example convert_camel_to_snake :
  Naming.convertNamingConvention "userName" Naming.camelCase Naming.snake_case
  = Ret "user_name".
Proof. reflexivity. Qed.

Example convert_pascal_to_kebab :
  Naming.convertNamingConvention "UserName" Naming.PascalCase Naming.kebab_case
  = Ret "user-name".
Proof. reflexivity. Qed.

Example convert_leading_upper_from_camel :
  Naming.convertNamingConvention "FooBar" Naming.camelCase Naming.snake_case
  = Ret "_foo_bar".
Proof. reflexivity. Qed.

(** A target style that only joins the words never throws. *)
Lemma convert_to_separator_returns (propertyName : string) (from : Naming.Style) :
  (exists r, Naming.convertNamingConvention propertyName from Naming.snake_case = Ret r)
  /\ (exists r, Naming.convertNamingConvention propertyName from Naming.kebab_case = Ret r).
Proof. split; eexists; reflexivity. Qed.

(** C9: [convertNamingConvention] is not total.  A name with an empty
    segment and a capitalising target style reaches [w[0].toUpperCase()] on
    the empty word, where [w[0]] is [undefined]: the call throws a
    [TypeError] instead of returning a string.  Shown on a doubled
    separator, a trailing separator and the empty name. *)
Theorem convertNamingConvention_throws_on_empty_segment :
  Naming.convertNamingConvention "a__b" Naming.snake_case Naming.camelCase
    = Throw (TypeError "Cannot read properties of undefined (reading 'toUpperCase')")
  /\ Naming.convertNamingConvention "user_" Naming.snake_case Naming.camelCase
    = Throw (TypeError "Cannot read properties of undefined (reading 'toUpperCase')")
  /\ Naming.convertNamingConvention "" Naming.kebab_case Naming.PascalCase
    = Throw (TypeError "Cannot read properties of undefined (reading 'toUpperCase')").
Proof. repeat split; reflexivity. Qed.

(** ** The per-call options *)

(** C10: the third argument of [map] and of [mapAsync] is not read: two
    calls that differ only in it have the same outcome and leave the same
    runtime. *)
Theorem transform_options_ignored {W : Type} (meta : @MetadataProvider W)
    (fuel : nat) (sourceObj : value) (destinationClass : ClassType)
    (o1 o2 : option TransformOptions) (rt : Runtime) :
  map meta fuel sourceObj destinationClass o1 rt
    = map meta fuel sourceObj destinationClass o2 rt
  /\ mapAsync meta fuel sourceObj destinationClass o1 rt
    = mapAsync meta fuel sourceObj destinationClass o2 rt.
Proof. destruct fuel; split; reflexivity. Qed.

(** ** Own properties *)

Section Props.
Context {A : Type}.
Implicit Types (ps : list (string * A)) (k : string).

Lemma lookupProp_assign_eq k (v : A) ps :
  lookupProp k (assignProp k v ps) = Some v.
Proof.
  induction ps as [|[k' v'] r IH]; simpl.
  - by rewrite decide_True.
  - destruct (decide (k = k')) as [->|Hne]; simpl.
    + by rewrite decide_True.
    + by rewrite decide_False.
Qed.

Lemma lookupProp_assign_ne k k' (v : A) ps :
  k <> k' -> lookupProp k' (assignProp k v ps) = lookupProp k' ps.
Proof.
  intros Hne. induction ps as [|[k0 v0] r IH]; simpl.
  - by rewrite decide_False.
  - destruct (decide (k = k0)) as [->|Hk]; simpl.
    + by rewrite !decide_False.
    + destruct (decide (k' = k0)); [done | apply IH].
Qed.

Lemma hasKey_assign_eq k (v : A) ps : hasKey k (assignProp k v ps) = true.
Proof. unfold hasKey. by rewrite lookupProp_assign_eq. Qed.

Lemma hasKey_assign_ne k k' (v : A) ps :
  k <> k' -> hasKey k' (assignProp k v ps) = hasKey k' ps.
Proof. intros. unfold hasKey. by rewrite lookupProp_assign_ne. Qed.

Lemma lookupProp_In k (v : A) ps : lookupProp k ps = Some v -> In (k, v) ps.
Proof.
  induction ps as [|[k' v'] r IH]; simpl; [done|].
  destruct (decide (k = k')) as [->|]; [intros [= ->]; by left | right; auto].
Qed.

Lemma In_lookupProp k (v : A) ps :
  NoDup (List.map fst ps) -> In (k, v) ps -> lookupProp k ps = Some v.
Proof.
  induction ps as [|[k' v'] r IH]; simpl; [done|].
  intros Hnd [Heq|Hin].
  - injection Heq as -> ->. by rewrite decide_True.
  - apply NoDup_cons in Hnd as [Hnotin Hnd].
    destruct (decide (k = k')) as [->|].
    + exfalso. apply Hnotin. apply list_elem_of_In.
      change k' with (fst (k', v)). by apply in_map.
    + auto.
Qed.

Lemma hasKey_In_fst k ps : hasKey k ps = true <-> In k (List.map fst ps).
Proof.
  unfold hasKey. induction ps as [|[k' v'] r IH]; simpl; [split; [done | intros []]|].
  destruct (decide (k = k')) as [->|Hne].
  - split; [by left | done].
  - rewrite IH. split; [by right | intros [?|?]; [congruence | done]].
Qed.

Lemma assignProp_keys k (v : A) ps :
  List.map fst (assignProp k v ps)
  = if hasKey k ps then List.map fst ps else (List.map fst ps ++ [k])%list.
Proof.
  unfold hasKey. induction ps as [|[k' v'] r IH]; simpl; [done|].
  destruct (decide (k = k')) as [->|Hne]; simpl; [done|].
  rewrite IH. by destruct (lookupProp k r).
Qed.

Lemma assignProp_NoDup k (v : A) ps :
  NoDup (List.map fst ps) -> NoDup (List.map fst (assignProp k v ps)).
Proof.
  intros Hnd. rewrite assignProp_keys.
  destruct (hasKey k ps) eqn:Hk; [done|].
  apply NoDup_app. split; [done|]. split.
  - intros x Hx ->%list_elem_of_singleton.
    apply list_elem_of_In, hasKey_In_fst in Hx. congruence.
  - apply NoDup_singleton.
Qed.

End Props.

(** Key lists of concrete tables are checked by computation. *)
Lemma NoDup_keys_decide (keys : list string) :
  bool_decide (NoDup keys) = true -> NoDup keys.
Proof. apply bool_decide_eq_true_1. Qed.

Lemma readProp_assign_eq k v (ps : props) : readProp k (assignProp k v ps) = v.
Proof. unfold readProp. by rewrite lookupProp_assign_eq. Qed.

Lemma readProp_assign_ne k k' v (ps : props) :
  k <> k' -> readProp k' (assignProp k v ps) = readProp k' ps.
Proof. intros. unfold readProp. by rewrite lookupProp_assign_ne. Qed.

(** ** The registry *)

Lemma find_app_split {A} (f : A -> bool) (l1 l2 : list A) :
  List.find f (l1 ++ l2)
  = match List.find f l1 with Some x => Some x | None => List.find f l2 end.
Proof. induction l1 as [|x r IH]; simpl; [done|]. by destruct (f x). Qed.

Section Registry.
Context {W : Type}.
Implicit Types (m : @Mapper W) (e : @MappingRegistryEntry W).

Lemma sameClasses_key (s d : Ctor) e :
  sameClasses s d e = true -> entryKey e = getRegistryKey s d.
Proof.
  unfold sameClasses, entryKey.
  intros [Hs Hd]%andb_true_iff.
  apply bool_decide_eq_true in Hs, Hd. by rewrite Hs, Hd.
Qed.

Lemma newMapper_indexed (o : option MapperConstructorOptions) :
  indexed_registry (@newMapper W o).
Proof. intros e. destruct o as [[g c|?]|]; simpl; intros []. Qed.

Lemma createMap_indexed m (s d : ClassType) cfg o :
  indexed_registry m -> indexed_registry (createMap m s d cfg o).
Proof.
  intros Hm e. simpl. rewrite in_app_iff. simpl.
  intros [Hin|[<-|[]]].
  - destruct (decide (getRegistryKey (cls_ctor s) (cls_ctor d) = entryKey e)) as [->|Hne].
    + rewrite lookup_insert_eq. eauto.
    + rewrite lookup_insert_ne by done. by apply Hm.
  - unfold entryKey at 1. simpl. rewrite lookup_insert_eq. eauto.
Qed.

(** On an indexed registry the scan of the list is never what answers. *)
Lemma findEntry_indexed m (s d : Ctor) :
  indexed_registry m ->
  findEntry m s d = reverseRegistry m !! getRegistryKey s d.
Proof.
  intros Hm. unfold findEntry.
  destruct (reverseRegistry m !! getRegistryKey s d) eqn:Hk; [done|].
  destruct (List.find (sameClasses s d) (registry m)) eqn:Hf; [|done].
  apply find_some in Hf as [Hin Hsame].
  apply sameClasses_key in Hsame. apply Hm in Hin as [x Hx].
  rewrite Hsame in Hx. congruence.
Qed.

(** The lookup after a registration, by key. *)
Lemma findEntry_after_createMap m (s d : ClassType) cfg o (s' d' : Ctor) :
  findEntry (createMap m s d cfg o) s' d'
  = if decide (getRegistryKey s' d' = getRegistryKey (cls_ctor s) (cls_ctor d))
    then Some (mkEntry s d cfg (mergeOptions (globalOptions m) (default noOptions o)))
    else findEntry m s' d'.
Proof.
  unfold findEntry. simpl.
  destruct (decide (getRegistryKey s' d' = getRegistryKey (cls_ctor s) (cls_ctor d)))
    as [->|Hne].
  - by rewrite lookup_insert_eq.
  - rewrite lookup_insert_ne by done.
    destruct (reverseRegistry m !! getRegistryKey s' d'); [done|].
    rewrite find_app_split.
    destruct (List.find (sameClasses s' d') (registry m)); [done|].
    simpl. destruct (sameClasses s' d' _) eqn:Hsame; [|done].
    apply sameClasses_key in Hsame. unfold entryKey in Hsame. simpl in Hsame. congruence.
Qed.

End Registry.

(** ** The runtime monad *)

Section Monad.
Context {W : Type}.
Implicit Types (rt : @Runtime W).

Lemma bind_Ret_inv {A B} (c : M A) (k : A -> M B) rt (b : B) rt' :
  bind c k rt = Some (Ret b, rt') ->
  exists a rt1, c rt = Some (Ret a, rt1) /\ k a rt1 = Some (Ret b, rt').
Proof.
  unfold bind. destruct (c rt) as [[[a|e] rt1]|]; [eauto | done | done].
Qed.

Lemma bind_inv {A B} (c : M A) (k : A -> M B) rt (o : outcome B) rt' :
  bind c k rt = Some (o, rt') ->
  (exists e, c rt = Some (Throw e, rt') /\ o = Throw e)
  \/ (exists a rt1, c rt = Some (Ret a, rt1) /\ k a rt1 = Some (o, rt')).
Proof.
  unfold bind. destruct (c rt) as [[[a|e] rt1]|]; [eauto | | done].
  intros [= <- <-]. eauto.
Qed.

Lemma bind_assoc {A B C} (c : M A) (k : A -> M B) (k' : B -> M C) rt :
  bind (bind c k) k' rt = bind c (fun a => bind (k a) k') rt.
Proof. unfold bind. by destruct (c rt) as [[[a|e] rt1]|]. Qed.

Lemma bind_ext {A B} (c : M A) (k k' : A -> M B) rt :
  (forall a rt1, k a rt1 = k' a rt1) -> bind c k rt = bind c k' rt.
Proof. intros H. unfold bind. destruct (c rt) as [[[a|e] rt1]|]; auto. Qed.

Lemma ret_inv {A} (a : A) rt rt' (o : outcome A) :
  ret a rt = Some (o, rt') -> o = Ret a /\ rt' = rt.
Proof. unfold ret. by intros [= <- <-]. Qed.

End Monad.

(** Takes a hypothesis [c rt = Some (Ret _, _)] apart along the binds of [c]. *)
Ltac inv_ret H :=
  repeat match type of H with
  | bind _ _ _ = Some (Ret _, _) =>
      let a := fresh "a" in let rt1 := fresh "rt" in
      let H1 := fresh "Hstep" in
      apply bind_Ret_inv in H as (a & rt1 & H1 & H)
  | ret _ _ = Some (Ret _, _) => apply ret_inv in H as [[= <-] ->]
  | ret _ _ = Some (Ret _, _) => apply ret_inv in H as [[= ->] ->]
  end.

(** ** Steps of the compiled closure *)

Section Steps.
Context {W : Type} (meta : @MetadataProvider W).
Implicit Types (o : @MappingEntryOptions W) (entry : @MappingRegistryEntry W)
  (cfg : @MappingConfig W) (dest : props) (src : value) (rt : @Runtime W).

(** The field-function step leaves a key alone unless the table has it. *)
Lemma applyConfig_other o src cfg dest w dest' w' k :
  applyConfig o src cfg dest w = (Ret dest', w') ->
  ~ In k (List.map fst cfg) ->
  lookupProp k dest' = lookupProp k dest.
Proof.
  revert dest w. induction cfg as [|[dk fn] r IH]; simpl; intros dest w H Hk.
  - by injection H as -> _.
  - unfold applyMapperFn in H.
    destruct (call fn src w) as [[v|err] w1].
    + destruct (suppressed o v).
      * apply IH in H; [done | tauto].
      * apply IH in H; [|tauto]. rewrite H. apply lookupProp_assign_ne. tauto.
    + destruct (isTrue (strict o)); [done|]. apply IH in H; [done | tauto].
Qed.

(** A field function that returns an unsuppressed value leaves it on the
    destination. *)
Lemma applyConfig_assigns o src cfg dest w dest' w' k fn v :
  applyConfig o src cfg dest w = (Ret dest', w') ->
  NoDup (List.map fst cfg) ->
  In (k, fn) cfg ->
  (forall w0, fst (call fn src w0) = Ret v) ->
  suppressed o v = false ->
  lookupProp k dest' = Some v.
Proof.
  revert dest w. induction cfg as [|[dk f0] r IH]; simpl; intros dest w H Hnd Hin Hv Hs; [done|].
  apply NoDup_cons in Hnd as [Hnotin Hnd].
  destruct Hin as [[= -> ->]|Hin].
  - unfold applyMapperFn in H. specialize (Hv w).
    destruct (call fn src w) as [[v0|err] w1]; simpl in Hv; [|done].
    injection Hv as ->. rewrite Hs in H.
    apply applyConfig_other with (k := k) in H.
    + by rewrite H, lookupProp_assign_eq.
    + by intros ?%list_elem_of_In.
  - unfold applyMapperFn in H.
    destruct (call f0 src w) as [[v0|err] w1].
    + destruct (suppressed o v0); eapply IH; eauto.
    + destruct (isTrue (strict o)); [done|]. eapply IH; eauto.
Qed.

(** A field function that throws leaves its key as it was, when the step
    goes on. *)
Lemma applyConfig_keeps o src cfg dest w dest' w' k fn :
  applyConfig o src cfg dest w = (Ret dest', w') ->
  NoDup (List.map fst cfg) ->
  In (k, fn) cfg ->
  (forall w0, isRet (fst (call fn src w0)) = false) ->
  lookupProp k dest' = lookupProp k dest.
Proof.
  revert dest w. induction cfg as [|[dk f0] r IH]; simpl; intros dest w H Hnd Hin Hv; [done|].
  apply NoDup_cons in Hnd as [Hnotin Hnd].
  destruct Hin as [[= -> ->]|Hin].
  - unfold applyMapperFn in H. specialize (Hv w).
    destruct (call fn src w) as [[v0|err] w1]; simpl in Hv; [done|].
    destruct (isTrue (strict o)); [done|].
    apply applyConfig_other with (k := k) in H; [done|].
    by intros ?%list_elem_of_In.
  - assert (dk <> k) as Hne.
    { intros ->. apply Hnotin, list_elem_of_In.
      change k with (fst (k, fn)). by apply in_map. }
    unfold applyMapperFn in H.
    destruct (call f0 src w) as [[v0|err] w1].
    + destruct (suppressed o v0).
      * eapply IH; eauto.
      * rewrite (IH _ _ H Hnd Hin Hv). by apply lookupProp_assign_ne.
    + destruct (isTrue (strict o)); [done|]. eapply IH; eauto.
Qed.

(** Without [strict] the field-function step never throws. *)
Lemma applyConfig_lenient o src cfg dest w :
  isTrue (strict o) = false ->
  exists dest' w', applyConfig o src cfg dest w = (Ret dest', w').
Proof.
  intros Hs. revert dest w. induction cfg as [|[dk fn] r IH]; simpl; intros dest w; [eauto|].
  unfold applyMapperFn. destruct (call fn src w) as [[v|err] w1].
  - destruct (suppressed o v); apply IH.
  - rewrite Hs. apply IH.
Qed.

(** With [strict] the first field function that throws ends the step. *)
Lemma applyConfig_strict o src pre k fn post dest w e :
  isTrue (strict o) = true ->
  (forall k' f' w0, In (k', f') pre -> isRet (fst (call f' src w0)) = true) ->
  (forall w0, fst (call fn src w0) = Throw e) ->
  exists w', applyConfig o src (pre ++ (k, fn) :: post)%list dest w = (Throw e, w').
Proof.
  intros Hs Hpre Hfn. revert dest w.
  induction pre as [|[dk f0] r IH]; simpl; intros dest w.
  - unfold applyMapperFn. specialize (Hfn w).
    destruct (call fn src w) as [[v|err] w1]; simpl in Hfn; [done|].
    injection Hfn as ->. rewrite Hs. eauto.
  - unfold applyMapperFn.
    pose proof (Hpre dk f0 w (or_introl eq_refl)) as Hr.
    destruct (call f0 src w) as [[v|err] w1]; simpl in Hr; [|done].
    destruct (suppressed o v); apply IH; intros; eapply Hpre; right; eauto.
Qed.

(** An iteration of the decorator loop writes at most its own key. *)
Lemma decoratorField_other mapNested mapArray entry src destKey dest rt dest' rt' k :
  decoratorField meta mapNested mapArray entry src destKey dest rt = Some (Ret dest', rt') ->
  k <> destKey ->
  lookupProp k dest' = lookupProp k dest.
Proof.
  intros H Hne. unfold decoratorField in H.
  destruct (configured entry destKey || negb (isUndefined (readProp destKey dest))).
  { by inv_ret H. }
  destruct (truthyPath _).
  { inv_ret H. by apply lookupProp_assign_ne. }
  destruct (nestedTypeFactory _ _ _).
  - inv_ret H.
    destruct a; inv_ret H; by apply lookupProp_assign_ne.
  - inv_ret H. destruct a; inv_ret H; [by apply lookupProp_assign_ne | done].
Qed.

(** A key of the field-function table is skipped by the decorator loop. *)
Lemma decoratorField_configured mapNested mapArray entry src destKey dest :
  configured entry destKey = true ->
  decoratorField meta mapNested mapArray entry src destKey dest = ret dest.
Proof. intros H. unfold decoratorField. by rewrite H. Qed.

Lemma decoratorMappings_configured mapNested mapArray entry src keys dest rt dest' rt' k :
  configured entry k = true ->
  decoratorMappings meta mapNested mapArray entry src keys dest rt = Some (Ret dest', rt') ->
  lookupProp k dest' = lookupProp k dest.
Proof.
  intros Hc. revert dest rt. induction keys as [|dk r IH]; simpl; intros dest rt H.
  - by inv_ret H.
  - apply bind_Ret_inv in H as (d1 & rt1 & H1 & H).
    apply IH in H. rewrite H.
    destruct (decide (k = dk)) as [->|Hne].
    + rewrite decoratorField_configured in H1 by done. by inv_ret H1.
    + eapply decoratorField_other; eauto.
Qed.

(** The closure returns an instance of the destination class, built in the
    order: construct, copy, apply the field functions, resolve the
    decorators. *)
Lemma compiledFn_Ret_inv mapNested mapArray entry src rt r rt' :
  compiledFn meta mapNested mapArray entry src rt = Some (Ret r, rt') ->
  exists copied n applied w dest,
    copyProperties (options entry) src (ownKeys src) (cls_fields (destination entry))
      (S (rt_next rt)) = (Ret copied, n)
    /\ applyConfig (options entry) src (configOf entry) copied (rt_world rt) = (Ret applied, w)
    /\ decoratorMappings meta mapNested mapArray entry src
         (autoMapKeys meta (cls_ctor (destination entry))) applied
         (mkRuntime (rt_mapper rt) w n) = Some (Ret dest, rt')
    /\ r = VObj (rt_next rt) (cls_ctor (destination entry)) dest.
Proof.
  intros H. unfold compiledFn in H.
  apply bind_Ret_inv in H as (id & rt1 & H1 & H).
  unfold alloc, liftAlloc in H1. injection H1 as <- <-.
  apply bind_Ret_inv in H as (copied & rt2 & H2 & H).
  unfold liftAlloc in H2. simpl in H2.
  destruct (copyProperties _ _ _ _ _) as [oc n] eqn:Hcopy.
  injection H2 as -> <-.
  apply bind_Ret_inv in H as (applied & rt3 & H3 & H).
  unfold liftWorld in H3. simpl in H3.
  destruct (applyConfig _ _ _ _ _) as [oa w] eqn:Happly.
  injection H3 as -> <-.
  apply bind_Ret_inv in H as (dest & rt4 & H4 & H).
  inv_ret H. simpl in H4. eauto 10.
Qed.

(** A returned, unsuppressed field-function value is on the instance the
    closure returns. *)
Lemma compiledFn_assigns mapNested mapArray entry src cfg k fn v rt r rt' :
  config entry = Some cfg ->
  NoDup (List.map fst cfg) ->
  In (k, fn) cfg ->
  (forall w, fst (call fn src w) = Ret v) ->
  suppressed (options entry) v = false ->
  compiledFn meta mapNested mapArray entry src rt = Some (Ret r, rt') ->
  exists id dest,
    r = VObj id (cls_ctor (destination entry)) dest /\ lookupProp k dest = Some v.
Proof.
  intros Hcfg Hnd Hin Hv Hs H.
  apply compiledFn_Ret_inv in H as (copied & n & applied & w & dest & _ & Ha & Hd & ->).
  unfold configOf in Ha. rewrite Hcfg in Ha. simpl in Ha.
  assert (configured entry k = true) as Hck.
  { unfold configured. rewrite Hcfg. apply hasKey_In_fst.
    change k with (fst (k, fn)). by apply in_map. }
  eexists _, _. split; [reflexivity|].
  rewrite (decoratorMappings_configured _ _ _ _ _ _ _ _ _ k Hck Hd).
  eapply applyConfig_assigns; eauto.
Qed.

(** C1: a field function's value wins over the default copy.  For a key
    [k] of the field-function table whose function returns [v] on the source,
    [v] not suppressed by [skipNulls] / [skipUndefined], the instance the
    closure returns holds [v] at [k], whatever the copy step wrote there. *)
Theorem explicit_function_wins mapNested mapArray entry src cfg k fn v rt r rt' :
  config entry = Some cfg ->
  NoDup (List.map fst cfg) ->
  In (k, fn) cfg ->
  (forall w, fst (call fn src w) = Ret v) ->
  suppressed (options entry) v = false ->
  compiledFn meta mapNested mapArray entry src rt = Some (Ret r, rt') ->
  exists id dest,
    r = VObj id (cls_ctor (destination entry)) dest /\ lookupProp k dest = Some v.
Proof. apply compiledFn_assigns. Qed.

(** Without a [beforeMap] hook, a closure that throws makes the [try] block
    of [map] throw the same error. *)
Lemma closure_failure_fails_attempt mapNested entry src destinationClass rt e rt' :
  beforeMap (options entry) = None ->
  compiledMapFns (rt_mapper rt) !! entryKey entry = Some entry ->
  compiledFn meta mapNested mapItems entry src rt = Some (Throw e, rt') ->
  mapAttempt meta mapNested entry src destinationClass rt = Some (Throw e, rt').
Proof.
  intros Hhook Hcompiled Hthrow. unfold mapAttempt. rewrite Hhook.
  unfold bind at 1. unfold ret at 1.
  unfold bind at 1. unfold compiledFor, bind at 1. unfold getMapper.
  rewrite Hcompiled. unfold ret at 1.
  unfold bind at 1. by rewrite Hthrow.
Qed.

(** C5: the error policy of the field-function step.  Let the function of
    key [k] throw [e] on the source.  Without [strict] the step does not
    throw, [k] keeps what the copy step produced, every other function that
    returns an unsuppressed value has it assigned, and the instance the
    closure returns still has the copied value at [k].  With [strict], and
    no earlier function of the table throwing, the closure throws [e], and
    the [map] call that runs it fails with [e] wrapped by
    [createMappingError]. *)
Theorem field_function_error_policy mapNested mapArray entry src cfg pre k fn post e
    rt copied n :
  config entry = Some cfg ->
  cfg = (pre ++ (k, fn) :: post)%list ->
  NoDup (List.map fst cfg) ->
  (forall w, fst (call fn src w) = Throw e) ->
  copyProperties (options entry) src (ownKeys src) (cls_fields (destination entry))
    (S (rt_next rt)) = (Ret copied, n) ->
  (isTrue (strict (options entry)) = false ->
     (exists applied w',
        applyConfig (options entry) src cfg copied (rt_world rt) = (Ret applied, w')
        /\ lookupProp k applied = lookupProp k copied
        /\ forall k' f' v,
             In (k', f') cfg -> (forall w, fst (call f' src w) = Ret v) ->
             suppressed (options entry) v = false -> lookupProp k' applied = Some v)
     /\ forall r rt',
          compiledFn meta mapNested mapArray entry src rt = Some (Ret r, rt') ->
          exists id dest,
            r = VObj id (cls_ctor (destination entry)) dest
            /\ lookupProp k dest = lookupProp k copied)
  /\ (isTrue (strict (options entry)) = true ->
      (forall k' f' w, In (k', f') pre -> isRet (fst (call f' src w)) = true) ->
      (exists rt', compiledFn meta mapNested mapArray entry src rt = Some (Throw e, rt'))
      /\ forall fuel destinationClass (transformOptions : option TransformOptions) sourceCtor,
           constructorOf src = Some sourceCtor ->
           findEntry (rt_mapper rt) sourceCtor (cls_ctor destinationClass) = Some entry ->
           cachedResult (rt_mapper rt) entry src destinationClass = None ->
           beforeMap (options entry) = None ->
           compiledMapFns (rt_mapper rt) !! entryKey entry = Some entry ->
           exists rt',
             map meta (S fuel) src destinationClass transformOptions rt
             = Some (Throw (createMappingError (ctor_name sourceCtor)
                              (ctor_name (cls_ctor destinationClass))
                              "Mapping failed" (Some e)), rt')).
Proof.
  intros Hcfg Hsplit Hnd Hthrow Hcopy.
  assert (In (k, fn) cfg) as Hin by (subst cfg; apply in_elt).
  assert (forall w0, isRet (fst (call fn src w0)) = false) as Hnot
    by (intros w0; by rewrite Hthrow).
  split.
  - intros Hs. split.
    + destruct (applyConfig_lenient (options entry) src cfg copied (rt_world rt) Hs)
        as (applied & w' & Ha).
      exists applied, w'. split; [done|]. split.
      * eapply applyConfig_keeps; eauto.
      * intros k' f' v Hin' Hv Hsup. eapply applyConfig_assigns; eauto.
    + intros r rt' H.
      apply compiledFn_Ret_inv in H as (copied' & n' & applied & w & dest & Hc & Ha & Hd & ->).
      rewrite Hcopy in Hc. injection Hc as <- <-.
      unfold configOf in Ha. rewrite Hcfg in Ha. simpl in Ha.
      assert (configured entry k = true) as Hck.
      { unfold configured. rewrite Hcfg. apply hasKey_In_fst.
        change k with (fst (k, fn)). by apply in_map. }
      eexists _, _. split; [reflexivity|].
      rewrite (decoratorMappings_configured _ _ _ _ _ _ _ _ _ k Hck Hd).
      eapply applyConfig_keeps; eauto.
  - intros Hs Hpre.
    destruct (applyConfig_strict (options entry) src pre k fn post copied (rt_world rt) e
                Hs Hpre Hthrow) as [w' Ha].
    rewrite <- Hsplit in Ha.
    assert (forall mN mA,
              compiledFn meta mN mA entry src rt
              = Some (Throw e, mkRuntime (rt_mapper rt) w' n)) as Hclosure.
    { intros mN mA.
      unfold compiledFn, bind, alloc, liftAlloc, liftWorld, configOf. simpl.
      rewrite Hcopy. simpl. rewrite Hcfg. simpl. by rewrite Ha. }
    split; [eauto|].
    intros fuel destinationClass transformOptions sourceCtor Hctor Hfind Hmiss Hhook Hcompiled.
    eexists. simpl. unfold mapBody. rewrite Hctor.
    unfold bind at 1. unfold getMapper. rewrite Hfind, Hmiss.
    unfold tryCatch. erewrite closure_failure_fails_attempt; eauto.
Qed.

End Steps.

Lemma explicit_function_wins_witness :
  exists id dest,
    VObj 1000 (cls_ctor Samples.Target) [("name", VStr "JOHN"); ("age", VNum 30)]
      = VObj id (cls_ctor (destination Samples.shoutEntry)) dest
    /\ lookupProp "name" dest = Some (VStr "JOHN").
Proof.
  apply (explicit_function_wins noMetadata Samples.noNested mapItems Samples.shoutEntry
           Samples.john [("name", Samples.shout)] "name" Samples.shout (VStr "JOHN")
           Samples.freshRuntime _ (mkRuntime (newMapper None) 1 1001)).
  - reflexivity.
  - apply NoDup_keys_decide; reflexivity.
  - by left.
  - reflexivity.
  - reflexivity.
  - reflexivity.
Defined.

Lemma field_function_error_policy_witness :
  (exists applied w',
     applyConfig (options Samples.lenientEntry) Samples.john
       [("name", Samples.failing); ("age", Samples.nextYear)]
       [("name", VStr "John"); ("age", VNum 30)] 0 = (Ret applied, w')
     /\ lookupProp "name" applied = Some (VStr "John")
     /\ lookupProp "age" applied = Some (VNum 31))
  /\ (exists rt',
        compiledFn noMetadata Samples.noNested mapItems Samples.strictEntry Samples.john
          (mkRuntime Samples.strictMapper 0 1000) = Some (Throw (plainError "boom"), rt'))
  /\ (exists rt',
        map noMetadata 1 Samples.john Samples.Target None
          (mkRuntime Samples.strictMapper 0 1000)
        = Some (Throw (createMappingError "Source" "Target" "Mapping failed"
                         (Some (plainError "boom"))), rt')).
Proof.
  split.
  - destruct (field_function_error_policy noMetadata Samples.noNested mapItems
                Samples.lenientEntry Samples.john
                [("name", Samples.failing); ("age", Samples.nextYear)]
                [] "name" Samples.failing [("age", Samples.nextYear)] (plainError "boom")
                Samples.freshRuntime [("name", VStr "John"); ("age", VNum 30)] 1001)
      as [Hlenient _].
    + reflexivity.
    + reflexivity.
    + apply NoDup_keys_decide; reflexivity.
    + reflexivity.
    + reflexivity.
    + destruct (Hlenient eq_refl) as [(applied & w' & Ha & Hk & Hothers) _].
      exists applied, w'. split; [exact Ha|]. split; [exact Hk|].
      apply (Hothers "age" Samples.nextYear (VNum 31)).
      * right. by left.
      * reflexivity.
      * reflexivity.
  - destruct (field_function_error_policy noMetadata Samples.noNested mapItems
                Samples.strictEntry Samples.john
                [("name", Samples.failing); ("age", Samples.nextYear)]
                [] "name" Samples.failing [("age", Samples.nextYear)] (plainError "boom")
                (mkRuntime Samples.strictMapper 0 1000)
                [("name", VStr "John"); ("age", VNum 30)] 1001)
      as [_ Hstrict].
    + reflexivity.
    + reflexivity.
    + apply NoDup_keys_decide; reflexivity.
    + reflexivity.
    + reflexivity.
    + destruct (Hstrict eq_refl) as [Hclosure Hmap]; [intros k' f' w []|].
      split; [exact Hclosure|].
      apply (Hmap 0 Samples.Target None (cls_ctor Samples.Source)); reflexivity.
Defined.

(** ** Null and undefined suppression in the copy step *)

Lemma deepClone_isAbsent (a : Absent) (v : value) (n : ref) :
  isAbsent a (fst (deepClone v n)) = isAbsent a v.
Proof.
  destruct a, v; simpl; try reflexivity;
    match goal with |- context [let '(_, _) := ?x in _] => by destruct x end.
Qed.

Section CopyStep.
Context {W : Type}.
Implicit Types (o : @MappingEntryOptions W) (dest : props) (src : value).

Lemma skipsKey_absent a o k v :
  isTrue (skipOption a o) = true -> isAbsent a v = true -> skipsKey o k v = true.
Proof.
  unfold skipsKey. intros Hs Hv.
  destruct a; simpl in *; rewrite Hs, Hv; simpl; by rewrite ?orb_true_r.
Qed.

(** What one iteration of the copy loop can do to the destination. *)
Lemma copyKey_effect o src k dest n dest' n' :
  copyKey o src k dest n = (Ret dest', n') ->
  dest' = dest
  \/ exists t v,
       skipsKey o k (readProp k (propsOf src)) = false
       /\ targetKeyOf o k = Ret t
       /\ dest' = assignProp t v dest
       /\ (v = readProp k (propsOf src)
           \/ exists m, v = fst (deepClone (readProp k (propsOf src)) m)).
Proof.
  unfold copyKey. intros H.
  destruct (skipsKey o k _) eqn:Hskip; [injection H as <-; by left|].
  destruct (targetKeyOf o k) as [t|e]; [|done].
  destruct (hasKey t dest); [|injection H as <-; by left].
  destruct (isTrue (deepCloneOpt o)).
  - destruct (deepClone _ n) as [v' n1] eqn:Hc. injection H as <- _.
    right. exists t, v'. repeat split; try done. right. exists n. by rewrite Hc.
  - injection H as <- _. right. eexists t, _. repeat split; try done. by left.
Qed.

(** With the skip option on, the copy step never writes the skipped value. *)
Lemma copyProperties_never_absent a o src keys dest n dest' n' t :
  isTrue (skipOption a o) = true ->
  copyProperties o src keys dest n = (Ret dest', n') ->
  lookupProp t dest' = lookupProp t dest
  \/ exists v, lookupProp t dest' = Some v /\ isAbsent a v = false.
Proof.
  intros Hs. revert dest n. induction keys as [|k r IH]; simpl; intros dest n H.
  - injection H as <- _. by left.
  - destruct (copyKey o src k dest n) as [[d1|e] n1] eqn:Hk; [|done].
    apply IH in H. apply copyKey_effect in Hk.
    destruct Hk as [->|(t0 & v & Hskip & _ & -> & Hv)]; [done|].
    destruct H as [H|H]; [|by right].
    destruct (decide (t0 = t)) as [->|Hne].
    + right. exists v. rewrite H, lookupProp_assign_eq. split; [done|].
      destruct (isAbsent a v) eqn:Hbad; [|done].
      assert (isAbsent a (readProp k (propsOf src)) = true) as Hsrc.
      { destruct Hv as [->|[m ->]]; [done|]. by rewrite deepClone_isAbsent in Hbad. }
      by rewrite (skipsKey_absent a o k _ Hs Hsrc) in Hskip.
    + left. rewrite H. by apply lookupProp_assign_ne.
Qed.

(** Without naming conversion only the iteration for [x] can write [x]. *)
Lemma copyProperties_same_name a o src keys dest n dest' n' x :
  isTrue (skipOption a o) = true ->
  readProp x (propsOf src) = absentValue a ->
  convertNaming o = None ->
  copyProperties o src keys dest n = (Ret dest', n') ->
  lookupProp x dest' = lookupProp x dest.
Proof.
  intros Hs Hx Hconv. revert dest n. induction keys as [|k r IH]; simpl; intros dest n H.
  - by injection H as <- _.
  - destruct (copyKey o src k dest n) as [[d1|e] n1] eqn:Hk; [|done].
    apply IH in H. rewrite H. apply copyKey_effect in Hk.
    destruct Hk as [->|(t0 & v & Hskip & Ht & -> & _)]; [done|].
    unfold targetKeyOf in Ht. rewrite Hconv in Ht. injection Ht as <-.
    apply lookupProp_assign_ne. intros ->.
    rewrite Hx in Hskip.
    rewrite (skipsKey_absent a o x (absentValue a) Hs) in Hskip; [done | by destruct a].
Qed.

(** C6, amended: with [skipNulls] on, the iteration of the copy loop for a
    source field [x] that holds [null] assigns nothing, and the copy step
    never leaves [null] on a destination field it writes.  When no naming
    conversion is configured the destination's [x] therefore keeps its
    default-constructed value; with [convertNaming] another source field
    whose converted name is [x] can still be copied onto it.  The same holds
    for [skipUndefined] and [undefined]. *)
Theorem skip_option_default_copy (a : Absent) o src x :
  isTrue (skipOption a o) = true ->
  readProp x (propsOf src) = absentValue a ->
  (forall dest n, copyKey o src x dest n = (Ret dest, n))
  /\ (forall keys dest n dest' n',
        copyProperties o src keys dest n = (Ret dest', n') ->
        (forall t, lookupProp t dest' = lookupProp t dest
                   \/ exists v, lookupProp t dest' = Some v /\ isAbsent a v = false)
        /\ (convertNaming o = None -> lookupProp x dest' = lookupProp x dest)).
Proof.
  intros Hs Hx. split.
  - intros dest n. unfold copyKey. rewrite Hx.
    rewrite (skipsKey_absent a o x (absentValue a) Hs); [done | by destruct a].
  - intros keys dest n dest' n' H. split.
    + intros t. eapply copyProperties_never_absent; eauto.
    + intros Hconv. eapply copyProperties_same_name; eauto.
Qed.

End CopyStep.

(** C6 as stated fails when a naming conversion makes two source fields
    meet: with [skipNulls] and snake_case to camelCase, the source
    [{ x: null, X: 5 }] has its [X] copied onto the destination's [x], which
    does not keep its default-constructed [0]. *)
Lemma skipNulls_keeps_default_counterexample :
  isTrue (skipNulls Samples.skipNullsRenaming) = true
  /\ lookupProp "x" (propsOf Samples.rawFlags) = Some VNull
  /\ copyProperties Samples.skipNullsRenaming Samples.rawFlags (ownKeys Samples.rawFlags)
       (cls_fields Samples.Flags) 0 = (Ret [("x", VNum 5)], 0)
  /\ lookupProp "x" [("x", VNum 5)] <> lookupProp "x" (cls_fields Samples.Flags).
Proof. repeat split; try reflexivity. discriminate. Qed.

Lemma skip_option_default_copy_witness :
  copyKey Samples.skipNullsOptions Samples.rawFlags "x" (cls_fields Samples.Flags) 0
    = (Ret (cls_fields Samples.Flags), 0)
  /\ lookupProp "x" [("x", VNum 0)] = lookupProp "x" (cls_fields Samples.Flags).
Proof.
  destruct (skip_option_default_copy AbsentNull Samples.skipNullsOptions Samples.rawFlags "x"
              eq_refl eq_refl) as [Hkey Hloop].
  split.
  - apply Hkey.
  - destruct (Hloop (ownKeys Samples.rawFlags) (cls_fields Samples.Flags) 0
                [("x", VNum 0)] 0 eq_refl) as [_ Hx].
    exact (Hx eq_refl).
Defined.

(** ** The decorator-driven step *)

Section Decorators.
Context {W : Type} (meta : @MetadataProvider W).
Implicit Types (entry : @MappingRegistryEntry W) (dest : props) (src : value)
  (rt : @Runtime W).

(** Once the walk along a path has met [undefined] it stays there. *)
Lemma resolvePath_undefined (parts : list string) :
  resolvePath parts VUndefined = VUndefined.
Proof. induction parts as [|p r IH]; simpl; [done | apply IH]. Qed.

Lemma resolvePath_missing (p : string) (rest : list string) (val : value) :
  optMember val p = VUndefined -> resolvePath (p :: rest) val = VUndefined.
Proof. simpl. intros ->. apply resolvePath_undefined. Qed.

Lemma optMember_nullish (p : string) :
  optMember VNull p = VUndefined /\ optMember VUndefined p = VUndefined.
Proof. split; reflexivity. Qed.

(** C4, amended: the order in which an auto-map field is resolved.  For a
    key [destKey] that is not a key of the field-function table and is still
    [undefined] on the destination: a non-empty source path comes first (the
    path is walked from the source, the transformer applied), whether or not
    a nested-type factory is present; only without one does the nested-type
    factory decide ([null] and [undefined] copied through, arrays mapped
    element by element, anything else mapped); only without both is a
    same-named source field copied through the transformer. *)
Theorem decorator_resolution_order mapNested mapArray entry src destKey dest rt :
  configured entry destKey = false ->
  readProp destKey dest = VUndefined ->
  let target := cls_ctor (destination entry) in
  let transformer := transformerOf meta target destKey in
  let run := decoratorField meta mapNested mapArray entry src destKey dest rt in
  (forall p, sourcePathOf meta target destKey = Some p -> p <> "" ->
     run = (v <- applyTransformer transformer
                   (resolvePath (Naming.splitChar "." p) src) src ;;
            ret (assignProp destKey v dest)) rt)
  /\ (truthyPath (sourcePathOf meta target destKey) = None ->
      forall nestedType, nestedTypeFactory meta target destKey = Some nestedType ->
        (forall sub, getMember src destKey = Ret sub ->
           isNull sub || isUndefined sub = true ->
           run = Some (Ret (assignProp destKey sub dest), rt))
        /\ (forall id items, getMember src destKey = Ret (VArr id items) ->
              run = (id' <- alloc ;;
                     vs <- mapArray (fun it => mapNested it nestedType) items ;;
                     ret (assignProp destKey (VArr id' vs) dest)) rt)
        /\ (forall sub, getMember src destKey = Ret sub ->
              isNull sub || isUndefined sub || isArray sub = false ->
              run = (v <- mapNested sub nestedType ;;
                     ret (assignProp destKey v dest)) rt))
  /\ (truthyPath (sourcePathOf meta target destKey) = None ->
      nestedTypeFactory meta target destKey = None ->
        (forall val, hasMember destKey src = Ret true -> getMember src destKey = Ret val ->
           run = (v <- applyTransformer transformer val src ;;
                  ret (assignProp destKey v dest)) rt)
        /\ (hasMember destKey src = Ret false -> run = Some (Ret dest, rt))).
Proof.
  intros Hc Hu target transformer run. subst run. unfold decoratorField.
  rewrite Hc, Hu. simpl. fold target. fold transformer.
  split; [|split].
  - intros p Hp Hne. rewrite Hp. simpl.
    destruct (String.eqb_spec p ""); [done|]. reflexivity.
  - intros Hp nestedType Hn. rewrite Hp, Hn.
    split; [|split].
    + intros sub Hsub Hnull. unfold bind, liftOutcome. rewrite Hsub.
      by destruct sub.
    + intros id items Hsub. unfold bind at 1. unfold liftOutcome. by rewrite Hsub.
    + intros sub Hsub Hnot. unfold bind at 1. unfold liftOutcome. rewrite Hsub.
      by destruct sub.
  - intros Hp Hn. rewrite Hp, Hn. split.
    + intros val Hhas Hget. unfold bind at 1. unfold liftOutcome. rewrite Hhas.
      unfold bind at 1. by rewrite Hget.
    + intros Hhas. unfold bind, liftOutcome. by rewrite Hhas.
Qed.

End Decorators.

(** C4 as stated fails.  On a field that has both a nested-type factory and a
    source path the closure takes the source path: [owner] receives the value
    at [profile.name] and the nested mapping of the source's [owner] is not
    run, whatever it would return.  And a key of the field-function table is
    left alone by this step even when its function threw and the key is
    still unset. *)
Lemma nested_before_path_counterexample :
  nestedTypeFactory Samples.accountMeta (cls_ctor Samples.AccountDto) "owner"
    = Some Samples.OwnerDto
  /\ getMember Samples.account "owner"
     = Ret (VObj 103 (mkCtor 43 "Owner") [("name", VStr "Bob")])
  /\ (forall mapNested,
        compiledFn Samples.accountMeta mapNested mapItems Samples.accountEntry
          Samples.account Samples.freshRuntime
        = Some (Ret (VObj 1000 (cls_ctor Samples.AccountDto) [("owner", VStr "Ann")]),
                mkRuntime (newMapper None) 0 1001))
  /\ (forall mapNested,
        compiledFn Samples.accountMeta mapNested mapItems Samples.failingOwnerEntry
          Samples.profileOnly Samples.freshRuntime
        = Some (Ret (VObj 1000 (cls_ctor Samples.AccountDto) []),
                mkRuntime (newMapper None) 1 1001)).
Proof. repeat split; reflexivity. Qed.

Lemma decorator_resolution_order_witness :
  decoratorField Samples.accountMeta Samples.noNested mapItems Samples.accountEntry
    Samples.account "owner" (cls_fields Samples.AccountDto) Samples.freshRuntime
  = Some (Ret [("owner", VStr "Ann")], Samples.freshRuntime).
Proof.
  destruct (decorator_resolution_order Samples.accountMeta Samples.noNested mapItems
              Samples.accountEntry Samples.account "owner" (cls_fields Samples.AccountDto)
              Samples.freshRuntime eq_refl eq_refl) as [Hpath _].
  rewrite (Hpath "profile.name" eq_refl); [reflexivity | discriminate].
Defined.

(** C8: the lookup goes by the key string [S.name->D.name] first, and two
    classes that share a name share that key.  [UserA] and [UserB] are
    distinct classes named [User]; only [UserA -> UserDto] is registered.
    The scan that compares the classes themselves, the fallback of
    [findEntry], finds no entry for [UserB]; yet the lookup answers with the
    entry of [UserA], and mapping a [UserB] instance runs the field function
    registered for [UserA] where "Mapping not found" was due. *)
Theorem same_name_class_takes_other_entry :
  let entryA := mkEntry Samples.UserA Samples.UserDto (Some [("origin", Samples.fromA)])
                  (mergeOptions noOptions noOptions) in
  cls_ctor Samples.UserA <> cls_ctor Samples.UserB
  /\ registry Samples.userMapper = [entryA]
  /\ sameClasses (cls_ctor Samples.UserB) (cls_ctor Samples.UserDto) entryA = false
  /\ List.find (sameClasses (cls_ctor Samples.UserB) (cls_ctor Samples.UserDto))
       (registry Samples.userMapper) = None
  /\ getRegistryKey (cls_ctor Samples.UserB) (cls_ctor Samples.UserDto)
     = getRegistryKey (cls_ctor Samples.UserA) (cls_ctor Samples.UserDto)
  /\ findEntry Samples.userMapper (cls_ctor Samples.UserB) (cls_ctor Samples.UserDto)
     = Some entryA
  /\ exists rt',
       map noMetadata 1 Samples.userOfB Samples.UserDto None
         (mkRuntime Samples.userMapper 0 1000)
       = Some (Ret (VObj 1000 (cls_ctor Samples.UserDto)
                      [("id", VNum 7); ("origin", VStr "A")]), rt').
Proof.
  intros entryA. split; [discriminate|]. do 5 (split; [reflexivity|]).
  eexists. vm_compute. reflexivity.
Qed.

(** ** Failures of map and mapAsync *)

Section Failures.
Context {W : Type} (meta : @MetadataProvider W).


End Failures.

(** C2: [mapAsync] has no [try] around the hook and closure calls.  In
    strict mode a field function that throws makes the promise reject with
    the field function's own error, and so does a [beforeMap] hook that
    throws; [map] on the same inputs throws the error wrapped by
    [createMappingError]. *)
Theorem mapAsync_rejects_with_raw_error :
  (exists rt',
     mapAsync noMetadata 1 Samples.john Samples.Target None
       (mkRuntime Samples.strictMapper 0 1000)
     = Some (Throw (plainError "boom"), rt'))
  /\ (exists rt',
        mapAsync noMetadata 1 Samples.john Samples.Target None
          (mkRuntime Samples.failingHookMapper 0 1000)
        = Some (Throw (plainError "hook"), rt'))
  /\ (exists rt',
        map noMetadata 1 Samples.john Samples.Target None
          (mkRuntime Samples.strictMapper 0 1000)
        = Some (Throw (createMappingError "Source" "Target" "Mapping failed"
                         (Some (plainError "boom"))), rt')).
Proof. repeat split; eexists; vm_compute; reflexivity. Qed.

(** ** What mapping leaves untouched in the Mapper *)

Section Frame.
Context {W : Type} (meta : @MetadataProvider W).
Local Abbreviation M := (@Engine.M W).
Implicit Types (m : @Mapper W) (rt : @Runtime W) (entry : @MappingRegistryEntry W).

Lemma sameRegistry_refl m : sameRegistry m m.
Proof. by repeat split. Qed.

Lemma sameRegistry_trans m1 m2 m3 :
  sameRegistry m1 m2 -> sameRegistry m2 m3 -> sameRegistry m1 m3.
Proof.
  intros (H1 & H2 & H3 & H4) (K1 & K2 & K3 & K4).
  repeat split; congruence.
Qed.

Lemma sameRegistry_findEntry m m' (s d : Ctor) :
  sameRegistry m m' -> findEntry m' s d = findEntry m s d.
Proof. intros (H1 & H2 & _). unfold findEntry. by rewrite H1, H2. Qed.

Lemma sameRegistry_isCacheEnabled m m' entry :
  sameRegistry m m' -> isCacheEnabled m' entry = isCacheEnabled m entry.
Proof. intros (_ & _ & H3 & _). unfold isCacheEnabled. by rewrite H3. Qed.

Lemma preserving_ret {A} (a : A) : preserving (@ret W A a).
Proof. intros rt o rt' [= _ <-]. apply sameRegistry_refl. Qed.

Lemma preserving_throw {A} (e : jsError) : preserving (@throw W A e).
Proof. intros rt o rt' [= _ <-]. apply sameRegistry_refl. Qed.

Lemma preserving_liftOutcome {A} (r : outcome A) : preserving (@liftOutcome W A r).
Proof. intros rt o rt' [= _ <-]. apply sameRegistry_refl. Qed.

Lemma preserving_liftWorld {A} (f : W -> outcome A * W) : preserving (@liftWorld W A f).
Proof.
  intros rt o rt'. unfold liftWorld. destruct (f _). intros [= _ <-].
  apply sameRegistry_refl.
Qed.

Lemma preserving_liftAlloc {A} (f : ref -> outcome A * ref) : preserving (@liftAlloc W A f).
Proof.
  intros rt o rt'. unfold liftAlloc. destruct (f _). intros [= _ <-].
  apply sameRegistry_refl.
Qed.

Lemma preserving_getMapper : preserving (@getMapper W).
Proof. intros rt o rt' [= _ <-]. apply sameRegistry_refl. Qed.

Lemma preserving_bind {A B} (c : M A) (k : A -> M B) :
  preserving c -> (forall a, preserving (k a)) -> preserving (bind c k).
Proof.
  intros Hc Hk rt o rt' H.
  apply bind_inv in H as [(e & H & _)|(a & rt1 & H1 & H2)].
  - by apply Hc in H.
  - eapply sameRegistry_trans; [by apply Hc in H1 | by apply Hk in H2].
Qed.

Lemma preserving_tryCatch {A} (c : M A) (wrap : jsError -> jsError) :
  preserving c -> preserving (tryCatch c wrap).
Proof.
  intros Hc rt o rt'. unfold tryCatch.
  destruct (c rt) as [[[a|e] rt1]|] eqn:H; [| |done];
    intros [= _ <-]; by apply Hc in H.
Qed.

Lemma preserving_mapItems (f : value -> M value) items :
  (forall it, preserving (f it)) -> preserving (mapItems f items).
Proof.
  intros Hf. induction items as [|it r IH]; simpl.
  - apply preserving_ret.
  - apply preserving_bind; [apply Hf|]. intros y.
    apply preserving_bind; [apply IH|]. intros ys. apply preserving_ret.
Qed.

Lemma preserving_mapItemsAll (f : value -> M value) items :
  (forall it, preserving (f it)) -> preserving (mapItemsAll f items).
Proof.
  intros Hf. induction items as [|it r IH]; simpl.
  - apply preserving_ret.
  - intros rt o rt' H.
    destruct (f it rt) as [[y rt1]|] eqn:H1; [|done].
    destruct (mapItemsAll f r rt1) as [[ys rt2]|] eqn:H2; [|done].
    injection H as _ <-.
    eapply sameRegistry_trans; [by apply Hf in H1 | by apply IH in H2].
Qed.

Lemma preserving_applyTransformer t (val src : value) :
  preserving (@applyTransformer W t val src).
Proof. destruct t; [apply preserving_liftWorld | apply preserving_ret]. Qed.

Create HintDb frame.
#[local] Hint Resolve preserving_ret preserving_throw preserving_liftOutcome preserving_liftWorld
  preserving_liftAlloc preserving_getMapper preserving_applyTransformer : frame.

Lemma preserving_decoratorField mapNested mapArray entry src destKey dest :
  (forall it c, preserving (mapNested it c)) ->
  preservingTraversal mapArray ->
  preserving (decoratorField meta mapNested mapArray entry src destKey dest).
Proof.
  intros Hn Ha. unfold decoratorField.
  destruct (_ || _); [auto with frame|].
  destruct (truthyPath _).
  { apply preserving_bind; auto with frame. }
  destruct (nestedTypeFactory _ _ _).
  - apply preserving_bind; [auto with frame|]. intros nestedVal.
    destruct nestedVal; auto with frame;
      try (apply preserving_bind; [apply Hn | auto with frame]).
    apply preserving_bind; [apply preserving_liftAlloc|]. intros id'.
    apply preserving_bind; [|auto with frame].
    apply Ha. intros it. apply Hn.
  - apply preserving_bind; [auto with frame|]. intros [|]; [|auto with frame].
    apply preserving_bind; [auto with frame|]. intros val.
    apply preserving_bind; auto with frame.
Qed.

Lemma preserving_decoratorMappings mapNested mapArray entry src keys dest :
  (forall it c, preserving (mapNested it c)) ->
  preservingTraversal mapArray ->
  preserving (decoratorMappings meta mapNested mapArray entry src keys dest).
Proof.
  intros Hn Ha. revert dest. induction keys as [|k r IH]; simpl; intros dest.
  - apply preserving_ret.
  - apply preserving_bind; [by apply preserving_decoratorField | auto].
Qed.

Lemma preserving_compiledFn mapNested mapArray entry src :
  (forall it c, preserving (mapNested it c)) ->
  preservingTraversal mapArray ->
  preserving (compiledFn meta mapNested mapArray entry src).
Proof.
  intros Hn Ha. unfold compiledFn.
  apply preserving_bind; [apply preserving_liftAlloc|]. intros id.
  apply preserving_bind; [apply preserving_liftAlloc|]. intros copied.
  apply preserving_bind; [apply preserving_liftWorld|]. intros applied.
  apply preserving_bind; [by apply preserving_decoratorMappings|]. intros dest.
  apply preserving_ret.
Qed.

Lemma preserving_storeResult entry (sourceObj : value) destinationClass (result : value) :
  preserving (storeResult entry sourceObj destinationClass result).
Proof.
  intros rt o rt'. unfold storeResult, bind, getMapper.
  destruct (isCacheEnabled _ _).
  - destruct (identityOf sourceObj).
    + intros [= _ <-]. by repeat split.
    + intros [= _ <-]. apply sameRegistry_refl.
  - intros [= _ <-]. apply sameRegistry_refl.
Qed.

Lemma preserving_compiledFor entry : preserving (compiledFor entry).
Proof.
  intros rt o rt'. unfold compiledFor, bind, getMapper.
  destruct (compiledMapFns _ !! _).
  - intros [= _ <-]. apply sameRegistry_refl.
  - simpl. intros [= _ <-]. by repeat split.
Qed.

Lemma preserving_compiledAsyncFor entry : preserving (compiledAsyncFor entry).
Proof.
  intros rt o rt'. unfold compiledAsyncFor, bind, getMapper.
  destruct (compiledAsyncMapFns _ !! _).
  - intros [= _ <-]. apply sameRegistry_refl.
  - simpl. intros [= _ <-]. by repeat split.
Qed.

Lemma mapAttempt_split mapNested entry sourceObj destinationClass rt :
  mapAttempt meta mapNested entry sourceObj destinationClass rt
  = (result <- mapCompute meta mapNested entry sourceObj ;;
     _ <- storeResult entry sourceObj destinationClass result ;;
     ret result) rt.
Proof.
  unfold mapAttempt, mapCompute.
  rewrite bind_assoc. apply bind_ext. intros preProcessed rt1.
  rewrite bind_assoc. apply bind_ext. intros compiled rt2.
  rewrite bind_assoc. reflexivity.
Qed.

Lemma preserving_mapCompute mapNested entry sourceObj :
  (forall it c, preserving (mapNested it c)) ->
  preserving (mapCompute meta mapNested entry sourceObj).
Proof.
  intros Hn. unfold mapCompute.
  apply preserving_bind.
  { destruct (beforeMap _); [|auto with frame].
    apply preserving_bind; [|auto with frame].
    destruct (isTrue _); auto with frame. }
  intros preProcessed.
  apply preserving_bind; [apply preserving_compiledFor|]. intros compiled.
  apply preserving_bind.
  { apply preserving_compiledFn; [done|]. intros f items. apply preserving_mapItems. }
  intros result. destruct (afterMap _); auto with frame.
Qed.

Lemma preserving_mapAttempt mapNested entry sourceObj destinationClass :
  (forall it c, preserving (mapNested it c)) ->
  preserving (mapAttempt meta mapNested entry sourceObj destinationClass).
Proof.
  intros Hn rt o rt'. rewrite mapAttempt_split. revert rt o rt'.
  apply preserving_bind; [by apply preserving_mapCompute|]. intros result.
  apply preserving_bind; [apply preserving_storeResult | auto with frame].
Qed.

Lemma preserving_map fuel sourceObj destinationClass o :
  preserving (map meta fuel sourceObj destinationClass o).
Proof.
  revert sourceObj destinationClass o.
  induction fuel as [|fuel IH]; intros sourceObj destinationClass o; [by intros rt ? ?|].
  simpl. unfold mapBody.
  destruct (constructorOf sourceObj); [|auto with frame].
  apply preserving_bind; [auto with frame|]. intros m.
  destruct (findEntry _ _ _); [|auto with frame].
  destruct (cachedResult _ _ _ _); [auto with frame|].
  apply preserving_tryCatch, preserving_mapAttempt. intros it nestedType. apply IH.
Qed.

Lemma cachedResult_miss m entry (sourceObj : value) destinationClass id :
  identityOf sourceObj = Some id ->
  cacheEntry m id (cls_ctor destinationClass) = None ->
  cachedResult m entry sourceObj destinationClass = None.
Proof.
  unfold cachedResult, cacheEntry. intros -> H.
  destruct (isCacheEnabled m entry); [|done].
  destruct (instanceCache m !! id); [|done]. by rewrite H.
Qed.

(** *** The slot of another identity *)

Lemma identities_readProp (k : string) (ps : props) i :
  In i (identities (readProp k ps)) ->
  exists kv, In kv ps /\ In i (identities (snd kv)).
Proof.
  unfold readProp. destruct (lookupProp k ps) as [x|] eqn:Hx; [|intros []].
  intros Hi. exists (k, x). split; [by apply lookupProp_In | done].
Qed.

Lemma In_indexed {A} (f : A -> value) n (l : list A) kv :
  In kv (indexed f n l) -> exists y, In y l /\ snd kv = f y.
Proof.
  revert n. induction l as [|y r IH]; simpl; intros n; [intros []|].
  intros [<-|H]; [by exists y; auto|].
  destruct (IH _ H) as (z & Hz & Hkv). exists z. auto.
Qed.

Lemma identities_item i (it : value) (items : list value) :
  In it items -> In i (identities it) ->
  In i (List.concat (List.map identities items)).
Proof.
  intros Hin Hi. apply in_concat. exists (identities it).
  split; [by apply in_map | done].
Qed.

Lemma identities_member (v : value) (k : string) (x : value) i :
  getMember v k = Ret x -> In i (identities x) -> In i (identities v).
Proof.
  destruct v as [| |b|z|s|id t|id items|id c ps]; simpl; try discriminate.
  - intros [= <-] [].
  - intros [= <-] [].
  - destruct (decide (k = "length")); intros [= <-]; [intros []|].
    intros Hi. apply identities_readProp in Hi as (kv & Hkv & Hi).
    apply In_indexed in Hkv as (ch & _ & Heq). by rewrite Heq in Hi.
  - intros [= <-] [].
  - destruct (decide (k = "length")); intros [= <-]; [intros []|].
    intros Hi. apply identities_readProp in Hi as (kv & Hkv & Hi).
    apply In_indexed in Hkv as (it & Hit & Heq). rewrite Heq in Hi.
    right. by eapply identities_item.
  - intros [= <-] Hi. apply identities_readProp in Hi as (kv & Hkv & Hi).
    right. apply in_concat. exists (identities (snd kv)). split; [|done].
    by apply (in_map (fun kv => identities (snd kv))).
Qed.

Lemma apartFrom_member id (v : value) k (x : value) :
  getMember v k = Ret x -> apartFrom id v -> apartFrom id x.
Proof. intros Hx Hv Hi. apply Hv. by eapply identities_member. Qed.

Lemma apartFrom_item id i (items : list value) (it : value) :
  apartFrom id (VArr i items) -> In it items -> apartFrom id it.
Proof. intros Hv Hin Hi. apply Hv. right. by eapply identities_item. Qed.

Lemma apartFrom_identity id (v : value) : apartFrom id v -> identityOf v <> Some id.
Proof. intros Hv Hid. apply Hv. destruct v; try discriminate; injection Hid as ->; by left. Qed.

Lemma noBeforeHooks_sameRegistry m m' :
  sameRegistry m m' -> noBeforeHooks m -> noBeforeHooks m'.
Proof.
  intros Hsame Hm s d e. rewrite (sameRegistry_findEntry _ _ _ _ Hsame). apply Hm.
Qed.

Section Slots.
Variables (P : @Mapper W -> Prop) (id' : ref).
Hypothesis P_sameRegistry : forall m m', sameRegistry m m' -> P m -> P m'.

Lemma keepsSlot_ret {A} (a : A) : keepsSlot P id' (@ret W A a).
Proof. by intros rt o rt' _ [= _ <-]. Qed.

Lemma keepsSlot_throw {A} (e : jsError) : keepsSlot P id' (@throw W A e).
Proof. by intros rt o rt' _ [= _ <-]. Qed.

Lemma keepsSlot_liftOutcome {A} (r : outcome A) : keepsSlot P id' (@liftOutcome W A r).
Proof. by intros rt o rt' _ [= _ <-]. Qed.

Lemma keepsSlot_liftWorld {A} (f : W -> outcome A * W) : keepsSlot P id' (@liftWorld W A f).
Proof. intros rt o rt' _. unfold liftWorld. destruct (f _). by intros [= _ <-]. Qed.

Lemma keepsSlot_liftAlloc {A} (f : ref -> outcome A * ref) :
  keepsSlot P id' (@liftAlloc W A f).
Proof. intros rt o rt' _. unfold liftAlloc. destruct (f _). by intros [= _ <-]. Qed.

Lemma keepsSlot_applyTransformer t (val src : value) :
  keepsSlot P id' (@applyTransformer W t val src).
Proof. destruct t; [apply keepsSlot_liftWorld | apply keepsSlot_ret]. Qed.

Lemma keepsSlot_bind {A B} (c : M A) (k : A -> M B) :
  preserving c -> keepsSlot P id' c -> (forall a, keepsSlot P id' (k a)) ->
  keepsSlot P id' (bind c k).
Proof.
  intros Hpc Hc Hk rt o rt' HP H.
  apply bind_inv in H as [(e & H & _)|(a & rt1 & H1 & H2)].
  - by apply Hc in H.
  - rewrite (Hk a rt1 o rt' (P_sameRegistry _ _ (Hpc _ _ _ H1) HP) H2).
    by apply Hc in H1.
Qed.

(** The continuation of a member read is asked only for what was read. *)
Lemma keepsSlot_bind_liftOutcome {A B} (r : outcome A) (k : A -> M B) :
  (forall a, r = Ret a -> keepsSlot P id' (k a)) ->
  keepsSlot P id' (bind (liftOutcome r) k).
Proof.
  intros Hk rt o rt' HP. unfold bind, liftOutcome.
  destruct r as [a|e]; [by apply Hk | by intros [= _ <-]].
Qed.

Lemma keepsSlot_tryCatch {A} (c : M A) (wrap : jsError -> jsError) :
  keepsSlot P id' c -> keepsSlot P id' (tryCatch c wrap).
Proof.
  intros Hc rt o rt' HP. unfold tryCatch.
  destruct (c rt) as [[[a|e] rt1]|] eqn:H; [| |done];
    intros [= _ <-]; by apply Hc in H.
Qed.

Lemma keepsSlot_mapItems (f : value -> M value) items :
  (forall it, preserving (f it)) ->
  (forall it, In it items -> keepsSlot P id' (f it)) ->
  keepsSlot P id' (mapItems f items).
Proof.
  intros Hp. induction items as [|it r IH]; simpl; intros Hf.
  - apply keepsSlot_ret.
  - apply keepsSlot_bind; [apply Hp | apply Hf; by left |]. intros y.
    apply keepsSlot_bind; [by apply preserving_mapItems | apply IH; auto |].
    intros ys. apply keepsSlot_ret.
Qed.

Lemma keepsSlot_compiledFor entry : keepsSlot P id' (compiledFor entry).
Proof.
  intros rt o rt' _. unfold compiledFor, bind, getMapper.
  destruct (compiledMapFns _ !! _); by intros [= _ <-].
Qed.

Lemma keepsSlot_storeResult entry (sourceObj : value) destinationClass (result : value) :
  identityOf sourceObj <> Some id' ->
  keepsSlot P id' (storeResult entry sourceObj destinationClass result).
Proof.
  intros Hid rt o rt' _. unfold storeResult, bind, getMapper.
  destruct (isCacheEnabled _ _); [|by intros [= _ <-]].
  destruct (identityOf sourceObj) as [id|]; [|by intros [= _ <-]].
  intros [= _ <-]. simpl. apply lookup_insert_ne. congruence.
Qed.

(** What the closures may pass to [this.map]: nothing, or the parts of the
    object they run on, none of which has the identity [id']. *)
Definition nestedApart (mapNested : value -> ClassType -> M value) (src : value) : Prop :=
  noNestedTypes meta
  \/ (apartFrom id' src
      /\ forall it c, apartFrom id' it -> keepsSlot P id' (mapNested it c)).

Lemma keepsSlot_decoratorField mapNested entry src destKey dest :
  (forall it c, preserving (mapNested it c)) ->
  nestedApart mapNested src ->
  keepsSlot P id' (decoratorField meta mapNested mapItems entry src destKey dest).
Proof.
  intros Hp Hn. unfold decoratorField.
  destruct (_ || _); [apply keepsSlot_ret|].
  destruct (truthyPath _).
  { apply keepsSlot_bind;
      [apply preserving_applyTransformer | apply keepsSlot_applyTransformer |].
    intros v. apply keepsSlot_ret. }
  destruct (nestedTypeFactory _ _ _) as [nestedType|] eqn:Hfactory.
  - destruct Hn as [Hnone|[Hsrc Hn]]; [by rewrite Hnone in Hfactory|].
    apply keepsSlot_bind_liftOutcome. intros nestedVal Hget.
    pose proof (apartFrom_member _ _ _ _ Hget Hsrc) as Hval.
    destruct nestedVal as [| |b|z|s|i t|i items|i c ps]; try apply keepsSlot_ret;
      try (apply keepsSlot_bind; [apply Hp | by apply Hn | intros v; apply keepsSlot_ret]).
    apply keepsSlot_bind; [apply preserving_liftAlloc | apply keepsSlot_liftAlloc |].
    intros i'.
    apply keepsSlot_bind; [|  | intros vs; apply keepsSlot_ret].
    + apply preserving_mapItems. intros it. apply Hp.
    + apply keepsSlot_mapItems; [intros it; apply Hp|].
      intros it Hit. apply Hn. by eapply apartFrom_item.
  - apply keepsSlot_bind_liftOutcome. intros [|] _; [|apply keepsSlot_ret].
    apply keepsSlot_bind_liftOutcome. intros val _.
    apply keepsSlot_bind;
      [apply preserving_applyTransformer | apply keepsSlot_applyTransformer |].
    intros v. apply keepsSlot_ret.
Qed.

Lemma keepsSlot_decoratorMappings mapNested entry src keys dest :
  (forall it c, preserving (mapNested it c)) ->
  nestedApart mapNested src ->
  keepsSlot P id' (decoratorMappings meta mapNested mapItems entry src keys dest).
Proof.
  intros Hp Hn. revert dest. induction keys as [|k r IH]; simpl; intros dest.
  - apply keepsSlot_ret.
  - apply keepsSlot_bind; [|by apply keepsSlot_decoratorField | auto].
    apply preserving_decoratorField; [done|]. intros f items. apply preserving_mapItems.
Qed.

Lemma keepsSlot_compiledFn mapNested entry src :
  (forall it c, preserving (mapNested it c)) ->
  nestedApart mapNested src ->
  keepsSlot P id' (compiledFn meta mapNested mapItems entry src).
Proof.
  intros Hp Hn. unfold compiledFn.
  apply keepsSlot_bind; [apply preserving_liftAlloc | apply keepsSlot_liftAlloc |].
  intros id.
  apply keepsSlot_bind; [apply preserving_liftAlloc | apply keepsSlot_liftAlloc |].
  intros copied.
  apply keepsSlot_bind; [apply preserving_liftWorld | apply keepsSlot_liftWorld |].
  intros applied.
  apply keepsSlot_bind; [|by apply keepsSlot_decoratorMappings | intros; apply keepsSlot_ret].
  apply preserving_decoratorMappings; [done|]. intros f items. apply preserving_mapItems.
Qed.

(** The body of the [try] block writes the slot of [sourceObj] only.  With a
    [beforeMap] hook the closure runs on what the hook returned, so the
    nested calls are bounded only where there are none. *)
Lemma keepsSlot_mapAttempt mapNested entry sourceObj destinationClass :
  (forall it c, preserving (mapNested it c)) ->
  identityOf sourceObj <> Some id' ->
  noNestedTypes meta
  \/ (beforeMap (options entry) = None /\ nestedApart mapNested sourceObj) ->
  keepsSlot P id' (mapAttempt meta mapNested entry sourceObj destinationClass).
Proof.
  intros Hp Hid Hn rt o rt'. rewrite mapAttempt_split. revert rt o rt'.
  apply keepsSlot_bind; [by apply preserving_mapCompute | |].
  - unfold mapCompute.
    assert (forall src, nestedApart mapNested src ->
              keepsSlot P id'
                (compiled <- compiledFor entry ;;
                 result <- compiledFn meta mapNested mapItems compiled src ;;
                 match afterMap (options entry) with
                 | Some hook => liftWorld (hook result VUndefined)
                 | None => ret result
                 end)) as Hrest.
    { intros src Hsrc.
      apply keepsSlot_bind; [apply preserving_compiledFor | apply keepsSlot_compiledFor |].
      intros compiled. apply keepsSlot_bind.
      - apply preserving_compiledFn; [done|]. intros f items. apply preserving_mapItems.
      - by apply keepsSlot_compiledFn.
      - intros result.
        destruct (afterMap _); [apply keepsSlot_liftWorld | apply keepsSlot_ret]. }
    destruct Hn as [Hnone|[Hhook Hn]].
    + apply keepsSlot_bind; [| |intros src; apply Hrest; by left].
      * destruct (beforeMap _); [|auto with frame].
        apply preserving_bind; [|auto with frame].
        destruct (isTrue _); auto with frame.
      * destruct (beforeMap _); [|apply keepsSlot_ret].
        apply keepsSlot_bind; [| |intros arg; apply keepsSlot_liftWorld];
          destruct (isTrue _); auto with frame;
          [apply keepsSlot_liftAlloc | apply keepsSlot_ret].
    + rewrite Hhook. intros rt o rt' HP H. by apply (Hrest sourceObj Hn rt o rt' HP).
  - intros result.
    apply keepsSlot_bind;
      [apply preserving_storeResult | by apply keepsSlot_storeResult |].
    intros []. apply keepsSlot_ret.
Qed.

Lemma keepsSlot_mapBody mapNested sourceObj destinationClass o :
  (forall it c, preserving (mapNested it c)) ->
  identityOf sourceObj <> Some id' ->
  noNestedTypes meta
  \/ ((forall m, P m -> noBeforeHooks m) /\ nestedApart mapNested sourceObj) ->
  keepsSlot P id' (mapBody meta mapNested sourceObj destinationClass o).
Proof.
  intros Hp Hid Hn rt out rt' HP. unfold mapBody.
  destruct (constructorOf sourceObj) as [sourceCtor|]; [|by intros [= _ <-]].
  unfold bind at 1. unfold getMapper.
  destruct (findEntry _ _ _) as [entry|] eqn:Hfind; [|by intros [= _ <-]].
  destruct (cachedResult _ _ _ _); [by intros [= _ <-]|].
  apply keepsSlot_tryCatch; [|done].
  apply keepsSlot_mapAttempt; [done..|].
  destruct Hn as [Hnone|[Hhooks Hn]]; [by left|right].
  split; [|done]. by eapply (Hhooks _ HP).
Qed.

End Slots.

(** Where no closure calls [map], a call writes no slot but its own. *)
Lemma keepsSlot_map_flat id' fuel (a : value) destinationClass o :
  noNestedTypes meta ->
  identityOf a <> Some id' ->
  keepsSlot (fun _ => True) id' (map meta fuel a destinationClass o).
Proof.
  intros Hnone Hid. destruct fuel as [|fuel]; [by intros rt ? ?|].
  simpl. apply keepsSlot_mapBody; [done | | done | by left].
  intros it c. apply preserving_map.
Qed.

(** Without [beforeMap] hooks a call writes the slots of the object it is
    given and of its parts only. *)
Lemma keepsSlot_map_deep id' fuel (a : value) destinationClass o :
  apartFrom id' a ->
  keepsSlot noBeforeHooks id' (map meta fuel a destinationClass o).
Proof.
  revert a destinationClass o.
  induction fuel as [|fuel IH]; intros a destinationClass o Ha; [by intros rt ? ?|].
  simpl. apply keepsSlot_mapBody.
  - apply noBeforeHooks_sameRegistry.
  - intros it c. apply preserving_map.
  - by apply apartFrom_identity.
  - right. split; [done|]. right. split; [done|]. intros it c Hit. by apply IH.
Qed.

Lemma separate_keeps_slot fuel (a : value) destinationClass o rt out rt' id' :
  separate meta (rt_mapper rt) a id' ->
  map meta fuel a destinationClass o rt = Some (out, rt') ->
  instanceCache (rt_mapper rt') !! id' = instanceCache (rt_mapper rt) !! id'.
Proof.
  intros [Hid [Hnone|[Hhooks Ha]]] Hmap.
  - by apply (keepsSlot_map_flat id' fuel a destinationClass o Hnone Hid rt out rt').
  - by apply (keepsSlot_map_deep id' fuel a destinationClass o Ha rt out rt').
Qed.

(** C3: the instance cache is keyed by the identity of the source object.
    When caching is active for the entry and [map(a, B)] has returned [r],
    every further [map(a, B)] returns the same [r] and leaves the runtime as
    it is: no hook and no field function runs, the world is unchanged.
    Another object [a'] of the same class, for which the cache held nothing
    for [B] before that call, is not answered from the cache after it,
    however equal to [a] its fields are: the call runs the hooks and the
    compiled closure.  This for an [a'] that the first call did not itself
    map as a nested value: no field has a nested type, or no mapping has a
    [beforeMap] hook and [a'] is no part of [a]. *)
Theorem instance_cache_keyed_by_identity fuel (a : value) (B : ClassType) o rt
    sourceCtor entry (r : value) rt1 :
  constructorOf a = Some sourceCtor ->
  findEntry (rt_mapper rt) sourceCtor (cls_ctor B) = Some entry ->
  isCacheEnabled (rt_mapper rt) entry = true ->
  map meta fuel a B o rt = Some (Ret r, rt1) ->
  truthy r = true ->
  (forall fuel' o', map meta (S fuel') a B o' rt1 = Some (Ret r, rt1))
  /\ (forall (a' : value) id' fuel' o',
        constructorOf a' = Some sourceCtor ->
        identityOf a' = Some id' ->
        separate meta (rt_mapper rt) a id' ->
        cacheEntry (rt_mapper rt) id' (cls_ctor B) = None ->
        map meta (S fuel') a' B o' rt1
        = tryCatch
            (mapAttempt meta (fun it nestedType => map meta fuel' it nestedType None)
               entry a' B)
            (fun error =>
               createMappingError (ctor_name sourceCtor) (ctor_name (cls_ctor B))
                 "Mapping failed" (Some error))
            rt1).
Proof.
  intros Hctor Hfind Hcache Hmap Htruthy.
  pose proof (preserving_map _ _ _ _ _ _ _ Hmap) as Hsame.
  assert (findEntry (rt_mapper rt1) sourceCtor (cls_ctor B) = Some entry) as Hfind1
    by (by rewrite (sameRegistry_findEntry _ _ _ _ Hsame)).
  split.
  - intros fuel' o'. simpl. unfold mapBody. rewrite Hctor.
    unfold bind at 1. unfold getMapper. rewrite Hfind1.
    enough (cachedResult (rt_mapper rt1) entry a B = Some r) as -> by done.
    destruct fuel as [|fuel]; [done|].
    simpl in Hmap. unfold mapBody in Hmap. rewrite Hctor in Hmap.
    unfold bind at 1 in Hmap. unfold getMapper in Hmap. rewrite Hfind in Hmap.
    destruct (cachedResult (rt_mapper rt) entry a B) as [c|] eqn:Hhit.
    + by injection Hmap as -> ->.
    + unfold tryCatch in Hmap.
      destruct (mapAttempt _ _ _ _ _ rt) as [[[r0|e] rt0]|] eqn:Hattempt; [|done|done].
      injection Hmap as -> ->.
      rewrite mapAttempt_split in Hattempt.
      apply bind_Ret_inv in Hattempt as (result & rtX & Hcompute & Hstore).
      apply bind_Ret_inv in Hstore as ([] & rtY & Hstore & Hret).
      injection Hret as -> ->.
      assert (isCacheEnabled (rt_mapper rtX) entry = true) as HcacheX.
      { rewrite (sameRegistry_isCacheEnabled (rt_mapper rt)); [done|].
        eapply preserving_mapCompute; [|exact Hcompute].
        intros it c. apply preserving_map. }
      unfold storeResult, bind, getMapper in Hstore. rewrite HcacheX in Hstore.
      destruct (identityOf a) as [id|] eqn:Hid; [|done].
      injection Hstore as <-.
      unfold cachedResult. simpl.
      replace (isCacheEnabled _ entry) with true
        by (symmetry; unfold isCacheEnabled in *; exact HcacheX).
      by rewrite Hid, !lookup_insert_eq, Htruthy.
  - intros a' id' fuel' o' Hctor' Hid' Hsep Hmiss. simpl. unfold mapBody. rewrite Hctor'.
    unfold bind at 1. unfold getMapper. rewrite Hfind1.
    rewrite (cachedResult_miss _ _ _ _ id' Hid'); [done|].
    unfold cacheEntry in *.
    by rewrite (separate_keeps_slot _ _ _ _ _ _ _ _ Hsep Hmap).
Qed.

End Frame.

Lemma instance_cache_keyed_by_identity_witness :
  let r := VObj 1000 (cls_ctor Samples.Target) [("name", VStr "JOHN"); ("age", VNum 30)] in
  let rt1 := mkRuntime
               (setInstanceCache Samples.cachedMapper
                  (<[100 := <[cls_ctor Samples.Target := r]> ∅]> ∅)) 1 1001 in
  map noMetadata 1 Samples.john Samples.Target None rt1 = Some (Ret r, rt1)
  /\ exists rt2,
       map noMetadata 1 Samples.johnTwin Samples.Target None rt1
       = Some (Ret (VObj 1001 (cls_ctor Samples.Target)
                      [("name", VStr "JOHN"); ("age", VNum 30)]), rt2)
       /\ rt_world rt2 = 2.
Proof.
  intros r rt1.
  destruct (instance_cache_keyed_by_identity noMetadata 1 Samples.john Samples.Target None
              (mkRuntime Samples.cachedMapper 0 1000) (cls_ctor Samples.Source)
              (mkEntry Samples.Source Samples.Target (Some [("name", Samples.shout)])
                 (mergeOptions noOptions noOptions))
              r rt1) as [Hsame Hother].
  - reflexivity.
  - reflexivity.
  - reflexivity.
  - vm_compute. reflexivity.
  - reflexivity.
  - split; [apply Hsame|].
    rewrite (Hother Samples.johnTwin 200 0 None); [|reflexivity..| |reflexivity].
    + eexists. vm_compute. split; reflexivity.
    + split; [discriminate|]. left. intros c k. reflexivity.
Defined.

(** ** Reverse maps *)

Section Reverse.
Context {W : Type} (meta : @MetadataProvider W).
Implicit Types (cfg acc : @MappingConfig W) (fn : @MapperFunction W).

Lemma reverseConfig_lookup cfg acc key rf :
  lookupProp key (reverseConfig cfg acc) = Some rf ->
  (exists destKey fn, In (destKey, fn) cfg /\ reverseKey destKey fn = key
                      /\ rf = readKey destKey)
  \/ lookupProp key acc = Some rf.
Proof.
  revert acc. induction cfg as [|[dk fn] r IH]; simpl; intros acc H; [by right|].
  apply IH in H as [(dk' & fn' & Hin & Hk & Hrf)|H].
  - left. exists dk', fn'. auto.
  - fold (reverseKey dk fn) in H.
    destruct (decide (reverseKey dk fn = key)) as [<-|Hne].
    + rewrite lookupProp_assign_eq in H. injection H as <-.
      left. exists dk, fn. auto.
    + rewrite lookupProp_assign_ne in H by done. by right.
Qed.

Lemma reverseConfig_keeps_keys cfg acc key :
  hasKey key acc = true -> hasKey key (reverseConfig cfg acc) = true.
Proof.
  revert acc. induction cfg as [|[dk fn] r IH]; simpl; intros acc H; [done|].
  apply IH. fold (reverseKey dk fn).
  destruct (decide (reverseKey dk fn = key)) as [<-|Hne].
  - apply hasKey_assign_eq.
  - by rewrite hasKey_assign_ne.
Qed.

Lemma reverseConfig_has cfg acc destKey fn :
  In (destKey, fn) cfg -> hasKey (reverseKey destKey fn) (reverseConfig cfg acc) = true.
Proof.
  revert acc. induction cfg as [|[dk f0] r IH]; simpl; intros acc Hin; [done|].
  destruct Hin as [[= -> ->]|Hin]; [|by apply IH].
  apply reverseConfig_keeps_keys. fold (reverseKey destKey fn). apply hasKey_assign_eq.
Qed.

Lemma reverseConfig_NoDup cfg acc :
  NoDup (List.map fst acc) -> NoDup (List.map fst (reverseConfig cfg acc)).
Proof.
  revert acc. induction cfg as [|[dk fn] r IH]; simpl; intros acc H; [done|].
  by apply IH, assignProp_NoDup.
Qed.

Lemma reverseKey_mapFrom destKey (sourcePath : string) :
  sourcePath <> "" -> reverseKey destKey (@mapFrom W sourcePath) = sourcePath.
Proof. intros H. unfold reverseKey. simpl. by destruct (String.eqb_spec sourcePath ""). Qed.

(** What [createReverseMap] derives, and the round trip of the two
    closures.  Every reverse function reads one forward destination key off
    its argument; it is registered under the source path of the forward
    function when that path passes [if (sourcePath)], and under the same
    destination key otherwise (an arbitrary transform is copied back, not
    inverted).  When every forward function is [mapFrom] of a non-empty field
    name, the closure of the reverse entry, run on what the forward closure
    returned, gives each copied source field its value back. *)
Lemma reverse_closures_roundtrip mapNested mapArray mapNested' mapArray'
    (m : @Mapper W) (S D : ClassType) fwd cfg m' :
  findEntry m (cls_ctor S) (cls_ctor D) = Some fwd ->
  config fwd = Some cfg ->
  createReverseMap m S D = Ret m' ->
  exists rev,
    findEntry m' (cls_ctor D) (cls_ctor S) = Some rev
    /\ source rev = D /\ destination rev = S
    /\ (forall key rf, lookupProp key (configOf rev) = Some rf ->
          exists destKey fn,
            In (destKey, fn) cfg /\ reverseKey destKey fn = key /\ rf = readKey destKey)
    /\ (forall destKey fn, In (destKey, fn) cfg ->
          hasKey (reverseKey destKey fn) (configOf rev) = true)
    /\ (NoDup (List.map fst cfg) ->
        (forall destKey fn, In (destKey, fn) cfg ->
           exists sourcePath, sourcePath <> "" /\ fn = mapFrom sourcePath) ->
        forall (s d s' : value) rt rt1 rt2 rt3 destKey sourcePath (v : value),
          compiledFn meta mapNested mapArray fwd s rt = Some (Ret d, rt1) ->
          compiledFn meta mapNested' mapArray' rev d rt2 = Some (Ret s', rt3) ->
          In (destKey, mapFrom sourcePath) cfg ->
          getMember s sourcePath = Ret v ->
          suppressed (options fwd) v = false ->
          suppressed (options rev) v = false ->
          exists id fields,
            s' = VObj id (cls_ctor S) fields /\ lookupProp sourcePath fields = Some v).
Proof.
  intros Hfind Hcfg Hrev.
  unfold createReverseMap in Hrev. rewrite Hfind, Hcfg in Hrev. injection Hrev as <-.
  eexists. split.
  { rewrite findEntry_after_createMap. by rewrite decide_True. }
  unfold configOf. simpl.
  split; [done|]. split; [done|]. split; [|split].
  - intros key rf H. apply reverseConfig_lookup in H as [H|H]; [done | discriminate].
  - intros destKey fn Hin. by apply reverseConfig_has.
  - intros Hnd Hall s d s' rt rt1 rt2 rt3 destKey sourcePath v Hfwd Hback Hin Hv Hs Hs'.
    destruct (Hall _ _ Hin) as (sp & Hne & Heq).
    assert (sp = sourcePath) as -> by (by injection Heq).
    (* the reverse function registered under the source path *)
    pose proof (reverseConfig_has cfg [] _ _ Hin) as Hhas.
    rewrite reverseKey_mapFrom in Hhas by done.
    unfold hasKey in Hhas.
    destruct (lookupProp sourcePath (reverseConfig cfg [])) as [rf|] eqn:Hrf; [|done].
    destruct (reverseConfig_lookup _ _ _ _ Hrf) as [(dk' & fn' & Hin' & Hkey & ->)|?];
      [|discriminate].
    destruct (Hall _ _ Hin') as (sp' & Hne' & ->).
    rewrite reverseKey_mapFrom in Hkey by done. subst sp'.
    (* the forward closure left [v] at the key that function reads *)
    destruct (compiledFn_assigns meta mapNested mapArray fwd s cfg dk'
                (mapFrom sourcePath) v rt d rt1) as (idd & dfields & -> & Hd); auto.
    (* so the reverse closure assigns [v] to the source path *)
    destruct (compiledFn_assigns meta mapNested' mapArray'
                (mkEntry D S (Some (reverseConfig cfg []))
                   (mergeOptions (globalOptions m) (default noOptions (Some (options fwd)))))
                (VObj idd (cls_ctor (destination fwd)) dfields)
                (reverseConfig cfg []) sourcePath (readKey dk') v rt2 s' rt3)
      as (ids & sfields & -> & Hs''); auto.
    + apply reverseConfig_NoDup. constructor.
    + by apply lookupProp_In.
    + intros w. simpl. unfold readProp. by rewrite Hd.
    + eauto.
Qed.

End Reverse.

(** C7: [createReverseMap] misses the source field whose name is the empty
    string.  [mapFrom] records the field name as [__sourcePath], and the
    reverse function is registered under it only when it passes
    [if (sourcePath)], which the empty name does not: the reverse function of
    [k: mapFrom("")] is registered under [k].  The forward map copies the
    field to [k]; mapping the result back leaves the field at the default [0]
    of a new [Odd] and adds a property [k].  For [Person], whose field names
    are not empty, the same calls give every field its value back. *)
Theorem reverse_map_misses_empty_field_name :
  (forall destKey sourcePath : string,
     reverseKey destKey (@mapFrom nat sourcePath)
     = if String.eqb sourcePath "" then destKey else sourcePath)
  /\ getMember Samples.odd "" = Ret (VNum 7)
  /\ (exists m' rt1 rt2,
        createReverseMap Samples.oddMapper Samples.Odd Samples.OddDto = Ret m'
        /\ List.map fst (reverseConfig [("k", @mapFrom nat "")] []) = ["k"]
        /\ map noMetadata 1 Samples.odd Samples.OddDto None (mkRuntime m' 0 1000)
           = Some (Ret (VObj 1000 (cls_ctor Samples.OddDto) [("k", VNum 7)]), rt1)
        /\ map noMetadata 1 (VObj 1000 (cls_ctor Samples.OddDto) [("k", VNum 7)])
             Samples.Odd None rt1
           = Some (Ret (VObj 1001 (cls_ctor Samples.Odd) [("", VNum 0); ("k", VNum 7)]),
                   rt2))
  /\ (exists m' rt1 rt2,
        createReverseMap Samples.personMapper Samples.Person Samples.PersonDto = Ret m'
        /\ map noMetadata 1 Samples.ann Samples.PersonDto None (mkRuntime m' 0 1000)
           = Some (Ret (VObj 1000 (cls_ctor Samples.PersonDto)
                          [("name", VStr "Ann Lee"); ("age", VNum 41)]), rt1)
        /\ map noMetadata 1
             (VObj 1000 (cls_ctor Samples.PersonDto)
                [("name", VStr "Ann Lee"); ("age", VNum 41)])
             Samples.Person None rt1
           = Some (Ret (VObj 1001 (cls_ctor Samples.Person)
                          [("fullName", VStr "Ann Lee"); ("age", VNum 41)]), rt2)).
Proof.
  split; [reflexivity|]. split; [reflexivity|]. split.
  - eexists _, _, _. split; [reflexivity|]. split; [reflexivity|].
    split; [vm_compute; reflexivity|]. vm_compute. reflexivity.
  - eexists _, _, _. split; [reflexivity|].
    split; [vm_compute; reflexivity|]. vm_compute. reflexivity.
Qed.

(** The reverse function for [fullName] reads the destination key [name]. *)
Example reverse_function_reads_destination_key :
  lookupProp "fullName" (reverseConfig Samples.personConfig [])
    = Some (@readKey nat "name")
  /\ call (@readKey nat "name")
       (VObj 1000 (cls_ctor Samples.PersonDto) [("name", VStr "Ann Lee"); ("age", VNum 41)]) 0
     = (Ret (VStr "Ann Lee"), 0).
Proof. split; reflexivity. Qed.

(** ** Scenarios *)

(** Identity field functions on matching fields. *)
Example scenario_basic :
  exists rt',
    map noMetadata 1 Samples.john Samples.Target None
      (mkRuntime
         (createMap (newMapper None) Samples.Source Samples.Target
            (Some [("name", mapFrom "name"); ("age", mapFrom "age")]) None) 0 1000)
    = Some (Ret (VObj 1000 (cls_ctor Samples.Target)
                   [("name", VStr "John"); ("age", VNum 30)]), rt').
Proof. eexists. vm_compute. reflexivity. Qed.

(** [skipUndefined] with a snake_case to camelCase conversion: [user_name]
    lands on [userName], the undefined [middle] is not copied. *)
Example scenario_skip_and_rename :
  copyProperties
    (@mkOptions nat None (Some true) None None None None None None None None
       (Some (Naming.snake_case, Naming.camelCase)))
    (VObj 140 (mkCtor 70 "Row") [("user_name", VStr "Ann"); ("middle", VUndefined)])
    ["user_name"; "middle"]
    [("userName", VNum 0); ("middle", VNum 0)] 0
  = (Ret [("userName", VStr "Ann"); ("middle", VNum 0)], 0).
Proof. reflexivity. Qed.

(** * Further properties *)

(** ** deepClone *)

(** Induction on values that reaches the elements of arrays and the values
    of properties. *)
Lemma value_nested_ind (P : value -> Prop) :
  P VUndefined -> P VNull ->
  (forall b, P (VBool b)) -> (forall n, P (VNum n)) -> (forall s, P (VStr s)) ->
  (forall id t, P (VDate id t)) ->
  (forall id items, Forall P items -> P (VArr id items)) ->
  (forall id c ps, Forall (fun kv => P (snd kv)) ps -> P (VObj id c ps)) ->
  forall v, P v.
Proof.
  intros Hu Hn Hb Hz Hs Hd Ha Ho.
  fix IH 1.
  intros [| |b|n|s|id t|id items|id c ps];
    [exact Hu | exact Hn | apply Hb | apply Hz | apply Hs | apply Hd | |].
  - apply Ha. induction items as [|x r IHr]; constructor; [apply IH | exact IHr].
  - apply Ho. induction ps as [|[k x] r IHr]; constructor; [apply IH | exact IHr].
Qed.

Lemma deepClone_array id items n :
  deepClone (VArr id items) n
  = let '(items', n') := cloneList deepClone items (S n) in (VArr n items', n').
Proof. reflexivity. Qed.

Lemma deepClone_object id c ps n :
  deepClone (VObj id c ps) n
  = let '(ps', n') := cloneProps deepClone ps (S n) in (VObj n ObjectCtor ps', n').
Proof. reflexivity. Qed.




Lemma cloneList_identities items :
  Forall (fun v => forall n,
            identities (fst (deepClone v n)) = seq n (snd (deepClone v n) - n)
            /\ n <= snd (deepClone v n)) items ->
  forall n,
    List.concat (List.map identities (fst (cloneList deepClone items n)))
    = seq n (snd (cloneList deepClone items n) - n)
    /\ n <= snd (cloneList deepClone items n).
Proof.
  induction 1 as [|x r Hx _ IH]; intros n; simpl.
  - by rewrite Nat.sub_diag.
  - destruct (Hx n) as [Hids Hle]. destruct (deepClone x n) as [x' n1]. simpl in *.
    destruct (IH n1) as [Hids' Hle']. destruct (cloneList deepClone r n1) as [r' n2].
    simpl in *. rewrite Hids, Hids'. split; [|lia].
    replace (n2 - n) with ((n1 - n) + (n2 - n1)) by lia.
    rewrite seq_app. do 2 f_equal. lia.
Qed.

Lemma cloneProps_identities ps :
  Forall (fun kv => forall n,
            identities (fst (deepClone (snd kv) n))
            = seq n (snd (deepClone (snd kv) n) - n)
            /\ n <= snd (deepClone (snd kv) n)) ps ->
  forall n,
    List.concat (List.map (fun kv => identities (snd kv))
                   (fst (cloneProps deepClone ps n)))
    = seq n (snd (cloneProps deepClone ps n) - n)
    /\ n <= snd (cloneProps deepClone ps n).
Proof.
  induction 1 as [|[k x] r Hx _ IH]; intros n; simpl.
  - by rewrite Nat.sub_diag.
  - simpl in Hx. destruct (Hx n) as [Hids Hle]. destruct (deepClone x n) as [x' n1].
    simpl in *.
    destruct (IH n1) as [Hids' Hle']. destruct (cloneProps deepClone r n1) as [r' n2].
    simpl in *. rewrite Hids, Hids'. split; [|lia].
    replace (n2 - n) with ((n1 - n) + (n2 - n1)) by lia.
    rewrite seq_app. do 2 f_equal. lia.
Qed.

Lemma deepClone_identities_seq (v : value) (n : ref) :
  identities (fst (deepClone v n)) = seq n (snd (deepClone v n) - n)
  /\ n <= snd (deepClone v n).
Proof.
  revert n. induction v as [| |b|z|s|id t|id items IH|id c ps IH] using value_nested_ind;
    intros n; try (simpl; rewrite Nat.sub_diag; split; [reflexivity | lia]).
  - simpl. split; [|lia]. by replace (S n - n) with 1 by lia.
  - rewrite deepClone_array.
    destruct (cloneList_identities items IH (S n)) as [H Hle].
    destruct (cloneList deepClone items (S n)) as [items' n']. simpl in *.
    rewrite H. split; [|lia].
    replace (n' - n) with (S (n' - S n)) by lia. reflexivity.
  - rewrite deepClone_object.
    destruct (cloneProps_identities ps IH (S n)) as [H Hle].
    destruct (cloneProps deepClone ps (S n)) as [ps' n']. simpl in *.
    rewrite H. split; [|lia].
    replace (n' - n) with (S (n' - S n)) by lia. reflexivity.
Qed.

(** X2: a deep clone shares no object with anything allocated before it: the
    identities of the clone are exactly the fresh ones handed out during the
    call, each used once. *)
Theorem deepClone_fresh (v : value) (n : ref) :
  let '(clone, n') := deepClone v n in
  n <= n'
  /\ identities clone = seq n (n' - n)
  /\ NoDup (identities clone)
  /\ forall id, id ∈ identities clone -> n <= id < n'.
Proof.
  destruct (deepClone_identities_seq v n) as [Hids Hle].
  destruct (deepClone v n) as [clone n']. simpl in *.
  split; [done|]. split; [done|]. rewrite Hids. split.
  - apply NoDup_ListNoDup, seq_NoDup.
  - intros id Hid. apply list_elem_of_In, in_seq in Hid. lia.
Qed.

(** ** The naming converter *)

Section NamingProps.

Lemma append_cons (c : ascii) (r s : string) : String c r +:+ s = String c (r +:+ s).
Proof. reflexivity. Qed.

Lemma append_nil (s : string) : "" +:+ s = s.
Proof. reflexivity. Qed.

Lemma append_empty_r (s : string) : s +:+ "" = s.
Proof. induction s as [|c r IH]; [done | by rewrite append_cons, IH]. Qed.

Lemma append_assoc_str (a b c : string) : (a +:+ b) +:+ c = a +:+ (b +:+ c).
Proof. induction a as [|x r IH]; [done | by rewrite !append_cons, IH]. Qed.

Lemma splitChar_nonempty sep s : Naming.splitChar sep s <> [].
Proof.
  destruct s as [|c r]; simpl; [done|].
  destruct (Ascii.eqb c sep); [done|].
  unfold Naming.consHead. by destruct (Naming.splitChar sep r).
Qed.

Lemma join_consHead sep c ws :
  ws <> [] -> Naming.join sep (Naming.consHead c ws) = String c (Naming.join sep ws).
Proof. destruct ws as [|w [|w' r]]; simpl; done. Qed.

Lemma join_cons_empty sep ws :
  ws <> [] -> Naming.join sep (EmptyString :: ws) = sep +:+ Naming.join sep ws.
Proof. destruct ws as [|w r]; simpl; done. Qed.

(** Splitting at a character and joining with another replaces the one by
    the other. *)
Lemma join_splitChar (a b : ascii) (s : string) :
  Naming.join (String b EmptyString) (Naming.splitChar a s) = replaceChar a b s.
Proof.
  induction s as [|c r IH]; simpl; [done|].
  destruct (Ascii.eqb c a).
  - rewrite join_cons_empty by apply splitChar_nonempty.
    by rewrite append_cons, append_nil, IH.
  - rewrite join_consHead by apply splitChar_nonempty. by rewrite IH.
Qed.

Lemma replaceChar_same (a : ascii) (s : string) : replaceChar a a s = s.
Proof.
  induction s as [|c r IH]; simpl; [done|]. rewrite IH.
  by destruct (Ascii.eqb_spec c a) as [->|].
Qed.

Lemma map_toLowerCase_consHead c ws :
  List.map Naming.toLowerCase (Naming.consHead c ws)
  = Naming.consHead (Naming.lowerChar c) (List.map Naming.toLowerCase ws).
Proof. by destruct ws. Qed.

Lemma toLowerCase_splitChar (sep : ascii) (s : string) :
  (forall c, Ascii.eqb (Naming.lowerChar c) sep = Ascii.eqb c sep) ->
  List.map Naming.toLowerCase (Naming.splitChar sep s)
  = Naming.splitChar sep (Naming.toLowerCase s).
Proof.
  intros Hsep. induction s as [|c r IH]; simpl; [done|].
  rewrite Hsep. destruct (Ascii.eqb c sep); simpl.
  - by rewrite IH.
  - by rewrite map_toLowerCase_consHead, IH.
Qed.

Lemma lowerChar_underscore c :
  Ascii.eqb (Naming.lowerChar c) "_" = Ascii.eqb c "_".
Proof. destruct c as [[] [] [] [] [] [] [] []]; reflexivity. Qed.

Lemma lowerChar_hyphen c :
  Ascii.eqb (Naming.lowerChar c) "-" = Ascii.eqb c "-".
Proof. destruct c as [[] [] [] [] [] [] [] []]; reflexivity. Qed.

Lemma convert_separator_styles (name : string) :
  Naming.convertNamingConvention name Naming.snake_case Naming.kebab_case
    = Ret (replaceChar "_" "-" (Naming.toLowerCase name))
  /\ Naming.convertNamingConvention name Naming.kebab_case Naming.snake_case
    = Ret (replaceChar "-" "_" (Naming.toLowerCase name))
  /\ Naming.convertNamingConvention name Naming.snake_case Naming.snake_case
    = Ret (Naming.toLowerCase name)
  /\ Naming.convertNamingConvention name Naming.kebab_case Naming.kebab_case
    = Ret (Naming.toLowerCase name).
Proof.
  unfold Naming.convertNamingConvention, Naming.splitWords.
  rewrite !toLowerCase_splitChar by (apply lowerChar_underscore || apply lowerChar_hyphen).
  rewrite !join_splitChar, !replaceChar_same. done.
Qed.

(** X3: on a name of ASCII characters, between the two separator styles the
    converter lower-cases the name and replaces the separator; converting a
    style to itself is therefore not the identity but the lower-casing of
    the name. *)
Theorem convert_between_separator_styles (name : string) :
  allChars isAscii name = true ->
  Naming.convertNamingConvention name Naming.snake_case Naming.kebab_case
    = Ret (replaceChar "_" "-" (Naming.toLowerCase name))
  /\ Naming.convertNamingConvention name Naming.kebab_case Naming.snake_case
    = Ret (replaceChar "-" "_" (Naming.toLowerCase name))
  /\ Naming.convertNamingConvention name Naming.snake_case Naming.snake_case
    = Ret (Naming.toLowerCase name)
  /\ Naming.convertNamingConvention name Naming.kebab_case Naming.kebab_case
    = Ret (Naming.toLowerCase name).
Proof. intros _. apply convert_separator_styles. Qed.

Lemma convert_between_separator_styles_witness :
  Naming.convertNamingConvention "User_First_NAME" Naming.snake_case Naming.kebab_case
    = Ret "user-first-name"
  /\ Naming.convertNamingConvention "User_First_NAME" Naming.kebab_case Naming.snake_case
    = Ret "user_first_name"
  /\ Naming.convertNamingConvention "User_First_NAME" Naming.snake_case Naming.snake_case
    = Ret "user_first_name"
  /\ Naming.convertNamingConvention "User_First_NAME" Naming.kebab_case Naming.kebab_case
    = Ret "user_first_name".
Proof. apply (convert_between_separator_styles "User_First_NAME"). reflexivity. Defined.





(** *** From snake_case to camelCase and back *)

Lemma lower_letter_facts c :
  Naming.isLower c = true ->
  plainChar c = true
  /\ Naming.isUpper (Naming.upperChar c) = true
  /\ notSep (Naming.upperChar c) = true
  /\ Naming.lowerChar (Naming.upperChar c) = c.
Proof.
  destruct c as [[] [] [] [] [] [] [] []]; intros H; vm_compute in H;
    try discriminate H; vm_compute; done.
Qed.

Lemma plainChar_facts c :
  plainChar c = true ->
  Naming.isUpper c = false
  /\ notSep c = true
  /\ Naming.lowerChar c = c
  /\ Ascii.eqb c "_" = false.
Proof.
  destruct c as [[] [] [] [] [] [] [] []]; intros H; vm_compute in H;
    try discriminate H; vm_compute; done.
Qed.

Lemma allChars_impl (p q : ascii -> bool) s :
  (forall c, p c = true -> q c = true) -> allChars p s = true -> allChars q s = true.
Proof.
  intros Hpq. induction s as [|c r IH]; simpl; [done|].
  intros [Hc Hr]%andb_prop. rewrite (Hpq c Hc). by apply IH.
Qed.

Lemma snakeWord_inv w :
  snakeWord w = true ->
  exists c r, w = String c r /\ Naming.isLower c = true /\ allChars plainChar r = true.
Proof.
  destruct w as [|c r]; simpl; [done|]. intros [Hc Hr]%andb_prop. by exists c, r.
Qed.

Lemma snakeWord_plain w : snakeWord w = true -> allChars plainChar w = true.
Proof.
  intros (c & r & -> & Hc & Hr)%snakeWord_inv. simpl.
  by rewrite (proj1 (lower_letter_facts c Hc)).
Qed.

Lemma plain_notSep w : allChars plainChar w = true -> allChars notSep w = true.
Proof. apply allChars_impl. intros c Hc. apply (plainChar_facts c Hc). Qed.

Lemma capitalized_notSep w : snakeWord w = true -> allChars notSep (capitalized w) = true.
Proof.
  intros (c & r & -> & Hc & Hr)%snakeWord_inv. simpl.
  destruct (lower_letter_facts c Hc) as (_ & _ & -> & _). by apply plain_notSep.
Qed.

Lemma toLowerCase_plain w : allChars plainChar w = true -> Naming.toLowerCase w = w.
Proof.
  induction w as [|c r IH]; simpl; [done|]. intros [Hc Hr]%andb_prop.
  destruct (plainChar_facts c Hc) as (_ & _ & -> & _). by rewrite IH.
Qed.

Lemma toLowerCase_capitalized w :
  snakeWord w = true -> Naming.toLowerCase (capitalized w) = w.
Proof.
  intros (c & r & -> & Hc & Hr)%snakeWord_inv. simpl.
  destruct (lower_letter_facts c Hc) as (_ & _ & _ & ->). by rewrite toLowerCase_plain.
Qed.

Lemma spaceBeforeUpper_app a b :
  Naming.spaceBeforeUpper (a +:+ b)
  = Naming.spaceBeforeUpper a +:+ Naming.spaceBeforeUpper b.
Proof.
  induction a as [|c r IH]; [done|]. rewrite append_cons. simpl.
  destruct (Naming.isUpper c); by rewrite !append_cons, IH.
Qed.

Lemma spaceBeforeUpper_plain w :
  allChars plainChar w = true -> Naming.spaceBeforeUpper w = w.
Proof.
  induction w as [|c r IH]; simpl; [done|]. intros [Hc Hr]%andb_prop.
  destruct (plainChar_facts c Hc) as (-> & _). by rewrite IH.
Qed.

Lemma spaceBeforeUpper_capitalized w :
  snakeWord w = true ->
  Naming.spaceBeforeUpper (capitalized w) = String " " (capitalized w).
Proof.
  intros (c & r & -> & Hc & Hr)%snakeWord_inv. simpl.
  destruct (lower_letter_facts c Hc) as (_ & -> & _). by rewrite spaceBeforeUpper_plain.
Qed.

Lemma spaceBeforeUpper_concat ws :
  Forall (fun x => snakeWord x = true) ws ->
  Naming.spaceBeforeUpper (concatStrings (List.map capitalized ws))
  = concatStrings (List.map (fun x => String " " (capitalized x)) ws).
Proof.
  induction 1 as [|x r Hx _ IH]; simpl; [done|].
  by rewrite spaceBeforeUpper_app, spaceBeforeUpper_capitalized, IH.
Qed.

Lemma splitChar_word w :
  allChars plainChar w = true -> Naming.splitChar "_" w = [w].
Proof.
  induction w as [|c r IH]; simpl; [done|]. intros [Hc Hr]%andb_prop.
  destruct (plainChar_facts c Hc) as (_ & _ & _ & ->). by rewrite IH.
Qed.

Lemma splitChar_word_app w t :
  allChars plainChar w = true ->
  Naming.splitChar "_" (w +:+ String "_" t) = w :: Naming.splitChar "_" t.
Proof.
  induction w as [|c r IH]; [done|]. intros [Hc Hr]%andb_prop.
  rewrite append_cons. simpl.
  destruct (plainChar_facts c Hc) as (_ & _ & _ & ->). by rewrite IH.
Qed.

Lemma splitChar_join w ws :
  Forall (fun x => snakeWord x = true) (w :: ws) ->
  Naming.splitChar "_" (Naming.join "_" (w :: ws)) = w :: ws.
Proof.
  revert w. induction ws as [|w' r IH]; intros w Hall.
  - apply splitChar_word, snakeWord_plain. by inversion Hall.
  - inversion Hall as [|? ? Hw Hrest]; subst.
    change (Naming.join "_" (w :: w' :: r))
      with (w +:+ String "_" (Naming.join "_" (w' :: r))).
    rewrite splitChar_word_app by by apply snakeWord_plain. by rewrite IH.
Qed.

Lemma splitRuns_word w :
  allChars notSep w = true -> Naming.splitRuns Naming.isSpaceOrUnderscore w = [w].
Proof.
  induction w as [|c r IH]; simpl; [done|]. intros [Hc Hr]%andb_prop.
  unfold notSep in Hc. apply negb_true_iff in Hc. by rewrite Hc, IH.
Qed.

Lemma splitRuns_word_space w t :
  allChars notSep w = true ->
  Naming.startsWithSep Naming.isSpaceOrUnderscore t = false ->
  Naming.splitRuns Naming.isSpaceOrUnderscore (w +:+ String " " t)
  = w :: Naming.splitRuns Naming.isSpaceOrUnderscore t.
Proof.
  intros Hw Ht. induction w as [|c r IH].
  - rewrite append_nil. simpl.
    change (Naming.isSpaceOrUnderscore " ") with true. by rewrite Ht.
  - apply andb_prop in Hw as [Hc Hr]. rewrite append_cons. simpl.
    unfold notSep in Hc. apply negb_true_iff in Hc. by rewrite Hc, IH.
Qed.

Lemma splitRuns_spaced w ws :
  allChars notSep w = true ->
  Forall (fun x => snakeWord x = true) ws ->
  Naming.splitRuns Naming.isSpaceOrUnderscore
    (w +:+ concatStrings (List.map (fun x => String " " (capitalized x)) ws))
  = w :: List.map capitalized ws.
Proof.
  intros Hw Hall. revert w Hw. induction Hall as [|x r Hx _ IH]; intros w Hw; simpl.
  - rewrite append_empty_r. by apply splitRuns_word.
  - rewrite append_cons, splitRuns_word_space.
    + by rewrite IH by by apply capitalized_notSep.
    + done.
    + apply snakeWord_inv in Hx as (c & r' & -> & Hc & _). simpl.
      destruct (lower_letter_facts c Hc) as (_ & _ & Hs & _).
      unfold notSep in Hs. by apply negb_true_iff in Hs.
Qed.

Lemma mapWords_capitalize_tail i ws :
  Forall (fun x => snakeWord x = true) ws ->
  Naming.mapWords (fun i w => if i =? 0 then Ret w else Naming.capitalize w) (S i) ws
  = Ret (List.map capitalized ws).
Proof.
  intros Hall. revert i. induction Hall as [|x r Hx _ IH]; intros i; simpl; [done|].
  apply snakeWord_inv in Hx as (c & r' & -> & _). simpl. by rewrite IH.
Qed.

Lemma join_empty_sep ws : Naming.join "" ws = concatStrings ws.
Proof.
  induction ws as [|w [|w' r] IH]; [done | by simpl; rewrite append_empty_r |].
  change (Naming.join "" (w :: w' :: r)) with (w +:+ "" +:+ Naming.join "" (w' :: r)).
  by rewrite append_nil, IH.
Qed.

Lemma map_toLowerCase_capitalized ws :
  Forall (fun x => snakeWord x = true) ws ->
  List.map Naming.toLowerCase (List.map capitalized ws) = ws.
Proof.
  induction 1 as [|x r Hx _ IH]; simpl; [done|].
  by rewrite toLowerCase_capitalized, IH.
Qed.

Lemma map_toLowerCase_plain ws :
  Forall (fun x => snakeWord x = true) ws -> List.map Naming.toLowerCase ws = ws.
Proof.
  induction 1 as [|x r Hx _ IH]; simpl; [done|].
  by rewrite toLowerCase_plain, IH by by apply snakeWord_plain.
Qed.

(** X5: a snake_case name whose words each start with a lower-case letter
    and hold only ASCII characters other than upper-case letters, white
    space and the underscore converts to camelCase (the first word as it is,
    the others capitalised) and converts back to the name it came from. *)
Theorem snake_camel_round_trip (w : string) (ws : list string) :
  Forall (fun x => snakeWord x = true) (w :: ws) ->
  let name := Naming.join "_" (w :: ws) in
  let camel := w +:+ concatStrings (List.map capitalized ws) in
  Naming.convertNamingConvention name Naming.snake_case Naming.camelCase = Ret camel
  /\ Naming.convertNamingConvention camel Naming.camelCase Naming.snake_case = Ret name.
Proof.
  intros Hall name camel. inversion Hall as [|? ? Hw Hws]; subst.
  unfold Naming.convertNamingConvention, Naming.splitWords. split.
  - unfold name. rewrite splitChar_join, map_toLowerCase_plain by done.
    cbn [Naming.mapWords Nat.eqb]. rewrite mapWords_capitalize_tail by done.
    by rewrite join_empty_sep.
  - unfold camel.
    rewrite spaceBeforeUpper_app, spaceBeforeUpper_concat by done.
    rewrite spaceBeforeUpper_plain by by apply snakeWord_plain.
    rewrite splitRuns_spaced by (by apply plain_notSep, snakeWord_plain || done).
    cbn [List.map]. rewrite toLowerCase_plain by by apply snakeWord_plain.
    by rewrite map_toLowerCase_capitalized.
Qed.

Lemma snake_camel_round_trip_witness :
  Naming.convertNamingConvention "user_first_name" Naming.snake_case Naming.camelCase
    = Ret "userFirstName"
  /\ Naming.convertNamingConvention "userFirstName" Naming.camelCase Naming.snake_case
    = Ret "user_first_name".
Proof.
  apply (snake_camel_round_trip "user" ["first"; "name"]).
  repeat constructor.
Defined.

End NamingProps.

(** ** Property paths *)

Section PropertyPaths.

Lemma splitChar_app (sep : ascii) (p q : string) :
  Naming.splitChar sep (p +:+ String sep q)
  = (Naming.splitChar sep p ++ Naming.splitChar sep q)%list.
Proof.
  induction p as [|c r IH].
  - rewrite append_nil. simpl. by rewrite Ascii.eqb_refl.
  - rewrite append_cons. simpl. destruct (Ascii.eqb c sep); rewrite IH; [done|].
    pose proof (splitChar_nonempty sep r) as Hne.
    by destruct (Naming.splitChar sep r).
Qed.

Lemma getPropertyByPath_resolvePath (obj : value) (path : string) :
  getPropertyByPath obj path = resolvePath (Naming.splitChar "." path) obj.
Proof.
  unfold getPropertyByPath. generalize (Naming.splitChar "." path) as keys.
  intros keys. revert obj. induction keys as [|k r IH]; intros obj; simpl; [done|].
  apply IH.
Qed.

(** X6: reading a dotted path is reading its first part and then, from what
    that gave, the rest; the decorator step of the compiled closure resolves
    its source paths the same way. *)
Theorem getPropertyByPath_compose (obj : value) (p q : string) :
  getPropertyByPath obj (p +:+ "." +:+ q)
    = getPropertyByPath (getPropertyByPath obj p) q
  /\ getPropertyByPath obj p = resolvePath (Naming.splitChar "." p) obj.
Proof.
  split; [|apply getPropertyByPath_resolvePath].
  unfold getPropertyByPath.
  change ("." +:+ q) with (String "." q).
  by rewrite splitChar_app, fold_left_app.
Qed.

Lemma setPath_then_read keys lastKey v acc next acc' n :
  setPath keys lastKey v acc next = Some (Ret tt, acc', n) ->
  fold_left optMember (keys ++ [lastKey])%list acc' = v.
Proof.
  revert acc next acc' n. induction keys as [|k r IH]; intros acc next acc' n H.
  - simpl in H. destruct (inherited lastKey); [done|].
    destruct acc as [| |b|z|s|id t|id items|id c ps]; try done.
    injection H as <- <-. simpl.
    unfold optMember, getMember. simpl. apply readProp_assign_eq.
  - simpl in H. destruct (inherited k); [done|].
    destruct acc as [| |b|z|s|id t|id items|id c ps]; try done.
    destruct (if truthy (readProp k ps) then (readProp k ps, next)
              else (VObj next ObjectCtor [], S next)) as [child next'].
    destruct (setPath r lastKey v child next') as [[[res child'] n']|] eqn:Hrec; [|done].
    injection H as -> <- <-. simpl.
    replace (optMember (VObj id c (assignProp k child' ps)) k) with child'.
    + by apply IH in Hrec.
    + unfold optMember, getMember. simpl. by rewrite readProp_assign_eq.
Qed.

(** X7: what [setPropertyByPath] has written, [getPropertyByPath] reads
    back along the same path, whatever intermediate objects the call had to
    create on the way.  (The model of the call covers paths through objects
    whose keys are none of the members of [Object.prototype].) *)
Theorem setPropertyByPath_then_get (obj : value) (path : string) (v : value)
    (next : ref) (obj' : value) (n : ref) :
  setPropertyByPath obj path v next = Some (Ret tt, obj', n) ->
  getPropertyByPath obj' path = v.
Proof.
  unfold setPropertyByPath, getPropertyByPath. intros H.
  apply setPath_then_read in H.
  by rewrite <- app_removelast_last in H by apply splitChar_nonempty.
Qed.

Lemma setPropertyByPath_then_get_witness :
  getPropertyByPath
    (VObj 1 ObjectCtor
       [("id", VNum 7);
        ("owner", VObj 10 ObjectCtor [("address", VObj 11 ObjectCtor [("city", VStr "Oslo")])])])
    "owner.address.city"
  = VStr "Oslo".
Proof.
  apply (setPropertyByPath_then_get
           (VObj 1 ObjectCtor [("id", VNum 7); ("owner", VNum 0)])
           "owner.address.city" (VStr "Oslo") 10 _ 12).
  reflexivity.
Defined.

End PropertyPaths.

(** ** The engine: options, registry and the steps of the closure *)

Section EngineProps.
Context {W : Type} (meta : @MetadataProvider W).
Implicit Types (m : @Mapper W) (rt : @Runtime W) (entry : @MappingRegistryEntry W).

(** *** Merged options *)

Lemma uniq_elem_of (x : string) seen l : x ∈ uniq seen l <-> x ∈ l /\ x ∉ seen.
Proof.
  revert seen. induction l as [|y r IH]; intros seen; simpl.
  - rewrite elem_of_nil. tauto.
  - case_bool_decide as Hy.
    + rewrite IH, elem_of_cons. split; [tauto|]. intros [[->|Hr] Hs]; [done | tauto].
    + rewrite !elem_of_cons, IH, not_elem_of_cons.
      destruct (decide (x = y)) as [->|Hne]; intuition congruence.
Qed.

Lemma uniq_NoDup seen l : NoDup (uniq seen l).
Proof.
  revert seen. induction l as [|y r IH]; intros seen; simpl; [constructor|].
  case_bool_decide as Hy; [apply IH|].
  constructor; [|apply IH]. rewrite uniq_elem_of, not_elem_of_cons.
  by intros (_ & Hyy & _).
Qed.

Lemma unionLists_spec (a b : option (list string)) :
  (a = None /\ b = None /\ unionLists a b = None)
  \/ exists u, unionLists a b = Some u /\ NoDup u
               /\ forall x, x ∈ u <-> x ∈ default [] a \/ x ∈ default [] b.
Proof.
  destruct a as [la|], b as [lb|]; [right|right|right|by left]; eexists;
    (split; [reflexivity|]); (split; [apply uniq_NoDup|]);
    intros x; rewrite uniq_elem_of; simpl; rewrite ?elem_of_app, ?elem_of_nil;
    pose proof (not_elem_of_nil x); tauto.
Qed.

Lemma findEntry_setCacheEnabled m b (s d : Ctor) :
  findEntry (setCacheEnabled m b) s d = findEntry m s d.
Proof. reflexivity. Qed.

Lemma findEntry_created m (s d : ClassType) cfg o :
  findEntry (createMap m s d cfg o) (cls_ctor s) (cls_ctor d)
  = Some (mkEntry s d cfg (mergeOptions (globalOptions m) (default noOptions o))).
Proof. rewrite findEntry_after_createMap. by rewrite decide_True. Qed.

(** X8: the [ignore] lists of the global options and of a mapping's own
    options accumulate.  The entry [createMap] registers ignores every key
    of either list, once each, and its copy step passes over such a key
    whatever the source holds: a mapping cannot take back a key that is
    ignored globally. *)
Theorem ignore_lists_accumulate m (s d : ClassType) cfg
    (o : option MappingEntryOptions) (k : string) :
  k ∈ default [] (ignore (globalOptions m))
    \/ k ∈ default [] (ignore (default noOptions o)) ->
  exists entry l,
    findEntry (createMap m s d cfg o) (cls_ctor s) (cls_ctor d) = Some entry
    /\ ignore (options entry) = Some l
    /\ NoDup l
    /\ (forall x, x ∈ l <-> x ∈ default [] (ignore (globalOptions m))
                           \/ x ∈ default [] (ignore (default noOptions o)))
    /\ forall src dest n, copyKey (options entry) src k dest n = (Ret dest, n).
Proof.
  intros Hk. eexists. rewrite findEntry_created.
  destruct (unionLists_spec (ignore (globalOptions m)) (ignore (default noOptions o)))
    as [(Ha & Hb & _)|(u & Hu & Hnd & Hspec)].
  { exfalso. rewrite Ha, Hb in Hk. simpl in Hk. rewrite elem_of_nil in Hk. tauto. }
  exists u. split; [done|]. simpl. split; [done|]. split; [done|]. split; [done|].
  intros src dest n. unfold copyKey, skipsKey. simpl. rewrite Hu.
  unfold includes. rewrite bool_decide_eq_true_2 by by apply Hspec. done.
Qed.


(** [new Mapper({ cache: { enabled: false } })], [setCacheEnabled(true)],
    then [createMap]: the one cache object is the global options' too, the
    entry is registered with the flag on and is not switched off again by
    [setCacheEnabled(false)]. *)
Example shared_cache_option_scenario (s d : ClassType) :
  let m0 := newMapper (Some (EntryOptions
              (withCache noOptions (mkCacheConfig (Some false) None)))) in
  let m := setCacheEnabled (createMap (setCacheEnabled m0 true) s d None None) false in
  exists entry,
    findEntry m (cls_ctor s) (cls_ctor d) = Some entry
    /\ isCacheEnabled m entry = true.
Proof.
  intros m0 m. eexists. unfold m. rewrite findEntry_setCacheEnabled, findEntry_created.
  split; [done|]. reflexivity.
Qed.

(** *** The registry of a mapper set up by its methods *)

Lemma createMap_invariant m (s d : ClassType) cfg o :
  registry_invariant m -> registry_invariant (createMap m s d cfg o).
Proof.
  intros (Hi & Hc & Hr). split; [by apply createMap_indexed|]. split.
  - simpl. unfold entryKey. simpl. by rewrite Hc.
  - simpl. intros k e.
    destruct (decide (getRegistryKey (cls_ctor s) (cls_ctor d) = k)) as [<-|Hne].
    + rewrite lookup_insert_eq. intros [= <-]. split; [done|].
      apply in_app_iff. right. by left.
    + rewrite lookup_insert_ne by done. intros [Hk Hin]%Hr. split; [done|].
      apply in_app_iff. by left.
Qed.

(** *** What mapping leaves alone *)

Lemma preserving_mapAsyncAttempt mapNested entry (sourceObj : value) destinationClass :
  (forall it c, preserving (mapNested it c)) ->
  preserving (mapAsyncAttempt meta mapNested entry sourceObj destinationClass).
Proof.
  intros Hn. unfold mapAsyncAttempt.
  apply preserving_bind.
  { destruct (beforeMap _); [|apply preserving_ret].
    apply preserving_bind; [apply preserving_liftAlloc|]. intros arg.
    apply preserving_liftWorld. }
  intros preProcessed.
  apply preserving_bind; [apply preserving_compiledAsyncFor|]. intros compiled.
  apply preserving_bind.
  { apply preserving_compiledFn; [done|]. intros f items. apply preserving_mapItemsAll. }
  intros result. apply preserving_bind.
  { destruct (afterMap _); [apply preserving_liftWorld | apply preserving_ret]. }
  intros result'.
  apply preserving_bind; [apply preserving_storeResult|]. intros _. apply preserving_ret.
Qed.

Lemma preserving_mapAsync fuel (sourceObj : value) destinationClass o :
  preserving (mapAsync meta fuel sourceObj destinationClass o).
Proof.
  revert sourceObj destinationClass o.
  induction fuel as [|fuel IH]; intros sourceObj destinationClass o; [by intros rt ? ?|].
  simpl. unfold mapAsyncBody.
  destruct (constructorOf sourceObj); [|apply preserving_throw].
  apply preserving_bind; [apply preserving_getMapper|]. intros m.
  destruct (findEntry _ _ _); [|apply preserving_throw].
  destruct (cachedResult _ _ _ _); [apply preserving_ret|].
  apply preserving_mapAsyncAttempt. intros it nestedType. apply IH.
Qed.

(** X11: mapping never registers, replaces or removes a mapping.  However a
    call of [map] or [mapAsync] ends (a result, an exception, a rejection),
    the list of entries, the key table, the cache configuration and the
    global options are what they were, so every lookup answers as before;
    the call can change the closure tables and the instance cache only. *)
Theorem mapping_keeps_registrations fuel (sourceObj : value) destinationClass o rt
    (res : outcome value) rt' :
  map meta fuel sourceObj destinationClass o rt = Some (res, rt')
    \/ mapAsync meta fuel sourceObj destinationClass o rt = Some (res, rt') ->
  registry (rt_mapper rt') = registry (rt_mapper rt)
  /\ reverseRegistry (rt_mapper rt') = reverseRegistry (rt_mapper rt)
  /\ cacheConfig (rt_mapper rt') = cacheConfig (rt_mapper rt)
  /\ globalOptions (rt_mapper rt') = globalOptions (rt_mapper rt)
  /\ forall s d : Ctor, findEntry (rt_mapper rt') s d = findEntry (rt_mapper rt) s d.
Proof.
  intros H.
  assert (sameRegistry (rt_mapper rt) (rt_mapper rt')) as Hsame.
  { destruct H as [H|H]; [by apply preserving_map in H | by apply preserving_mapAsync in H]. }
  destruct Hsame as (H1 & H2 & H3 & H4) eqn:Heq. repeat split; try done.
  intros s d. by apply sameRegistry_findEntry.
Qed.


(** *** The steps of the closure *)

Lemma copyKey_keys (o : @MappingEntryOptions W) src k dest n dest' n' :
  copyKey o src k dest n = (Ret dest', n') -> List.map fst dest' = List.map fst dest.
Proof.
  unfold copyKey. destruct (skipsKey _ _ _); [by intros [= <- _]|].
  destruct (targetKeyOf o k) as [t|]; [|done].
  destruct (hasKey t dest) eqn:Hhas; [|by intros [= <- _]].
  destruct (isTrue _); [destruct (deepClone _ _)|];
    intros [= <- _]; by rewrite assignProp_keys, Hhas.
Qed.

Lemma copyProperties_keys (o : @MappingEntryOptions W) src keys dest n dest' n' :
  copyProperties o src keys dest n = (Ret dest', n') ->
  List.map fst dest' = List.map fst dest.
Proof.
  revert dest n. induction keys as [|k r IH]; simpl; intros dest n.
  - by intros [= <- _].
  - destruct (copyKey o src k dest n) as [[d1|e] n1] eqn:Hk; [|done].
    intros H. apply IH in H. apply copyKey_keys in Hk. congruence.
Qed.

(** X13: the copy step fills, it does not add.  When no source key is
    copied to a name that every object inherits from [Object.prototype]
    (for such a name [targetKey in dest] holds of any instance), the
    destination has after "Copy primitives" the keys it was constructed
    with, in the same order: a source property for which the new instance
    has no property of the target name is dropped, so a class that
    initialises no field receives nothing from the copy. *)
Theorem copy_never_adds_keys (o : @MappingEntryOptions W) (src : value) keys dest n dest' n' :
  ownTargets o keys ->
  copyProperties o src keys dest n = (Ret dest', n') ->
  List.map fst dest' = List.map fst dest
  /\ (dest = [] -> dest' = []).
Proof.
  intros _ H. apply copyProperties_keys in H. split; [done|].
  intros ->. by destruct dest'.
Qed.

Lemma hasKey_lookup_eq {A} k (ps qs : list (string * A)) :
  lookupProp k ps = lookupProp k qs -> hasKey k ps = hasKey k qs.
Proof. unfold hasKey. by intros ->. Qed.

Lemma hasKey_keys_eq {A B} k (ps : list (string * A)) (qs : list (string * B)) :
  List.map fst ps = List.map fst qs -> hasKey k ps = hasKey k qs.
Proof.
  intros Hk. destruct (hasKey k ps) eqn:Hp, (hasKey k qs) eqn:Hq; try done.
  - apply hasKey_In_fst in Hp. rewrite Hk in Hp. apply hasKey_In_fst in Hp. congruence.
  - apply hasKey_In_fst in Hq. rewrite <- Hk in Hq. apply hasKey_In_fst in Hq. congruence.
Qed.

Lemma decoratorMappings_other mapNested mapArray entry src keys dest rt dest' rt' k :
  decoratorMappings meta mapNested mapArray entry src keys dest rt = Some (Ret dest', rt') ->
  ~ In k keys ->
  lookupProp k dest' = lookupProp k dest.
Proof.
  revert dest rt. induction keys as [|dk r IH]; simpl; intros dest rt H Hin.
  - by inv_ret H.
  - apply bind_Ret_inv in H as (d1 & rt1 & H1 & H).
    apply IH in H; [|tauto]. rewrite H.
    eapply decoratorField_other; [eauto|]. intros ->. tauto.
Qed.

(** X14: what the closure returns is an instance of the destination class
    with the identity allocated at the start of the call, and it has no
    property beyond the fields the class constructs, the keys of the
    mapping's field functions and the keys of the table the closure reads
    for the class under [AUTO_MAP_METADATA_KEY]; this for keys (copied,
    configured or listed) that are none of the members of
    [Object.prototype]. *)
Theorem result_keys_bounded mapNested mapArray entry (src : value) rt (r : value) rt' :
  ownTargets (options entry) (ownKeys src) ->
  Forall (fun k => inherited k = false) (List.map fst (configOf entry)) ->
  Forall (fun k => inherited k = false) (autoMapKeys meta (cls_ctor (destination entry))) ->
  compiledFn meta mapNested mapArray entry src rt = Some (Ret r, rt') ->
  exists dest,
    r = VObj (rt_next rt) (cls_ctor (destination entry)) dest
    /\ forall k, hasKey k dest = true ->
         hasKey k (cls_fields (destination entry)) = true
         \/ hasKey k (configOf entry) = true
         \/ In k (autoMapKeys meta (cls_ctor (destination entry))).
Proof.
  intros _ _ _ H. apply compiledFn_Ret_inv in H
    as (copied & n & applied & w & dest & Hcopy & Happly & Hdec & ->).
  exists dest. split; [done|]. intros k Hk.
  destruct (hasKey k (configOf entry)) eqn:Hcfg; [tauto|].
  destruct (In_dec string_dec k (autoMapKeys meta (cls_ctor (destination entry))))
    as [Hin|Hin]; [tauto|].
  left. rewrite <- Hk.
  rewrite <- (hasKey_keys_eq k _ _ (copyProperties_keys _ _ _ _ _ _ _ Hcopy)).
  apply hasKey_lookup_eq.
  rewrite (decoratorMappings_other _ _ _ _ _ _ _ _ _ _ Hdec Hin).
  symmetry. eapply applyConfig_other; [exact Happly|].
  intros Hc. apply hasKey_In_fst in Hc. congruence.
Qed.

Lemma decoratorField_defined mapNested mapArray entry src destKey dest :
  readProp destKey dest <> VUndefined ->
  decoratorField meta mapNested mapArray entry src destKey dest = ret dest.
Proof.
  intros Hd. unfold decoratorField.
  destruct (readProp destKey dest); try done; by rewrite orb_true_r.
Qed.

(** X15: the decorator step fills only what is still undefined.  A
    destination property that holds a defined value after the copy and the
    field functions (null included) comes out of "Decorator-driven mappings"
    as it went in, whatever [@MapProperty], [@MapNested] or [@Transform] say
    about it. *)
Theorem decorators_fill_only_undefined mapNested mapArray entry (src : value) keys
    dest rt dest' rt' (k : string) :
  decoratorMappings meta mapNested mapArray entry src keys dest rt = Some (Ret dest', rt') ->
  readProp k dest <> VUndefined ->
  lookupProp k dest' = lookupProp k dest.
Proof.
  revert dest rt. induction keys as [|dk r IH]; simpl; intros dest rt H Hd.
  - by inv_ret H.
  - apply bind_Ret_inv in H as (d1 & rt1 & H1 & H).
    assert (lookupProp k d1 = lookupProp k dest) as H1k.
    { destruct (decide (k = dk)) as [->|Hne].
      - rewrite decoratorField_defined in H1 by done. by inv_ret H1.
      - eapply decoratorField_other; eauto. }
    rewrite <- H1k. eapply IH; [exact H|]. unfold readProp in *. by rewrite H1k.
Qed.

End EngineProps.

Lemma ignore_lists_accumulate_witness :
  exists entry l,
    findEntry (createMap Samples2.secretive Samples.Source Samples.Target None None)
      (cls_ctor Samples.Source) (cls_ctor Samples.Target) = Some entry
    /\ ignore (options entry) = Some l
    /\ NoDup l
    /\ (forall x, x ∈ l <-> x ∈ ["password"] \/ x ∈ [])
    /\ forall src dest n, copyKey (options entry) src "password" dest n = (Ret dest, n).
Proof.
  apply (ignore_lists_accumulate Samples2.secretive Samples.Source Samples.Target None None
           "password").
  left. simpl. repeat constructor.
Defined.

Lemma mapping_keeps_registrations_witness :
  exists rt',
    map noMetadata 1 Samples.john Samples.Target None
      (mkRuntime Samples.strictMapper 0 1000) = Some (Throw
        (createMappingError "Source" "Target" "Mapping failed" (Some (plainError "boom"))),
        rt')
    /\ registry (rt_mapper rt') = registry Samples.strictMapper
    /\ forall s d : Ctor, findEntry (rt_mapper rt') s d = findEntry Samples.strictMapper s d.
Proof.
  eexists. split; [reflexivity|].
  destruct (mapping_keeps_registrations noMetadata 1 Samples.john Samples.Target None
              (mkRuntime Samples.strictMapper 0 1000) _ _ (or_introl eq_refl))
    as (H1 & _ & _ & _ & H5).
  split; [exact H1 | exact H5].
Defined.


Lemma copy_never_adds_keys_witness :
  List.map fst [("name", VStr "Eve"); ("role", VStr "admin")]
    = List.map fst (cls_fields Samples2.Profile)
  /\ (cls_fields Samples2.Profile = [] ->
      [("name", VStr "Eve"); ("role", VStr "admin")] = []).
Proof.
  apply (copy_never_adds_keys (@noOptions nat) Samples2.eve (ownKeys Samples2.eve)
           (cls_fields Samples2.Profile) 0 _ 0).
  - vm_compute. repeat constructor.
  - reflexivity.
Defined.

Lemma result_keys_bounded_witness :
  exists dest,
    VObj 1000 (cls_ctor Samples2.Profile) [("name", VStr "Eve"); ("role", VStr "admin")]
      = VObj 1000 (cls_ctor (destination Samples2.memberEntry)) dest
    /\ forall k, hasKey k dest = true ->
         hasKey k (cls_fields (destination Samples2.memberEntry)) = true
         \/ hasKey k (configOf Samples2.memberEntry) = true
         \/ In k (autoMapKeys Samples2.profileMeta
                    (cls_ctor (destination Samples2.memberEntry))).
Proof.
  apply (result_keys_bounded Samples2.profileMeta Samples.noNested mapItems
           Samples2.memberEntry Samples2.eve (mkRuntime (newMapper None) 0 1000) _
           (mkRuntime (newMapper None) 0 1001)).
  - vm_compute. repeat constructor.
  - vm_compute. constructor.
  - vm_compute. repeat constructor.
  - reflexivity.
Defined.

Lemma decorators_fill_only_undefined_witness :
  lookupProp "role" [("name", VStr "Eve"); ("role", VStr "guest")]
  = lookupProp "role" (cls_fields Samples2.Profile).
Proof.
  apply (decorators_fill_only_undefined Samples2.profileMeta Samples.noNested mapItems
           Samples2.memberEntry Samples2.eve ["name"; "role"] (cls_fields Samples2.Profile)
           (mkRuntime (newMapper None) 0 1000) _ (mkRuntime (newMapper None) 0 1000) "role").
  - reflexivity.
  - discriminate.
Defined.


(** ** Arrays, clearing and re-registration *)

Section ArrayProps.
Context {W : Type} (meta : @MetadataProvider W).
Implicit Types (rt : @Runtime W) (f : value -> @M W value).

Lemma mapItems_Ret_inv f items rt vs rt' :
  mapItems f items rt = Some (Ret vs, rt') ->
  Forall2 (fun it v => exists rt1 rt2, f it rt1 = Some (Ret v, rt2)) items vs.
Proof.
  revert rt vs rt'. induction items as [|it r IH]; simpl; intros rt vs rt' H.
  - apply ret_inv in H as [Hv _]. injection Hv as ->. constructor.
  - apply bind_Ret_inv in H as (y & rt1 & Hy & H).
    apply bind_Ret_inv in H as (ys & rt2 & Hys & H).
    apply ret_inv in H as [Hv _]. injection Hv as ->.
    constructor; [by exists rt, rt1 | by eapply IH].
Qed.

Lemma mapItemsAll_Ret_inv f items rt vs rt' :
  mapItemsAll f items rt = Some (Ret vs, rt') ->
  Forall2 (fun it v => exists rt1 rt2, f it rt1 = Some (Ret v, rt2)) items vs.
Proof.
  revert rt vs rt'. induction items as [|it r IH]; simpl; intros rt vs rt' H.
  - apply ret_inv in H as [Hv _]. injection Hv as ->. constructor.
  - destruct (f it rt) as [[y rt1]|] eqn:Hy; [|done].
    destruct (mapItemsAll f r rt1) as [[ys rt2]|] eqn:Hys; [|done].
    destruct y as [v|e]; [|done]. destruct ys as [vs'|e]; [|done].
    injection H as <- <-. constructor; [by exists rt, rt1 | by eapply IH].
Qed.








(** X18: after [clear()] nothing maps.  Whatever was registered, compiled or
    cached before, [map] throws and [mapAsync] rejects with "Mapping not
    found" for every source that has a constructor, and the call changes
    nothing. *)
Theorem after_clear_nothing_maps (m : @Mapper W) fuel (sourceObj : value)
    (destinationClass : ClassType) o (w : W) (n : ref) (sourceCtor : Ctor) :
  constructorOf sourceObj = Some sourceCtor ->
  let rt := mkRuntime (clear m) w n in
  let notFound := createMappingError (ctor_name sourceCtor)
                    (ctor_name (cls_ctor destinationClass)) "Mapping not found" None in
  map meta (S fuel) sourceObj destinationClass o rt = Some (Throw notFound, rt)
  /\ mapAsync meta (S fuel) sourceObj destinationClass o rt = Some (Throw notFound, rt).
Proof.
  intros Hc rt notFound. simpl. unfold mapBody, mapAsyncBody. rewrite Hc.
  unfold bind, getMapper. simpl.
  unfold findEntry. simpl. by rewrite lookup_empty.
Qed.

Lemma bind_ret_r {A} (c : @M W A) rt : bind c (fun x => ret x) rt = c rt.
Proof. unfold bind, ret. by destruct (c rt) as [[[a|e] rt1]|]. Qed.

(** X19: registering a pair again replaces its sync closure but not its
    async one.  [createMap] compiles the sync closure of the new entry at
    once; the table of async closures is filled on first use and never
    reset, so if [mapAsync] has run for the pair before, it goes on running
    the closure of the old entry: for a mapping without hooks and cache,
    [mapAsync] then is the old closure applied to the source, while [map]
    runs the new one. *)
Theorem reregistration_keeps_async_closure (m : @Mapper W) (s d : ClassType) cfg o
    (old : @MappingRegistryEntry W) (w : W) (n : ref) :
  compiledAsyncMapFns m !! getRegistryKey (cls_ctor s) (cls_ctor d) = Some old ->
  let m' := createMap m s d cfg o in
  let entry := mkEntry s d cfg (mergeOptions (globalOptions m) (default noOptions o)) in
  let rt := mkRuntime m' w n in
  findEntry m' (cls_ctor s) (cls_ctor d) = Some entry
  /\ compiledFor entry rt = Some (Ret entry, rt)
  /\ compiledAsyncFor entry rt = Some (Ret old, rt)
  /\ (beforeMap (options entry) = None -> afterMap (options entry) = None ->
      isCacheEnabled m' entry = false ->
      forall fuel (sourceObj : value) o',
        constructorOf sourceObj = Some (cls_ctor s) ->
        mapAsync meta (S fuel) sourceObj d o' rt
          = compiledFn meta (fun it c => mapAsync meta fuel it c None) mapItemsAll
              old sourceObj rt
        /\ map meta (S fuel) sourceObj d o' rt
          = tryCatch
              (compiledFn meta (fun it c => map meta fuel it c None) mapItems
                 entry sourceObj)
              (fun error =>
                 createMappingError (ctor_name (cls_ctor s)) (ctor_name (cls_ctor d))
                   "Mapping failed" (Some error))
              rt).
Proof.
  intros Hold m' entry rt.
  assert (findEntry m' (cls_ctor s) (cls_ctor d) = Some entry) as Hfind.
  { unfold m'. by rewrite findEntry_after_createMap, decide_True. }
  assert (compiledFor entry rt = Some (Ret entry, rt)) as Hsync.
  { unfold compiledFor, bind, getMapper. simpl. unfold entryKey. simpl.
    by rewrite lookup_insert_eq. }
  assert (compiledAsyncFor entry rt = Some (Ret old, rt)) as Hasync.
  { unfold compiledAsyncFor, bind, getMapper. simpl. unfold entryKey. simpl.
    by rewrite Hold. }
  split; [done|]. split; [done|]. split; [done|].
  intros Hb Ha Hcache fuel sourceObj o' Hc.
  assert (cachedResult m' entry sourceObj d = None) as Hmiss.
  { unfold cachedResult. by rewrite Hcache. }
  assert (forall r rt1, sameRegistry m' (rt_mapper rt1) ->
            storeResult entry sourceObj d r rt1 = Some (Ret tt, rt1)) as Hstore.
  { intros r rt1 He. unfold storeResult, bind, getMapper.
    by rewrite (sameRegistry_isCacheEnabled _ _ _ He), Hcache. }
  split.
  - change (mapAsync meta (S fuel) sourceObj d o' rt)
      with (mapAsyncBody meta (fun it nestedType => mapAsync meta fuel it nestedType None)
              sourceObj d o' rt).
    unfold mapAsyncBody. rewrite Hc. unfold bind at 1, getMapper.
    change (rt_mapper rt) with m'. rewrite Hfind, Hmiss. unfold mapAsyncAttempt. rewrite Hb, Ha.
    unfold bind at 1, ret at 1. unfold bind at 1. rewrite Hasync.
    unfold bind at 1.
    destruct (compiledFn meta _ mapItemsAll old sourceObj rt) as [[[r|e] rt1]|] eqn:Hrun;
      [|done|done].
    unfold bind at 1, ret at 1. unfold bind at 1.
    rewrite Hstore; [done|].
    refine (preserving_compiledFn meta _ _ _ _ _ _ rt _ rt1 Hrun).
    + intros it c. apply preserving_mapAsync.
    + intros f items. apply preserving_mapItemsAll.
  - change (map meta (S fuel) sourceObj d o' rt)
      with (mapBody meta (fun it nestedType => map meta fuel it nestedType None)
              sourceObj d o' rt).
    unfold mapBody. rewrite Hc. unfold bind at 1, getMapper.
    change (rt_mapper rt) with m'. rewrite Hfind, Hmiss. unfold tryCatch, mapAttempt. rewrite Hb, Ha.
    unfold bind at 1, ret at 1. unfold bind at 1. rewrite Hsync.
    unfold bind at 1.
    destruct (compiledFn meta _ mapItems entry sourceObj rt) as [[[r|e] rt1]|] eqn:Hrun;
      [|done|done].
    unfold bind at 1, ret at 1. unfold bind at 1.
    rewrite Hstore; [done|].
    refine (preserving_compiledFn meta _ _ _ _ _ _ rt _ rt1 Hrun).
    + intros it c. apply preserving_map.
    + intros f items. apply preserving_mapItems.
Qed.

End ArrayProps.



Lemma after_clear_nothing_maps_witness :
  map noMetadata 1 Samples.john Samples.Target None
    (mkRuntime (clear Samples.cachedMapper) 0 1000)
  = Some (Throw (createMappingError "Source" "Target" "Mapping not found" None),
          mkRuntime (clear Samples.cachedMapper) 0 1000).
Proof.
  apply (after_clear_nothing_maps noMetadata Samples.cachedMapper 0 Samples.john
           Samples.Target None 0 1000 (cls_ctor Samples.Source)).
  reflexivity.
Defined.

Lemma reregistration_keeps_async_closure_witness :
  let m' := createMap Samples2.afterAsync Samples.Source Samples.Target
              (Some [("name", Samples.nextYear)]) None in
  mapAsync noMetadata 1 Samples.john Samples.Target None (mkRuntime m' 0 1000)
    = Some (Ret (VObj 1000 (cls_ctor Samples.Target)
                   [("name", VStr "JOHN"); ("age", VNum 30)]), mkRuntime m' 1 1001)
  /\ map noMetadata 1 Samples.john Samples.Target None (mkRuntime m' 0 1000)
    = Some (Ret (VObj 1000 (cls_ctor Samples.Target)
                   [("name", VNum 31); ("age", VNum 30)]), mkRuntime m' 1 1001).
Proof.
  intros m'.
  destruct (reregistration_keeps_async_closure noMetadata Samples2.afterAsync
              Samples.Source Samples.Target (Some [("name", Samples.nextYear)]) None
              Samples.shoutEntry 0 1000 eq_refl) as (_ & _ & _ & H).
  destruct (H eq_refl eq_refl eq_refl 0 Samples.john None eq_refl) as [Ha Hs].
  split.
  - etransitivity; [exact Ha | reflexivity].
  - etransitivity; [exact Hs | reflexivity].
Defined.

(** ** Validation *)

Section ValidationProps.
Context {W : Type}.
Implicit Types (rules : gmap string (list (@ValidationRule W))) (r rule : @ValidationRule W).

Lemma append_inj_l (s a b : string) : s +:+ a = s +:+ b -> a = b.
Proof.
  induction s as [|c r IH]; [done|]. rewrite !append_cons. intros [= H]. by apply IH.
Qed.

Lemma ruleKey_inj (className p q : string) :
  ruleKey className p = ruleKey className q -> p = q.
Proof.
  unfold ruleKey. intros H%append_inj_l. change ("." +:+ p) with (String "." p) in H.
  change ("." +:+ q) with (String "." q) in H. by injection H.
Qed.

Lemma runRules_pure (accept : @ValidationRule W -> value -> bool) key v rs w :
  (forall r w0, In r rs -> rule_validate r v w0 = (Ret (accept r v), w0)) ->
  (forall r, In r rs -> accept r v = true) /\ runRules key v rs w = (Ret tt, w)
  \/ exists r e, In r rs /\ accept r v = false /\ runRules key v rs w = (Throw e, w).
Proof.
  induction rs as [|r0 rs IH]; intros Hpure; simpl.
  - left. split; [by intros r []|done].
  - rewrite (Hpure r0 w) by by left.
    destruct (accept r0 v) eqn:Hacc.
    + destruct IH as [[Hall Hrun]|(r & e & Hin & Hrej & Hrun)].
      * intros r w0 Hin. apply Hpure. by right.
      * left. split; [|done]. intros r [<-|Hin]; [done | by apply Hall].
      * right. exists r, e. split; [by right | done].
    + right. eexists r0, _. split; [by left | done].
Qed.

Lemma validateKeys_pure (accept : @ValidationRule W -> value -> bool)
    rules className (obj : value) keys w :
  (forall key rs r v w0, rules !! key = Some rs -> In r rs ->
     rule_validate r v w0 = (Ret (accept r v), w0)) ->
  (forall k rs r, In k keys -> rules !! ruleKey className k = Some rs -> In r rs ->
     accept r (readProp k (propsOf obj)) = true)
    /\ validateKeys rules className obj keys w = (Ret tt, w)
  \/ (exists k rs r, In k keys /\ rules !! ruleKey className k = Some rs /\ In r rs
                     /\ accept r (readProp k (propsOf obj)) = false)
     /\ exists e, validateKeys rules className obj keys w = (Throw e, w).
Proof.
  intros Hpure. induction keys as [|k keys IH]; simpl.
  - left. split; [by intros k rs r []|done].
  - destruct (rules !! ruleKey className k) as [rs|] eqn:Hrs.
    + destruct (runRules_pure accept k (readProp k (propsOf obj)) rs w)
        as [[Hall Hrun]|(r & e & Hin & Hrej & Hrun)].
      * intros r w0 Hin. by eapply Hpure.
      * rewrite Hrun.
        destruct IH as [[Hok Hk]|[(k' & rs' & r' & Hin' & Hrs' & Hr' & Hrej) He]].
        -- left. split; [|done]. intros k' rs' r' [<-|Hin'] Hrs' Hr'.
           ++ rewrite Hrs in Hrs'. injection Hrs' as <-. by apply Hall.
           ++ by eapply Hok.
        -- right. split; [|done]. exists k', rs', r'. split; [by right | done].
      * rewrite Hrun. right. split; [|by eexists].
        exists k, rs, r. split; [by left | done].
    + destruct IH as [[Hok Hk]|[(k' & rs' & r' & Hin' & Hrs' & Hr' & Hrej) He]].
      * left. split; [|done]. intros k' rs' r' [<-|Hin'] Hrs' Hr'.
        -- congruence.
        -- by eapply Hok.
      * right. split; [|done]. exists k', rs', r'. split; [by right | done].
Qed.

(** X20: what [validate] decides.  The promise never resolves to [false]:
    it resolves to [true] or rejects.  For rules that answer by the value
    alone, it resolves to [true] exactly when every rule registered under
    [ClassName.key] for an own key of the object accepts the value of that
    key. *)
Theorem validate_resolves_iff_all_rules_accept rules (obj : value) (c : Ctor)
    (accept : @ValidationRule W -> value -> bool) (w : W) :
  constructorOf obj = Some c ->
  (forall key rs r v w0, rules !! key = Some rs -> In r rs ->
     rule_validate r v w0 = (Ret (accept r v), w0)) ->
  (validate rules obj w = (Ret true, w)
   <-> forall k rs r, In k (ownKeys obj) -> rules !! ruleKey (ctor_name c) k = Some rs ->
         In r rs -> accept r (readProp k (propsOf obj)) = true)
  /\ (forall b w', validate rules obj w = (Ret b, w') -> b = true)
  /\ (validate rules obj w = (Ret true, w) \/ exists e, validate rules obj w = (Throw e, w)).
Proof.
  intros Hc Hpure. unfold validate. rewrite Hc.
  destruct (validateKeys_pure accept rules (ctor_name c) obj (ownKeys obj) w Hpure)
    as [[Hall Hrun]|[(k & rs & r & Hin & Hrs & Hr & Hrej) [e Hrun]]]; rewrite Hrun.
  - split; [done|]. split; [by intros b w' [= <- _] | by left].
  - split; [|split; [done | right; by exists e]].
    split; [done|]. intros Hall. rewrite (Hall k rs r Hin Hrs Hr) in Hrej. done.
Qed.

Lemma addValidation_lookup_ne rules (targetClass : Ctor) property rule (key : string) :
  key <> ruleKey (ctor_name targetClass) property ->
  addValidation rules targetClass property rule !! key = rules !! key.
Proof. intros Hne. unfold addValidation. cbv zeta. by rewrite lookup_insert_ne. Qed.

Lemma validateKeys_other rules (targetClass : Ctor) property rule className
    (obj : value) keys w :
  ctor_name targetClass = className ->
  ~ In property keys ->
  validateKeys (addValidation rules targetClass property rule) className obj keys w
  = validateKeys rules className obj keys w.
Proof.
  intros Hname. revert w. induction keys as [|k keys IH]; intros w Hnot; simpl; [done|].
  rewrite addValidation_lookup_ne.
  - destruct (rules !! ruleKey className k) as [rs|].
    + destruct (runRules k _ rs w) as [[[]|e] w1]; [|done].
      apply IH. intros Hin. apply Hnot. by right.
    + apply IH. intros Hin. apply Hnot. by right.
  - rewrite Hname. intros Heq%ruleKey_inj. apply Hnot. by left.
Qed.

(** X21: a rule is looked up only for the keys the object has.  Adding a
    rule for a property that is not among the own keys of an object of that
    class changes nothing about validating it: the rule is never run, so an
    object that lacks a field altogether passes every rule on that field. *)
Theorem rule_on_absent_field_never_runs rules (targetClass : Ctor) (property : string)
    rule (obj : value) (c : Ctor) (w : W) :
  constructorOf obj = Some c ->
  ctor_name targetClass = ctor_name c ->
  ~ In property (ownKeys obj) ->
  validate (addValidation rules targetClass property rule) obj w = validate rules obj w
  /\ validate (addValidation ∅ targetClass property rule) obj w = (Ret true, w).
Proof.
  intros Hc Hname Hnot. unfold validate. rewrite Hc.
  rewrite !validateKeys_other by done. split; [done|].
  assert (forall keys, validateKeys (∅ : gmap string (list (@ValidationRule W))) (ctor_name c) obj keys w
                       = (Ret tt, w)) as Hempty.
  { induction keys as [|k keys IH]; simpl; [done|]. by rewrite lookup_empty. }
  by rewrite Hempty.
Qed.

(** X22: [validateProperty] stops at the first rule that rejects.  When the
    rules before it accept the value and it answers [false], the promise
    rejects with an error whose message is that rule's message, and the
    rules after it are not run. *)
Theorem validateProperty_first_failure (v : value) (pre post : list ValidationRule)
    rule (w w1 w2 : W) :
  validateProperty v pre w = (Ret tt, w1) ->
  rule_validate rule v w1 = (Ret false, w2) ->
  validateProperty v (pre ++ rule :: post)%list w
  = (Throw (plainError (rule_message rule)), w2).
Proof.
  revert w. induction pre as [|r0 pre IH]; simpl; intros w Hpre Hrule.
  - injection Hpre as <-. by rewrite Hrule.
  - destruct (rule_validate r0 v w) as [[[]|e] w0]; [|done|done]. by apply IH.
Qed.

End ValidationProps.

Lemma validate_resolves_iff_all_rules_accept_witness :
  validate Samples2.sourceRules Samples.john 0 = (Ret true, 0)
  <-> forall k rs r, In k (ownKeys Samples.john) ->
        Samples2.sourceRules !! ruleKey "Source" k = Some rs -> In r rs ->
        Samples2.accepts r (readProp k (propsOf Samples.john)) = true.
Proof.
  apply (validate_resolves_iff_all_rules_accept Samples2.sourceRules Samples.john
           (cls_ctor Samples.Source) Samples2.accepts 0 eq_refl).
  intros key rs r v w0 Hrs Hin.
  destruct (decide (key = "Source.age")) as [->|Hne].
  - vm_compute in Hrs. injection Hrs as <-.
    destruct Hin as [<-|[<-|[]]]; reflexivity.
  - unfold Samples2.sourceRules, addValidation in Hrs.
    rewrite !lookup_insert_ne in Hrs by (intros Heq; apply Hne; symmetry; exact Heq).
    by rewrite lookup_empty in Hrs.
Defined.

Lemma rule_on_absent_field_never_runs_witness :
  validate (addValidation Samples2.sourceRules (cls_ctor Samples.Source) "email"
              Samples2.isAdult) Samples.john 5
  = validate Samples2.sourceRules Samples.john 5.
Proof.
  apply (rule_on_absent_field_never_runs Samples2.sourceRules (cls_ctor Samples.Source)
           "email" Samples2.isAdult Samples.john (cls_ctor Samples.Source) 5);
    [reflexivity | reflexivity |].
  simpl. intros [H|[H|[]]]; discriminate H.
Defined.

Lemma validateProperty_first_failure_witness :
  validateProperty (VNum 12)
    [Samples2.counted Samples2.isNumber; Samples2.counted Samples2.isAdult;
     Samples2.counted Samples2.isNumber] 0
  = (Throw (plainError "must be 18 or more"), 2).
Proof.
  apply (validateProperty_first_failure (VNum 12) [Samples2.counted Samples2.isNumber]
           [Samples2.counted Samples2.isNumber] (Samples2.counted Samples2.isAdult) 0 1 2);
    reflexivity.
Defined.

(** ** The mapping builder *)

Section BuilderProps.
Context {W : Type} (meta : @MetadataProvider W).
Implicit Types (b : @MappingBuilder.Builder W) (m : @Mapper W).

Lemma applyConfig_suppressed (o : @MappingEntryOptions W) src cfg dest w dest' w' k fn v :
  applyConfig o src cfg dest w = (Ret dest', w') ->
  NoDup (List.map fst cfg) ->
  In (k, fn) cfg ->
  (forall w0, fst (call fn src w0) = Ret v) ->
  suppressed o v = true ->
  lookupProp k dest' = lookupProp k dest.
Proof.
  revert dest w. induction cfg as [|[dk f0] r IH]; simpl; intros dest w H Hnd Hin Hv Hs;
    [done|].
  apply NoDup_cons in Hnd as [Hnotin Hnd].
  destruct Hin as [[= -> ->]|Hin].
  - unfold applyMapperFn in H. specialize (Hv w).
    destruct (call fn src w) as [[v0|err] w1]; simpl in Hv; [|done].
    injection Hv as ->. rewrite Hs in H.
    apply applyConfig_other with (k := k) in H; [done|].
    by intros ?%list_elem_of_In.
  - assert (dk <> k) as Hne.
    { intros ->. apply Hnotin, list_elem_of_In.
      change k with (fst (k, fn)). by apply in_map. }
    unfold applyMapperFn in H.
    destruct (call f0 src w) as [[v0|err] w1].
    + destruct (suppressed o v0).
      * eapply IH; eauto.
      * rewrite (IH _ _ H Hnd Hin Hv Hs). by apply lookupProp_assign_ne.
    + destruct (isTrue (Engine.strict o)); [done|]. eapply IH; eauto.
Qed.

(** X23: what the builder's [ignore] does.  It registers a field function
    that returns [undefined]; so in the mapped object the ignored key is set
    to [undefined], over the class default and over what the copy step
    wrote, unless [skipUndefined] is in force, in which case the key keeps
    exactly what the copy step left. *)
Theorem builder_ignore_writes_undefined mapNested mapArray b m (k : string)
    (src : value) (rt : @Runtime W) (r : value) rt' :
  NoDup (List.map fst (MappingBuilder.b_config b)) ->
  let m' := MappingBuilder.register (MappingBuilder.ignore b k) m in
  exists entry,
    findEntry m' (cls_ctor (MappingBuilder.b_source b))
      (cls_ctor (MappingBuilder.b_destination b)) = Some entry
    /\ options entry = mergeOptions (globalOptions m) (MappingBuilder.b_options b)
    /\ (compiledFn meta mapNested mapArray entry src rt = Some (Ret r, rt') ->
        exists id dest,
          r = VObj id (cls_ctor (MappingBuilder.b_destination b)) dest
          /\ (isTrue (skipUndefined (options entry)) = false ->
              lookupProp k dest = Some VUndefined)
          /\ (isTrue (skipUndefined (options entry)) = true ->
              forall copied n,
                copyProperties (options entry) src (ownKeys src)
                  (cls_fields (MappingBuilder.b_destination b)) (S (rt_next rt))
                  = (Ret copied, n) ->
                lookupProp k dest = lookupProp k copied)).
Proof.
  intros Hnd m'. eexists. unfold m', MappingBuilder.register.
  rewrite findEntry_created. split; [done|]. split; [done|].
  set (entry := mkEntry _ _ _ _). intros Hrun.
  assert (NoDup (List.map fst (assignProp k
            (mkMapperFunction (fun (_ : value) (w : W) => (Ret VUndefined, w)) None)
            (MappingBuilder.b_config b)))) as Hnd' by by apply assignProp_NoDup.
  assert (In (k, mkMapperFunction (fun (_ : value) (w : W) => (Ret VUndefined, w)) None)
            (assignProp k
               (mkMapperFunction (fun (_ : value) (w : W) => (Ret VUndefined, w)) None)
               (MappingBuilder.b_config b))) as Hin.
  { apply lookupProp_In, lookupProp_assign_eq. }
  assert (suppressed (options entry) VUndefined = isTrue (skipUndefined (options entry)))
    as Hsup.
  { unfold suppressed. simpl. by rewrite andb_false_r, andb_true_r. }
  pose proof Hrun as Hrun'.
  apply compiledFn_Ret_inv in Hrun
    as (copied & n & applied & w & dest & Hcopy & Happly & Hdec & Hr).
  exists (rt_next rt), dest. split; [done|]. split.
  - intros Hskip.
    destruct (compiledFn_assigns meta mapNested mapArray entry src _ k _ VUndefined
                rt r rt' eq_refl Hnd' Hin (fun _ => eq_refl)) as (id & dest0 & Heq & Hk);
      [by rewrite Hsup | exact Hrun' |].
    rewrite Hr in Heq. by injection Heq as _ <-.
  - intros Hskip copied' n' Hcopy'.
    change (cls_fields (destination entry)) with
      (cls_fields (MappingBuilder.b_destination b)) in Hcopy.
    rewrite Hcopy in Hcopy'. injection Hcopy' as <- <-.
    assert (configured entry k = true) as Hconf.
    { unfold configured. simpl. apply hasKey_assign_eq. }
    rewrite (decoratorMappings_configured meta _ _ _ _ _ _ _ _ _ k Hconf Hdec).
    eapply applyConfig_suppressed; [exact Happly | exact Hnd' | exact Hin | done |].
    by rewrite Hsup.
Qed.

(** X24: the builder's [reverseMap] cannot fail: it registers the forward
    mapping first, so [createReverseMap] finds it.  Afterwards the pair
    (destination, source) resolves to the reverse entry, which carries the
    forward entry's options merged once more with the global options; the
    pair (source, destination) resolves to the forward entry, unless the two
    classes give the same key in both directions, in which case the reverse
    entry has replaced it. *)
Theorem builder_reverseMap_registers_both b m :
  let S := MappingBuilder.b_source b in
  let D := MappingBuilder.b_destination b in
  let fwdOptions := mergeOptions (globalOptions m) (MappingBuilder.b_options b) in
  exists m' rev,
    MappingBuilder.reverseMap b m = Ret m'
    /\ findEntry m' (cls_ctor D) (cls_ctor S) = Some rev
    /\ source rev = D /\ destination rev = S
    /\ config rev = Some (reverseConfig (MappingBuilder.b_config b) [])
    /\ options rev = mergeOptions (globalOptions m) fwdOptions
    /\ (getRegistryKey (cls_ctor S) (cls_ctor D) <> getRegistryKey (cls_ctor D) (cls_ctor S) ->
        findEntry m' (cls_ctor S) (cls_ctor D)
        = Some (mkEntry S D (Some (MappingBuilder.b_config b)) fwdOptions))
    /\ (getRegistryKey (cls_ctor S) (cls_ctor D) = getRegistryKey (cls_ctor D) (cls_ctor S) ->
        findEntry m' (cls_ctor S) (cls_ctor D) = Some rev).
Proof.
  intros S D fwdOptions.
  unfold MappingBuilder.reverseMap, createReverseMap, MappingBuilder.register.
  fold S D. rewrite findEntry_created. simpl config. simpl options.
  eexists _, _. split; [reflexivity|].
  rewrite findEntry_created. split; [reflexivity|].
  split; [done|]. split; [done|]. split; [done|]. split; [done|]. split.
  - intros Hne. rewrite findEntry_after_createMap, decide_False by done.
    by rewrite findEntry_created.
  - intros Heq. rewrite findEntry_after_createMap, decide_True by done. done.
Qed.

End BuilderProps.

Lemma builder_ignore_writes_undefined_witness :
  exists entry,
    findEntry (MappingBuilder.register Samples2.personBuilder (newMapper None))
      (cls_ctor Samples.Person) (cls_ctor Samples.PersonDto) = Some entry
    /\ compiledFn noMetadata Samples.noNested mapItems entry Samples.ann
         (mkRuntime (newMapper None) 0 1000)
       = Some (Ret (VObj 1000 (cls_ctor Samples.PersonDto)
                      [("name", VStr "Ann Lee"); ("age", VUndefined)]),
               mkRuntime (newMapper None) 0 1001).
Proof.
  destruct (builder_ignore_writes_undefined noMetadata Samples.noNested mapItems
              (MappingBuilder.forMember
                 (MappingBuilder.create Samples.Person Samples.PersonDto)
                 "name" (mapFrom "fullName"))
              (newMapper None) "age" Samples.ann (mkRuntime (newMapper None) 0 1000)
              (VObj 1000 (cls_ctor Samples.PersonDto)
                 [("name", VStr "Ann Lee"); ("age", VUndefined)])
              (mkRuntime (newMapper None) 0 1001))
    as (entry & Hfind & Hopts & _).
  { apply NoDup_keys_decide. reflexivity. }
  exists entry. split; [exact Hfind|].
  injection Hfind as <-. reflexivity.
Defined.

Lemma builder_reverseMap_registers_both_witness :
  exists m' rev,
    MappingBuilder.reverseMap (MappingBuilder.create Samples2.ItemA Samples2.ItemB)
      (@newMapper nat None) = Ret m'
    /\ findEntry m' (cls_ctor Samples2.ItemA) (cls_ctor Samples2.ItemB) = Some rev
    /\ source rev = Samples2.ItemB.
Proof.
  destruct (builder_reverseMap_registers_both
              (MappingBuilder.create Samples2.ItemA Samples2.ItemB) (@newMapper nat None))
    as (m' & rev & Hrev & _ & Hsrc & _ & _ & _ & _ & Hsame).
  exists m', rev. split; [exact Hrev|]. split; [|exact Hsrc].
  apply Hsame. reflexivity.
Defined.

(** ** The tables of a mapper in use *)

Section Reachable.
Context {W : Type} (meta : @MetadataProvider W).
Implicit Types (m : @Mapper W) (rt : @Runtime W) (entry : @MappingRegistryEntry W)
  (en : option (@MappingRegistryEntry W)).

Lemma unchanged_refl m : unchanged m m.
Proof. split; [apply sameRegistry_refl | done]. Qed.

Lemma unchanged_trans m1 m2 m3 : unchanged m1 m2 -> unchanged m2 m3 -> unchanged m1 m3.
Proof.
  intros [H1 K1] [H2 K2]. split; [by eapply sameRegistry_trans | congruence].
Qed.

Lemma unchanged_invariant m m' :
  registry_invariant m -> unchanged m m' -> registry_invariant m'.
Proof.
  intros (Hi & Hc & Hr) [(H1 & H2 & _ & _) Hk]. split; [|split].
  - intros e. rewrite H1, H2. apply Hi.
  - congruence.
  - intros k e. rewrite H1, H2. apply Hr.
Qed.

Lemma stableFor_same {A} en (c : @M W A) :
  (forall rt o rt', c rt = Some (o, rt') -> rt_mapper rt' = rt_mapper rt) ->
  stableFor en c.
Proof. intros Hc rt o rt' _ _ H. rewrite (Hc _ _ _ H). apply unchanged_refl. Qed.

Lemma stableFor_ret {A} en (a : A) : stableFor en (@ret W A a).
Proof. apply stableFor_same. by intros rt o rt' [= _ <-]. Qed.

Lemma stableFor_throw {A} en (e : jsError) : stableFor en (@throw W A e).
Proof. apply stableFor_same. by intros rt o rt' [= _ <-]. Qed.

Lemma stableFor_liftOutcome {A} en (r : outcome A) : stableFor en (@liftOutcome W A r).
Proof. apply stableFor_same. by intros rt o rt' [= _ <-]. Qed.

Lemma stableFor_liftWorld {A} en (f : W -> outcome A * W) : stableFor en (@liftWorld W A f).
Proof.
  apply stableFor_same. intros rt o rt'. unfold liftWorld.
  destruct (f (rt_world rt)). by intros [= _ <-].
Qed.

Lemma stableFor_liftAlloc {A} en (f : ref -> outcome A * ref) :
  stableFor en (@liftAlloc W A f).
Proof.
  apply stableFor_same. intros rt o rt'. unfold liftAlloc.
  destruct (f (rt_next rt)). by intros [= _ <-].
Qed.

Lemma stableFor_getMapper en : stableFor en (@getMapper W).
Proof. apply stableFor_same. by intros rt o rt' [= _ <-]. Qed.

Lemma stableFor_bind {A B} en (c : @M W A) (k : A -> @M W B) :
  stableFor en c -> (forall a, stableFor en (k a)) -> stableFor en (bind c k).
Proof.
  intros Hc Hk rt o rt' Hinv He H.
  apply bind_inv in H as [(e & H1 & ->)|(a & rt1 & H1 & H2)].
  - by eapply Hc.
  - pose proof (Hc _ _ _ Hinv He H1) as Hu.
    eapply unchanged_trans; [exact Hu|].
    eapply Hk; [by eapply unchanged_invariant | | exact H2].
    intros e Heq. destruct Hu as [(_ & -> & _) _]. by apply He.
Qed.

Lemma stableFor_tryCatch {A} en (c : @M W A) (wrap : jsError -> jsError) :
  stableFor en c -> stableFor en (tryCatch c wrap).
Proof.
  intros Hc rt o rt' Hinv He. unfold tryCatch.
  destruct (c rt) as [[[a|e] rt1]|] eqn:H; [| |done]; intros [= _ <-]; by eapply Hc.
Qed.

Lemma stableFor_mapItems en (f : value -> @M W value) items :
  (forall it, stableFor en (f it)) -> stableFor en (mapItems f items).
Proof.
  intros Hf. induction items as [|it r IH]; simpl; [apply stableFor_ret|].
  apply stableFor_bind; [apply Hf|]. intros y.
  apply stableFor_bind; [apply IH|]. intros ys. apply stableFor_ret.
Qed.

Lemma stableFor_mapItemsAll en (f : value -> @M W value) items :
  (forall it, stableFor en (f it)) -> stableFor en (mapItemsAll f items).
Proof.
  intros Hf. induction items as [|it r IH]; simpl; [apply stableFor_ret|].
  intros rt o rt' Hinv He.
  destruct (f it rt) as [[y rt1]|] eqn:Hy; [|done].
  destruct (mapItemsAll f r rt1) as [[ys rt2]|] eqn:Hys; [|done].
  intros [= _ <-].
  pose proof (Hf it _ _ _ Hinv He Hy) as Hu.
  eapply unchanged_trans; [exact Hu|].
  eapply IH; [by eapply unchanged_invariant | | exact Hys].
  intros e Heq. destruct Hu as [(_ & -> & _) _]. by apply He.
Qed.

Lemma stableFor_applyTransformer en t (val src : value) :
  stableFor en (@applyTransformer W t val src).
Proof. destruct t; [apply stableFor_liftWorld | apply stableFor_ret]. Qed.

Create HintDb stable.

#[local] Hint Resolve stableFor_ret stableFor_throw stableFor_liftOutcome
  stableFor_liftWorld stableFor_liftAlloc stableFor_getMapper
  stableFor_applyTransformer : stable.

Lemma stableFor_decoratorField en mapNested mapArray entry src destKey dest :
  (forall it c, stableFor en (mapNested it c)) ->
  (forall f items, (forall it, stableFor en (f it)) -> stableFor en (mapArray f items)) ->
  stableFor en (decoratorField meta mapNested mapArray entry src destKey dest).
Proof.
  intros Hn Ha. unfold decoratorField.
  destruct (_ || _); [auto with stable|].
  destruct (truthyPath _).
  { apply stableFor_bind; auto with stable. }
  destruct (nestedTypeFactory _ _ _).
  - apply stableFor_bind; [auto with stable|]. intros nestedVal.
    destruct nestedVal; auto with stable;
      try (apply stableFor_bind; [apply Hn | auto with stable]).
    apply stableFor_bind; [apply stableFor_liftAlloc|]. intros id'.
    apply stableFor_bind; [|auto with stable].
    apply Ha. intros it. apply Hn.
  - apply stableFor_bind; [auto with stable|]. intros [|]; [|auto with stable].
    apply stableFor_bind; [auto with stable|]. intros val.
    apply stableFor_bind; auto with stable.
Qed.

Lemma stableFor_decoratorMappings en mapNested mapArray entry src keys dest :
  (forall it c, stableFor en (mapNested it c)) ->
  (forall f items, (forall it, stableFor en (f it)) -> stableFor en (mapArray f items)) ->
  stableFor en (decoratorMappings meta mapNested mapArray entry src keys dest).
Proof.
  intros Hn Ha. revert dest. induction keys as [|k r IH]; simpl; intros dest.
  - apply stableFor_ret.
  - apply stableFor_bind; [by apply stableFor_decoratorField | auto].
Qed.

Lemma stableFor_compiledFn en mapNested mapArray entry src :
  (forall it c, stableFor en (mapNested it c)) ->
  (forall f items, (forall it, stableFor en (f it)) -> stableFor en (mapArray f items)) ->
  stableFor en (compiledFn meta mapNested mapArray entry src).
Proof.
  intros Hn Ha. unfold compiledFn.
  apply stableFor_bind; [apply stableFor_liftAlloc|]. intros id.
  apply stableFor_bind; [apply stableFor_liftAlloc|]. intros copied.
  apply stableFor_bind; [apply stableFor_liftWorld|]. intros applied.
  apply stableFor_bind; [by apply stableFor_decoratorMappings|]. intros dest.
  apply stableFor_ret.
Qed.

Lemma stableFor_storeResult en entry (sourceObj : value) destinationClass (result : value) :
  stableFor en (storeResult entry sourceObj destinationClass result).
Proof.
  intros rt o rt' _ _. unfold storeResult, bind, getMapper.
  destruct (isCacheEnabled _ _).
  - destruct (identityOf sourceObj).
    + intros [= _ <-]. by repeat split.
    + intros [= _ <-]. apply unchanged_refl.
  - intros [= _ <-]. apply unchanged_refl.
Qed.

(** The table of sync closures already holds the closure of a registered
    entry: [map] never compiles. *)
Lemma compiledFor_registered entry rt :
  registry_invariant (rt_mapper rt) ->
  reverseRegistry (rt_mapper rt) !! entryKey entry = Some entry ->
  compiledFor entry rt = Some (Ret entry, rt).
Proof.
  intros (_ & Hc & _) He. unfold compiledFor, bind, getMapper. by rewrite Hc, He.
Qed.

Lemma stableFor_compiledFor entry : stableFor (Some entry) (compiledFor entry).
Proof.
  intros rt o rt' Hinv He H.
  rewrite compiledFor_registered in H by auto. injection H as _ <-. apply unchanged_refl.
Qed.

Lemma stableFor_compiledAsyncFor en entry : stableFor en (compiledAsyncFor entry).
Proof.
  intros rt o rt' _ _. unfold compiledAsyncFor, bind, getMapper.
  destruct (compiledAsyncMapFns _ !! _).
  - intros [= _ <-]. apply unchanged_refl.
  - intros [= _ <-]. by repeat split.
Qed.

Lemma stableFor_weaken {A} en (c : @M W A) : stable c -> stableFor en c.
Proof. intros Hc rt o rt' Hinv _ H. by eapply Hc. Qed.

Lemma stableFor_mapAttempt mapNested entry (sourceObj : value) destinationClass :
  (forall it c, stable (mapNested it c)) ->
  stableFor (Some entry) (mapAttempt meta mapNested entry sourceObj destinationClass).
Proof.
  intros Hn. unfold mapAttempt.
  apply stableFor_bind.
  { destruct (beforeMap _); [|auto with stable].
    apply stableFor_bind; [|auto with stable].
    destruct (isTrue _); auto with stable. }
  intros preProcessed.
  apply stableFor_bind; [apply stableFor_compiledFor|]. intros compiled.
  apply stableFor_bind.
  { apply stableFor_compiledFn.
    - intros it c. apply stableFor_weaken, Hn.
    - intros f items. apply stableFor_mapItems. }
  intros result. apply stableFor_bind.
  { destruct (afterMap _); auto with stable. }
  intros result'.
  apply stableFor_bind; [apply stableFor_storeResult | auto with stable].
Qed.

Lemma found_is_registered m (s d : Ctor) entry :
  registry_invariant m ->
  findEntry m s d = Some entry ->
  reverseRegistry m !! entryKey entry = Some entry.
Proof.
  intros (Hi & _ & Hr) Hf. rewrite findEntry_indexed in Hf by done.
  destruct (Hr _ _ Hf) as [-> _]. done.
Qed.

Lemma stable_map fuel (sourceObj : value) destinationClass o :
  stable (map meta fuel sourceObj destinationClass o).
Proof.
  revert sourceObj destinationClass o.
  induction fuel as [|fuel IH]; intros sourceObj destinationClass o; [by intros rt ? ?|].
  intros rt res rt' Hinv _ H. simpl in H. unfold mapBody in H.
  destruct (constructorOf sourceObj) as [c|]; [|injection H as _ <-; apply unchanged_refl].
  unfold bind at 1, getMapper in H.
  destruct (findEntry (rt_mapper rt) c (cls_ctor destinationClass)) as [entry|] eqn:Hf;
    [|injection H as _ <-; apply unchanged_refl].
  destruct (cachedResult _ _ _ _); [injection H as _ <-; apply unchanged_refl|].
  refine (stableFor_tryCatch (Some entry) _ _ _ rt res rt' Hinv _ H).
  - apply stableFor_mapAttempt. intros it nestedType. apply IH.
  - intros e [= <-]. by eapply found_is_registered.
Qed.

Lemma stable_mapAsync fuel (sourceObj : value) destinationClass o :
  stable (mapAsync meta fuel sourceObj destinationClass o).
Proof.
  revert sourceObj destinationClass o.
  induction fuel as [|fuel IH]; intros sourceObj destinationClass o; [by intros rt ? ?|].
  simpl. unfold mapAsyncBody.
  destruct (constructorOf sourceObj); [|apply stableFor_throw].
  apply stableFor_bind; [apply stableFor_getMapper|]. intros m.
  destruct (findEntry _ _ _); [|apply stableFor_throw].
  destruct (cachedResult _ _ _ _); [apply stableFor_ret|].
  unfold mapAsyncAttempt.
  apply stableFor_bind.
  { destruct (beforeMap _); [|auto with stable].
    apply stableFor_bind; auto with stable. }
  intros preProcessed.
  apply stableFor_bind; [apply stableFor_compiledAsyncFor|]. intros compiled.
  apply stableFor_bind.
  { apply stableFor_compiledFn; [intros it nestedType; apply IH|].
    intros f items. apply stableFor_mapItemsAll. }
  intros result. apply stableFor_bind.
  { destruct (afterMap _); auto with stable. }
  intros result'.
  apply stableFor_bind; [apply stableFor_storeResult | auto with stable].
Qed.

Lemma stable_mapArray fuel (sourceArray : value) destinationClass o :
  stable (mapArray meta fuel sourceArray destinationClass o)
  /\ stable (mapArrayAsync meta fuel sourceArray destinationClass o).
Proof.
  unfold mapArray, mapArrayAsync.
  split; destruct sourceArray; try apply stableFor_throw;
    (apply stableFor_bind; [apply stableFor_liftAlloc|]); intros id';
    (apply stableFor_bind; [|intros vs; apply stableFor_ret]).
  - apply stableFor_mapItems. intros it. apply stable_map.
  - apply stableFor_mapItemsAll. intros it. apply stable_mapAsync.
Qed.

Lemma built_invariant m : built meta m -> registry_invariant m.
Proof.
  induction 1 as [o|m s d cfg o _ IH|m s d m' _ IH Hrev|m b _ IH|m _ IH
                  |m w n fuel src D o res rt' _ IH Hrun
                  |m w n fuel src D o res rt' _ IH Hrun
                  |m w n fuel src D o res rt' _ IH Hrun
                  |m w n fuel src D o res rt' _ IH Hrun].
  - split; [apply newMapper_indexed|]. by destruct o as [[]|].
  - by apply createMap_invariant.
  - unfold createReverseMap in Hrev. destruct (findEntry _ _ _); [|done].
    injection Hrev as <-. by apply createMap_invariant.
  - done.
  - split; [by intros e []|]. split; [done|]. intros k e. simpl. by rewrite lookup_empty.
  - eapply unchanged_invariant; [exact IH|].
    refine (stable_map fuel src D o (mkRuntime m w n) res rt' IH _ Hrun). by intros e.
  - eapply unchanged_invariant; [exact IH|].
    refine (stable_mapAsync fuel src D o (mkRuntime m w n) res rt' IH _ Hrun). by intros e.
  - eapply unchanged_invariant; [exact IH|].
    refine (proj1 (stable_mapArray fuel src D o) (mkRuntime m w n) res rt' IH _ Hrun).
    by intros e.
  - eapply unchanged_invariant; [exact IH|].
    refine (proj2 (stable_mapArray fuel src D o) (mkRuntime m w n) res rt' IH _ Hrun).
    by intros e.
Qed.

(** X10: the tables of a mapper in use.  In a mapper that has been set up
    by its constructor, [createMap], [createReverseMap], [setCacheEnabled]
    and [clear], with any mapping calls in between, the lookup of an entry is
    the lookup of the key [S.name->D.name] in the key table (the scan of the
    list by class identity never answers), every entry of that table sits
    under its own key and is listed, and the table of sync closures holds a
    closure for exactly the same keys and entries, so that [map] never has
    to compile one. *)
Theorem built_registry_is_name_keyed m :
  built meta m ->
  (forall s d : Ctor, findEntry m s d = reverseRegistry m !! getRegistryKey s d)
  /\ compiledMapFns m = reverseRegistry m
  /\ (forall k e, reverseRegistry m !! k = Some e -> entryKey e = k /\ In e (registry m))
  /\ (forall (s d : Ctor) entry w n,
        findEntry m s d = Some entry ->
        compiledFor entry (mkRuntime m w n) = Some (Ret entry, mkRuntime m w n)).
Proof.
  intros Hb. pose proof (built_invariant m Hb) as Hinv.
  destruct Hinv as (Hi & Hc & Hr) eqn:Heq. clear Heq.
  split; [intros s d; by apply findEntry_indexed|]. split; [done|]. split; [done|].
  intros s d entry w n Hf. apply compiledFor_registered; [exact (built_invariant m Hb)|].
  by eapply found_is_registered; [exact (built_invariant m Hb)|].
Qed.

Lemma bind_run {A B} (c : @M W A) (k : A -> @M W B) rt (a : A) rt1 :
  c rt = Some (Ret a, rt1) -> bind c k rt = k a rt1.
Proof. intros H. unfold bind. by rewrite H. Qed.

Lemma copyProperties_total (o : @MappingEntryOptions W) src keys dest n :
  convertNaming o = None ->
  exists dest' n', copyProperties o src keys dest n = (Ret dest', n').
Proof.
  intros Hconv. revert dest n. induction keys as [|k r IH]; simpl; intros dest n; [eauto|].
  unfold copyKey, targetKeyOf. rewrite Hconv.
  destruct (skipsKey _ _ _); [apply IH|].
  destruct (hasKey k dest); [|apply IH].
  destruct (isTrue _); [destruct (deepClone _ _)|]; apply IH.
Qed.

Lemma compiledFn_lenient mapNested mapArray entry (src : value) rt :
  convertNaming (options entry) = None ->
  isTrue (strict (options entry)) = false ->
  autoMapKeys meta (cls_ctor (destination entry)) = [] ->
  exists dest rt',
    compiledFn meta mapNested mapArray entry src rt
    = Some (Ret (VObj (rt_next rt) (cls_ctor (destination entry)) dest), rt')
    /\ rt_mapper rt' = rt_mapper rt.
Proof.
  intros Hconv Hstrict Hauto. unfold compiledFn. rewrite Hauto.
  destruct (copyProperties_total (options entry) src (ownKeys src)
              (cls_fields (destination entry)) (S (rt_next rt)) Hconv) as (copied & n1 & Hc).
  destruct (applyConfig_lenient (options entry) src (configOf entry) copied (rt_world rt)
              Hstrict) as (applied & w1 & Ha).
  exists applied, (mkRuntime (rt_mapper rt) w1 n1). split; [|done].
  unfold bind, alloc, liftAlloc, liftWorld. simpl. rewrite Hc. simpl. by rewrite Ha.
Qed.

(** X25: a plain mapping always returns.  On a mapper in use, for a
    registered pair whose merged options have no hooks, no naming
    conversion, no strict mode and no cloning on copy, and whose destination
    class has no decorated field, [map] returns a value for every source
    object, whatever its field functions do; with the cache off for the
    entry that value is a new instance of the destination class.  This for
    source keys and field-function keys that are none of the members of
    [Object.prototype]. *)
Theorem plain_mapping_always_returns m (w : W) (n : ref) fuel (sourceObj : value)
    (destinationClass : ClassType) o (sourceCtor : Ctor) entry :
  built meta m ->
  constructorOf sourceObj = Some sourceCtor ->
  findEntry m sourceCtor (cls_ctor destinationClass) = Some entry ->
  beforeMap (options entry) = None ->
  afterMap (options entry) = None ->
  convertNaming (options entry) = None ->
  isTrue (strict (options entry)) = false ->
  isTrue (deepCloneOpt (options entry)) = false ->
  autoMapKeys meta (cls_ctor (destination entry)) = [] ->
  ownTargets (options entry) (ownKeys sourceObj) ->
  Forall (fun k => inherited k = false) (List.map fst (configOf entry)) ->
  (isCacheEnabled m entry = true -> is_Some (identityOf sourceObj)) ->
  exists r rt',
    map meta (S fuel) sourceObj destinationClass o (mkRuntime m w n) = Some (Ret r, rt')
    /\ (isCacheEnabled m entry = false ->
        exists dest, r = VObj n (cls_ctor (destination entry)) dest).
Proof.
  intros Hb Hc Hf Hbefore Hafter Hconv Hstrict _ Hauto _ _ Hid.
  pose proof (built_invariant m Hb) as Hinv.
  set (rt := mkRuntime m w n).
  change (map meta (S fuel) sourceObj destinationClass o rt)
    with (mapBody meta (fun it nestedType => map meta fuel it nestedType None)
            sourceObj destinationClass o rt).
  unfold mapBody. rewrite Hc. unfold bind at 1, getMapper.
  change (rt_mapper rt) with m. rewrite Hf.
  destruct (cachedResult m entry sourceObj destinationClass) as [cached|] eqn:Hcached.
  { exists cached, rt. split; [done|]. intros Hoff.
    unfold cachedResult in Hcached. by rewrite Hoff in Hcached. }
  unfold tryCatch, mapAttempt. rewrite Hbefore, Hafter.
  rewrite (bind_run _ _ rt sourceObj rt) by done.
  rewrite (bind_run _ _ rt entry rt).
  2:{ apply compiledFor_registered; [done|]. by eapply found_is_registered. }
  destruct (compiledFn_lenient (fun it nestedType => map meta fuel it nestedType None)
              mapItems entry sourceObj rt Hconv Hstrict Hauto) as (dest & rt1 & Hrun & Hm).
  rewrite (bind_run _ _ rt _ rt1 Hrun).
  rewrite (bind_run _ _ rt1 _ rt1) by done.
  assert (exists rt2,
            storeResult entry sourceObj destinationClass
              (VObj (rt_next rt) (cls_ctor (destination entry)) dest) rt1
            = Some (Ret tt, rt2)) as [rt2 Hstore].
  { unfold storeResult, bind, getMapper. rewrite Hm. change (rt_mapper rt) with m.
    destruct (isCacheEnabled m entry) eqn:Hcache.
    - destruct (Hid eq_refl) as [id ->]. unfold putMapper. eauto.
    - unfold ret. eauto. }
  rewrite (bind_run _ _ rt1 tt rt2 Hstore).
  eexists _, _. split; [reflexivity|]. intros _. by exists dest.
Qed.

End Reachable.

Lemma built_registry_is_name_keyed_witness :
  (forall s d : Ctor,
     findEntry Samples.personMapper s d
     = reverseRegistry Samples.personMapper !! getRegistryKey s d)
  /\ compiledMapFns Samples.personMapper = reverseRegistry Samples.personMapper.
Proof.
  destruct (built_registry_is_name_keyed noMetadata Samples.personMapper)
    as (H1 & H2 & _).
  - apply built_createMap, built_new.
  - split; [exact H1 | exact H2].
Defined.

Lemma plain_mapping_always_returns_witness :
  exists r rt',
    map noMetadata 1 Samples.ann Samples.PersonDto None
      (mkRuntime Samples.personMapper 0 1000) = Some (Ret r, rt')
    /\ (isCacheEnabled Samples.personMapper Samples.personEntry = false ->
        exists dest, r = VObj 1000 (cls_ctor (destination Samples.personEntry)) dest).
Proof.
  apply (plain_mapping_always_returns noMetadata Samples.personMapper 0 1000 0 Samples.ann
           Samples.PersonDto None (cls_ctor Samples.Person) Samples.personEntry);
    try reflexivity.
  - apply built_createMap, built_new.
  - vm_compute. repeat constructor.
  - vm_compute. repeat constructor.
  - discriminate.
Defined.

(** ** Cloning on copy, mapWithMetadata and the mapping context *)

Section MoreProps.
Context {W : Type} (meta : @MetadataProvider W).

Lemma copyKey_fresh (o : @MappingEntryOptions W) (src : value) k dest n dest' n' :
  isTrue (deepCloneOpt o) = true ->
  copyKey o src k dest n = (Ret dest', n') ->
  n <= n'
  /\ forall x v, lookupProp x dest' = Some v ->
       lookupProp x dest = Some v \/ (forall id, In id (identities v) -> n <= id < n').
Proof.
  intros Hclone. unfold copyKey. rewrite Hclone.
  destruct (skipsKey _ _ _); [intros [= <- <-]; split; [lia | by left]|].
  destruct (targetKeyOf o k) as [t|]; [|done].
  destruct (hasKey t dest); [|intros [= <- <-]; split; [lia | by left]].
  destruct (deepClone_identities_seq (readProp k (propsOf src)) n) as [Hids Hle].
  destruct (deepClone (readProp k (propsOf src)) n) as [v' n1]. simpl in *.
  intros [= <- <-]. split; [done|]. intros x v Hx.
  destruct (decide (t = x)) as [->|Hne].
  - rewrite lookupProp_assign_eq in Hx. injection Hx as <-. right.
    intros id Hid. rewrite Hids in Hid. apply in_seq in Hid. lia.
  - rewrite lookupProp_assign_ne in Hx by done. by left.
Qed.

Lemma copyProperties_fresh (o : @MappingEntryOptions W) (src : value) keys dest n dest' n' :
  isTrue (deepCloneOpt o) = true ->
  copyProperties o src keys dest n = (Ret dest', n') ->
  n <= n'
  /\ forall x v, lookupProp x dest' = Some v ->
       lookupProp x dest = Some v \/ (forall id, In id (identities v) -> n <= id < n').
Proof.
  intros Hclone. revert dest n. induction keys as [|k r IH]; simpl; intros dest n.
  - intros [= <- <-]. split; [lia | by left].
  - destruct (copyKey o src k dest n) as [[d1|e] n1] eqn:Hk; [|done].
    intros H. apply IH in H as [Hle Hrest].
    apply copyKey_fresh in Hk as [Hle1 Hfirst]; [|done].
    split; [lia|]. intros x v Hx.
    destruct (Hrest x v Hx) as [Hd1|Hfresh].
    + destruct (Hfirst x v Hd1) as [Hd|Hfresh]; [by left|].
      right. intros id Hid. specialize (Hfresh id Hid). lia.
    + right. intros id Hid. specialize (Hfresh id Hid). lia.
Qed.

Lemma copyProperties_shares (o : @MappingEntryOptions W) (src : value) keys dest n dest' n' :
  isTrue (deepCloneOpt o) = false ->
  copyProperties o src keys dest n = (Ret dest', n') ->
  n' = n
  /\ forall x v, lookupProp x dest' = Some v ->
       lookupProp x dest = Some v \/ exists k, In k keys /\ v = readProp k (propsOf src).
Proof.
  intros Hclone. revert dest n. induction keys as [|k r IH]; simpl; intros dest n.
  - intros [= <- <-]. split; [done | by left].
  - unfold copyKey at 1. rewrite Hclone.
    destruct (skipsKey _ _ _).
    { intros H. apply IH in H as [-> Hrest]. split; [done|]. intros x v Hx.
      destruct (Hrest x v Hx) as [?|(k0 & Hin & ->)]; [by left | right; eauto]. }
    destruct (targetKeyOf o k) as [t|]; [|done].
    destruct (hasKey t dest).
    + intros H. apply IH in H as [-> Hrest]. split; [done|]. intros x v Hx.
      destruct (Hrest x v Hx) as [Hd1|(k0 & Hin & ->)]; [|right; eauto].
      destruct (decide (t = x)) as [->|Hne].
      * rewrite lookupProp_assign_eq in Hd1. injection Hd1 as <-. right. eauto.
      * rewrite lookupProp_assign_ne in Hd1 by done. by left.
    + intros H. apply IH in H as [-> Hrest]. split; [done|]. intros x v Hx.
      destruct (Hrest x v Hx) as [?|(k0 & Hin & ->)]; [by left | right; eauto].
Qed.

(** X26: the [deepClone] option unties the result from the source.  With
    it, every value the copy step writes is a fresh clone: all its objects
    have identities handed out during the step.  Without it the step
    allocates nothing and what it writes is the very value the source holds,
    so a nested object is shared between source and result. *)
Theorem copy_clones_or_shares (o : @MappingEntryOptions W) (src : value) keys dest n
    dest' n' :
  copyProperties o src keys dest n = (Ret dest', n') ->
  (isTrue (deepCloneOpt o) = true ->
   n <= n'
   /\ forall x v, lookupProp x dest' = Some v ->
        lookupProp x dest = Some v \/ (forall id, In id (identities v) -> n <= id < n'))
  /\ (isTrue (deepCloneOpt o) = false ->
      n' = n
      /\ forall x v, lookupProp x dest' = Some v ->
           lookupProp x dest = Some v
           \/ exists k, In k keys /\ v = readProp k (propsOf src)).
Proof.
  intros H. split; intros Hclone.
  - by eapply copyProperties_fresh.
  - by eapply copyProperties_shares.
Qed.



End MoreProps.

Lemma copy_clones_or_shares_witness :
  (3 <= 4
   /\ forall x v, lookupProp x [("lid", VObj 3 ObjectCtor [("open", VBool true)])] = Some v ->
        lookupProp x (cls_fields Samples2.Box) = Some v
        \/ (forall id, In id (identities v) -> 3 <= id < 4)).
Proof.
  destruct (copy_clones_or_shares Samples2.cloning Samples2.box (ownKeys Samples2.box)
              (cls_fields Samples2.Box) 3
              [("lid", VObj 3 ObjectCtor [("open", VBool true)])] 4 eq_refl) as [H _].
  exact (H eq_refl).
Defined.


(** ** The mapping context *)

(** X28: the depth of a mapping context.  In a context made by
    [createMappingContext] from contexts made the same way, [depth] is the
    number of contexts above it: 0 for a root, one more than the parent's
    otherwise. *)
Theorem context_depth_counts_ancestors (c : MappingContext) :
  fromFactory c -> ctx_depth c = Some (Z.of_nat (ancestors c)).
Proof.
  induction 1 as [s d|s d p Hp IH]; [done|].
  simpl. rewrite IH. simpl. f_equal. lia.
Qed.

Lemma context_depth_counts_ancestors_witness :
  ctx_depth (createMappingContext (VNum 2) VUndefined
               (Some (createMappingContext (VNum 1) VUndefined
                        (Some (createMappingContext VNull VUndefined None)))))
  = Some 2%Z.
Proof.
  apply (context_depth_counts_ancestors
           (createMappingContext (VNum 2) VUndefined
              (Some (createMappingContext (VNum 1) VUndefined
                       (Some (createMappingContext VNull VUndefined None)))))).
  repeat constructor.
Defined.
